(** * matrix-github: webhook gateway and user notification watcher

    A shallow embedding of [src/GithubWebhooks.ts] and of
    [UserNotificationWatcher.ts], followed by the properties proved about
    them.

    - [Crypto]: the HMAC-SHA1 primitive behind [createHmac("sha1", secret)].
    - [Interfaces]: the payload interfaces both files share.
    - [UserNotificationWatcher]: the class of that name: the map of
      streams, the array of user ids, and the polling loop with its
      awaits made explicit.
    - [GithubWebhooks]: the class of that name: signature check, event
      classification, request handling, [listen] and [stop].
    - [OAuth]: the route [onGetOauth] of [GithubWebhooks]. *)

From Stdlib Require Import ZArith List Ascii String Lia.
From Stdlib Require SpecFloat.
From stdpp Require Import base option list gmap strings.
Import ListNotations.

Open Scope Z_scope.

(* ===================================================================== *)
(** * Crypto: SHA-1 (RFC 3174) and HMAC (RFC 2104)

    Node's [crypto.createHmac("sha1", key).update(buf).digest("hex")].
    Words are 32-bit integers held in [Z], with the wrap-around written
    out; bytes are integers 0..255. *)
(* ===================================================================== *)
Module Crypto.

Definition w32 (x : Z) : Z := Z.land x 0xFFFFFFFF.

Definition rotl (n x : Z) : Z :=
  w32 (Z.lor (Z.shiftl x n) (Z.shiftr x (32 - n))).

Definition notw (x : Z) : Z := Z.lxor x 0xFFFFFFFF.

(** The [n] low bytes of [x], most significant first. *)
Definition be_bytes (n : nat) (x : Z) : list Z :=
  map (fun i => Z.land (Z.shiftr x (8 * Z.of_nat i)) 0xFF) (rev (seq 0 n)).

(** Message padding: a 1 bit, zeros up to 56 mod 64, the bit length on 64 bits. *)
Definition pad (msg : list Z) : list Z :=
  let len := Z.of_nat (length msg) in
  msg ++ [0x80] ++ repeat 0 (Z.to_nat ((55 - len) mod 64)) ++ be_bytes 8 (8 * len).

Fixpoint words (fuel : nat) (bs : list Z) : list Z :=
  match fuel, bs with
  | S fuel', b0 :: b1 :: b2 :: b3 :: bs' =>
      (Z.shiftl b0 24 + Z.shiftl b1 16 + Z.shiftl b2 8 + b3) :: words fuel' bs'
  | _, _ => []
  end.

Fixpoint blocks (fuel : nat) (ws : list Z) : list (list Z) :=
  match fuel, ws with
  | S fuel', _ :: _ => take 16 ws :: blocks fuel' (drop 16 ws)
  | _, _ => []
  end.

(** The message schedule, newest word first: w[t] from w[t-3], w[t-8],
    w[t-14] and w[t-16]. *)
Fixpoint expand (n : nat) (rw : list Z) : list Z :=
  match n with
  | O => rw
  | S n' =>
      expand n' (rotl 1 (Z.lxor (Z.lxor (nth 2 rw 0) (nth 7 rw 0))
                                (Z.lxor (nth 13 rw 0) (nth 15 rw 0))) :: rw)
  end.

Definition schedule (block : list Z) : list Z := rev (expand 64 (rev block)).

Definition H5 : Type := (Z * Z * Z * Z * Z)%type.

Definition round (i : nat) (st : H5) (w : Z) : H5 :=
  let '(a, b, c, d, e) := st in
  let '(f, k) :=
    if (i <? 20)%nat then (Z.lor (Z.land b c) (Z.land (notw b) d), 0x5A827999)
    else if (i <? 40)%nat then (Z.lxor (Z.lxor b c) d, 0x6ED9EBA1)
    else if (i <? 60)%nat then
      (Z.lor (Z.lor (Z.land b c) (Z.land b d)) (Z.land c d), 0x8F1BBCDC)
    else (Z.lxor (Z.lxor b c) d, 0xCA62C1D6) in
  (w32 (rotl 5 a + f + e + k + w), a, rotl 30 b, c, d).

Definition compress (h : H5) (block : list Z) : H5 :=
  let '(a0, b0, c0, d0, e0) := h in
  let '(a, b, c, d, e) :=
    snd (fold_left (fun acc w => (S (fst acc), round (fst acc) (snd acc) w))
                   (schedule block) (O, h)) in
  (w32 (a0 + a), w32 (b0 + b), w32 (c0 + c), w32 (d0 + d), w32 (e0 + e)).

Definition sha1 (msg : list Z) : list Z :=
  let p := pad msg in
  let '(a, b, c, d, e) :=
    fold_left compress (blocks (length p) (words (length p) p))
      (0x67452301, 0xEFCDAB89, 0x98BADCFE, 0x10325476, 0xC3D2E1F0) in
  concat (map (be_bytes 4) [a; b; c; d; e]).

Definition hmac_sha1 (key msg : list Z) : list Z :=
  let k0 := if (64 <? length key)%nat then sha1 key else key in
  let k := k0 ++ repeat 0 (64 - length k0)%nat in
  sha1 (map (Z.lxor 0x5C) k ++ sha1 (map (Z.lxor 0x36) k ++ msg)).

Definition hex_digit (n : Z) : ascii :=
  if n <? 10 then ascii_of_nat (Z.to_nat (48 + n))
  else ascii_of_nat (Z.to_nat (87 + n)).

(** [digest("hex")]: two lower-case digits per byte. *)
Fixpoint hex (bs : list Z) : string :=
  match bs with
  | [] => EmptyString
  | b :: bs' =>
      String (hex_digit (Z.shiftr b 4)) (String (hex_digit (Z.land b 0xF)) (hex bs'))
  end.

Definition Z_of_byte (b : Byte.byte) : Z := Z.of_N (Byte.to_N b).

(** A JS string used as a key is taken by its bytes. *)
Definition bytes_of_string (s : string) : list Byte.byte := list_byte_of_string s.

(** [createHmac("sha1", secret).update(buf).digest("hex")]. *)
Definition hmac_sha1_hex (secret : string) (buf : list Byte.byte) : string :=
  hex (hmac_sha1 (map Z_of_byte (bytes_of_string secret)) (map Z_of_byte buf)).

End Crypto.

(* ===================================================================== *)
(** * Interfaces shared by the two source files *)
(* ===================================================================== *)
Module Interfaces.

(** Payloads the code only passes along ([any], or octokit response
    types) are kept as their JSON text. *)
Definition Json : Type := string.

(** [MessageQueueMessage<T>] as the two files build it. *)
Record MessageQueueMessage (T : Type) : Type := mkMessage {
  eventName : string;
  sender : string;
  data : T;
}.
Arguments mkMessage {T} _ _ _.
Arguments eventName {T} _.
Arguments sender {T} _.
Arguments data {T} _.

(** A value of the parsed request body, as far as the code looks at it.
    [req.body] is what [express.json] parsed and is cast to
    [IWebhookEvent] unchecked, so a field can hold any JSON value: a
    number is the double [JSON.parse] makes of it, an object or an array
    keeps its JSON text. *)
Inductive JsValue : Type :=
| JsNull
| JsBool (b : bool)
| JsNumber (x : SpecFloat.spec_float)
| JsString (s : string)
| JsObject (text : Json).

Record IssuesGetResponseUser : Type := mkUser { login : string }.

Record Changes : Type := mkChanges { title_from : option string }.

(** [IWebhookEvent]: an optional field is [None] when it is absent. *)
Record IWebhookEvent : Type := mkWebhookEvent {
  action : string;
  issue : option JsValue;
  comment : option JsValue;
  repository : option Json;
  wh_sender : option IssuesGetResponseUser;
  changes : option Changes;
}.

Record NotificationsEnableEvent : Type := mkEnable {
  user_id : string;
  room_id : string;
  since : Z;
  token : string;
}.

Record NotificationsDisableEvent : Type := mkDisable { disable_user_id : string }.

(** A promise settles one of two ways; so does a call that may throw. *)
Inductive Outcome (A : Type) : Type :=
| Resolved (a : A)
| Rejected.
Arguments Resolved {A} _.
Arguments Rejected {A}.

(** JS truthiness of a string: the empty string is falsy. *)
Definition truthy (s : string) : bool := negb (String.eqb s "").

(** JS truthiness of a value: [null], [false], [0], [-0], [NaN] and the
    empty string are falsy, everything else is truthy. *)
Definition truthy_value (v : JsValue) : bool :=
  match v with
  | JsNull => false
  | JsBool b => b
  | JsNumber (SpecFloat.S754_zero _) | JsNumber SpecFloat.S754_nan => false
  | JsNumber _ => true
  | JsString s => truthy s
  | JsObject _ => true
  end.

(** What [if (x)] and [a && x] see of a field that may be absent:
    [undefined] is falsy. *)
Definition holds (o : option JsValue) : bool :=
  match o with
  | Some v => truthy_value v
  | None => false
  end.

End Interfaces.
Export Interfaces.

(* ===================================================================== *)
(** * [UserNotificationWatcher]

    The class keeps a map from user id to a [UserStream] object, an array
    of user ids and a flag.  The loop of [fetchUserNotifications] holds a
    reference to the stream it is polling across its awaits, while the
    bus handlers [addUser] and [removeUser] may run during any await; so
    stream objects live in a store and the map holds references.

    What the world does during one pass of the loop (what each awaited
    promise settles to, how long it takes, which handlers run meanwhile)
    is an input of the pass.  Time is [Date.now()] in milliseconds. *)
(* ===================================================================== *)
Module UserNotificationWatcher.

Inductive Reason : Type :=
| assign | author | comment_reason | invitation | manual | mention
| review_required | security_alert | state_change | subscribed | team_mention.

Inductive SubjectType : Type := PullRequest | Issue.

Record Subject : Type := mkSubject {
  title : string;
  subject_url : string;
  latest_comment_url : option string;          (* string | null *)
  type : SubjectType;
  url_data : option Json;                      (* unset until resolved *)
  latest_comment_url_data : option Json;
}.

Record UserNotification : Type := mkNotification {
  id : string;
  reason : Reason;
  unread : bool;
  updated_at : Z;
  last_read_at : Z;
  url : string;
  subject : Subject;
  repository : Json;
}.

Record UserNotificationsEvent : Type := mkEvents {
  ev_roomId : string;
  ev_lastReadTs : Z;
  events : list UserNotification;
}.

(** [octoKit] is the client built from the user's token; the token stands
    for it. *)
Record UserStream : Type := mkStream {
  octoKit : string;
  userId : string;
  roomId : string;
  lastReadTs : Z;
}.

Definition MIN_INTERVAL_MS : Z := 45000.

(** ** Observable effects *)

Inductive Level : Type := info | warn | error.

(** The log statements of the file, by what they report. *)
Inductive LogLine : Type :=
| NoUsersQueued                               (* line 64 *)
| DroppingFromQueue                           (* line 70 *)
| ReadAgo (ago interval : Z)                  (* line 75 *)
| Getting (userId : string) (lastReadTs : Z)  (* line 78 *)
| FailedToPreprocess (id : string)            (* line 98 *)
| ErrorGettingNotifications                   (* line 113 *)
| Removed (userId : string)                   (* line 121 *)
| Inserted (userId : string)                  (* line 140 *)
| Reinserted (userId : string).               (* line 143 *)

Inductive Req : Type :=
| Notifications (since : option Z)   (* /notifications?participating=true[&since=..] *)
| Resource (url : string).

Inductive Effect : Type :=
| Log (lvl : Level) (line : LogLine)
| Timer (ms : Z)                                       (* setTimeout(res, ms) *)
| Request (client : string) (req : Req) (at_ms : Z)    (* octoKit.request, and when *)
| Push (msg : MessageQueueMessage UserNotificationsEvent).

(** ** State *)

Record State : Type := mkState {
  userStreams : gmap string nat;   (* Map<string, UserStream>: references *)
  objects : list UserStream;       (* the stream objects, by reference *)
  userQueue : list string;         (* string[], index 0 first *)
  shouldListen : bool;
  now : Z;                         (* Date.now() *)
  effects : list Effect;           (* oldest first *)
}.

Definition new (t : Z) : State :=
  {| userStreams := ∅; objects := []; userQueue := []; shouldListen := false;
     now := t; effects := [] |}.

Definition with_userStreams (m : gmap string nat) (s : State) : State :=
  {| userStreams := m; objects := objects s; userQueue := userQueue s;
     shouldListen := shouldListen s; now := now s; effects := effects s |}.

Definition with_objects (h : list UserStream) (s : State) : State :=
  {| userStreams := userStreams s; objects := h; userQueue := userQueue s;
     shouldListen := shouldListen s; now := now s; effects := effects s |}.

Definition with_userQueue (q : list string) (s : State) : State :=
  {| userStreams := userStreams s; objects := objects s; userQueue := q;
     shouldListen := shouldListen s; now := now s; effects := effects s |}.

Definition with_shouldListen (b : bool) (s : State) : State :=
  {| userStreams := userStreams s; objects := objects s; userQueue := userQueue s;
     shouldListen := b; now := now s; effects := effects s |}.

Definition advance (ms : Z) (s : State) : State :=
  {| userStreams := userStreams s; objects := objects s; userQueue := userQueue s;
     shouldListen := shouldListen s; now := now s + ms; effects := effects s |}.

Definition emit (e : Effect) (s : State) : State :=
  {| userStreams := userStreams s; objects := objects s; userQueue := userQueue s;
     shouldListen := shouldListen s; now := now s; effects := effects s ++ [e] |}.

Definition log (lvl : Level) (line : LogLine) : State → State := emit (Log lvl line).

Definition null_stream : UserStream :=
  {| octoKit := ""; userId := ""; roomId := ""; lastReadTs := 0 |}.

(** Reading through a reference. *)
Definition deref (s : State) (ref : nat) : UserStream :=
  default null_stream (objects s !! ref).

(** ** Array operations on [userQueue] *)

(** [Array.prototype.push]: at the end. *)
Definition push_back (x : string) (q : list string) : list string := q ++ [x].

(** [Array.prototype.pop]: takes the last element, [undefined] when empty. *)
Definition pop (q : list string) : option string * list string :=
  (last q, removelast q).

(** [Array.prototype.unshift]: at index 0. *)
Definition unshift (x : string) (q : list string) : list string := x :: q.

(** ** The bus handlers *)

(** Lines 119-122. *)
Definition removeUser (userId : string) (s : State) : State :=
  log info (Removed userId)
    (with_userStreams (delete userId (userStreams s)) s).

(** Lines 124-145.  The object literal is a new stream object. *)
Definition addUser (data : NotificationsEnableEvent) (s : State) : State :=
  let existing := bool_decide (is_Some (userStreams s !! user_id data)) in
  let ref := length (objects s) in
  let stream :=
    {| octoKit := token data; userId := user_id data;
       roomId := room_id data; lastReadTs := since data |} in
  let s1 :=
    with_userStreams (<[user_id data := ref]> (userStreams s))
      (with_objects (objects s ++ [stream]) s) in
  if negb existing then
    with_userQueue (push_back (user_id data) (userQueue s1))
      (log info (Inserted (user_id data)) s1)
  else
    log info (Reinserted (user_id data)) s1.

(** The two subscriptions of the [GithubWebhooks] constructor (lines 66-71). *)
Inductive Handler : Type :=
| AddUser (data : NotificationsEnableEvent)
| RemoveUser (userId : string).

Definition handle (s : State) (h : Handler) : State :=
  match h with
  | AddUser data => addUser data s
  | RemoveUser userId => removeUser userId s
  end.

(** ** Awaits *)

(** While the loop is suspended the handlers in [during] run, in order,
    and [elapsed] milliseconds pass. *)
Record Await : Type := mkAwait {
  during : list Handler;
  elapsed : N;
}.

Definition await (a : Await) (s : State) : State :=
  advance (Z.of_N (elapsed a)) (foldl handle s (during a)).

(** Node's [setTimeout(callback, delay)]: a delay below 1 or above
    [TIMEOUT_MAX] is set to 1. *)
Definition TIMEOUT_MAX : Z := 2147483647.

Definition timer_delay (ms : Z) : Z :=
  if (1 <=? ms) && (ms <=? TIMEOUT_MAX) then ms else 1.

(** [await new Promise((res) => setTimeout(res, ms))]: the timer fires
    after the delay Node makes of [ms] or, by [elapsed], later still. *)
Definition sleep (ms : Z) (a : Await) (s : State) : State :=
  await a (advance (timer_delay ms) (emit (Timer ms) s)).

(** ** Code that may throw *)

Definition Task (A : Type) : Type := State → State * Outcome A.

#[global] Instance task_ret : MRet Task := λ A a s, (s, Resolved a).

#[global] Instance task_bind : MBind Task := λ A B f m s,
  match m s with
  | (s', Resolved a) => f a s'
  | (s', Rejected) => (s', Rejected)
  end.

Definition throw {A} : Task A := λ s, (s, Rejected).

Definition gets {A} (f : State → A) : Task A := λ s, (s, Resolved (f s)).

Definition modify (f : State → State) : Task unit := λ s, (f s, Resolved tt).

(** [try { m } catch (ex) { h }] around a block with no result. *)
Definition try_catch (m : Task unit) (h : State → State) (s : State) : State :=
  match m s with
  | (s', Resolved _) => s'
  | (s', Rejected) => h s'
  end.

(** [await stream.octoKit.request(..)] on the stream held by [ref]: the
    request goes out now, the reply settles after the await. *)
Definition request {A} (ref : nat) (req : Req) (reply : Await * Outcome A) : Task A :=
  λ s, (await reply.1 (emit (Request (octoKit (deref s ref)) req (now s)) s), reply.2).

(** Modelled from the spec: [MessageQueue.push], of which the sources hold
    only the callers.  A publish either hands the message to the bus or
    fails ("Publish failures are caught and logged"). *)
Definition push (delivered : bool)
    (msg : MessageQueueMessage UserNotificationsEvent) : Task unit :=
  λ s, if delivered then (emit (Push msg) s, Resolved tt) else (s, Rejected).

(** ** One pass of the loop *)

(** A raw notification of the feed, with the replies its two resource
    URLs would get if requested. *)
Record Fetched : Type := mkFetched {
  raw : UserNotification;
  url_reply : Await * Outcome Json;
  comment_reply : Await * Outcome Json;
}.

(** The world during one pass. *)
Record Pass : Type := mkPass {
  idle : Await;                            (* the 5 s wait on an empty array *)
  throttle : Await;                        (* the wait of line 76 *)
  feed : Await * Outcome (list Fetched);   (* the reply of line 81 *)
  delivered : bool;                        (* whether queue.push returns *)
}.

(** [new Date(ts).toISOString()] throws a RangeError outside the range
    of valid dates. *)
Definition valid_date (ts : Z) : bool := Z.abs ts <=? 8640000000000000.

(** Line 80. *)
Definition since_param (ts : Z) : Task (option Z) :=
  if ts =? 0 then mret None
  else if valid_date ts then mret (Some ts) else throw.

Definition set_url_data (d : Json) (ev : UserNotification) : UserNotification :=
  let sj := subject ev in
  {| id := id ev; reason := reason ev; unread := unread ev;
     updated_at := updated_at ev; last_read_at := last_read_at ev; url := url ev;
     subject :=
       {| title := title sj; subject_url := subject_url sj;
          latest_comment_url := latest_comment_url sj; type := type sj;
          url_data := Some d;
          latest_comment_url_data := latest_comment_url_data sj |};
     repository := repository ev |}.

Definition set_latest_comment_url_data (d : Json) (ev : UserNotification)
    : UserNotification :=
  let sj := subject ev in
  {| id := id ev; reason := reason ev; unread := unread ev;
     updated_at := updated_at ev; last_read_at := last_read_at ev; url := url ev;
     subject :=
       {| title := title sj; subject_url := subject_url sj;
          latest_comment_url := latest_comment_url sj; type := type sj;
          url_data := url_data sj;
          latest_comment_url_data := Some d |};
     repository := repository ev |}.

(** Lines 87-90. *)
Definition resolve_url (ref : nat) (f : Fetched) (ev : UserNotification)
    : Task UserNotification :=
  if truthy (subject_url (subject ev)) then
    res ← request ref (Resource (subject_url (subject ev))) (url_reply f);
    mret (set_url_data res ev)
  else mret ev.

(** Lines 91-94. *)
Definition resolve_latest_comment_url (ref : nat) (f : Fetched) (ev : UserNotification)
    : Task UserNotification :=
  match latest_comment_url (subject ev) with
  | Some u =>
      if truthy u then
        res ← request ref (Resource u) (comment_reply f);
        mret (set_latest_comment_url_data res ev)
      else mret ev
  | None => mret ev
  end.

(** Lines 85-101, one element of the [for] loop: the value is the object
    pushed onto [events], with the fields assigned before anything threw. *)
Definition preprocess (ref : nat) (f : Fetched) (s : State) : State * UserNotification :=
  match resolve_url ref f (raw f) s with
  | (s1, Rejected) => (log warn (FailedToPreprocess (id (raw f))) s1, raw f)
  | (s1, Resolved ev1) =>
      match resolve_latest_comment_url ref f ev1 s1 with
      | (s2, Rejected) => (log warn (FailedToPreprocess (id ev1)) s2, ev1)
      | (s2, Resolved ev2) => (s2, ev2)
      end
  end.

(** Lines 83-102. *)
Fixpoint preprocess_all (ref : nat) (fs : list Fetched) (events : list UserNotification)
    (s : State) : State * list UserNotification :=
  match fs with
  | [] => (s, events)
  | f :: fs' =>
      let '(s', ev) := preprocess ref f s in
      preprocess_all ref fs' (events ++ [ev]) s'
  end.

Definition set_lastReadTs (ref : nat) (ts : Z) (s : State) : State :=
  let st := deref s ref in
  with_objects
    (<[ref := {| octoKit := octoKit st; userId := userId st;
                 roomId := roomId st; lastReadTs := ts |}]> (objects s)) s.

(** Lines 80-111, the body of the [try]. *)
Definition fetch_and_publish (p : Pass) (ref : nat) : Task unit :=
  ts ← gets (λ s, lastReadTs (deref s ref));
  since ← since_param ts;
  response ← request ref (Notifications since) (feed p);
  _ ← modify (λ s, set_lastReadTs ref (now s) s);
  events ← (λ s, let '(s', evs) := preprocess_all ref response [] s in (s', Resolved evs));
  stream ← gets (λ s, deref s ref);
  push (delivered p)
    {| eventName := "notifications.user.events";
       data := {| ev_roomId := roomId stream; events := events;
                  ev_lastReadTs := lastReadTs stream |};
       sender := "GithubWebhooks" |}.

(** Line 73. *)
Definition interval_of (s : State) (ref : nat) : Z :=
  MIN_INTERVAL_MS - (now s - lastReadTs (deref s ref)).

(** Lines 73-115: a user with a stream. *)
Definition poll (p : Pass) (userId : string) (ref : nat) (s : State) : State :=
  let interval := interval_of s ref in
  let s1 :=
    if 0 <? interval then
      sleep interval (throttle p)
        (log info (ReadAgo (MIN_INTERVAL_MS - interval) interval) s)
    else s in
  let s2 := log info (Getting userId (lastReadTs (deref s1 ref))) s1 in
  let s3 := try_catch (fetch_and_publish p ref) (log error ErrorGettingNotifications) s2 in
  with_userQueue (unshift userId (userQueue s3)) s3.

(** Lines 62-115: the body of the [while]. *)
Definition iteration (p : Pass) (s : State) : State :=
  let '(popped, rest) := pop (userQueue s) in
  let s0 := with_userQueue rest s in
  match popped with
  | Some userId =>
      if truthy userId then
        match userStreams s0 !! userId with
        | Some ref => poll p userId ref s0
        | None => log warn DroppingFromQueue s0
        end
      else sleep 5000 (idle p) (log info NoUsersQueued s0)
  | None => sleep 5000 (idle p) (log info NoUsersQueued s0)
  end.

(** Where the loop stands once the passes given to it are used up. *)
Inductive Loop : Type :=
| Running (s : State)     (* at the head of the [while], flag set *)
| Returned (s : State).   (* the [while] was left *)

(** Lines 59-117, over the passes the world supplies. *)
Fixpoint fetchUserNotifications (ps : list Pass) (s : State) : Loop :=
  if shouldListen s then
    match ps with
    | [] => Running s
    | p :: ps' => fetchUserNotifications ps' (iteration p s)
    end
  else Returned s.

(** The state behind either outcome. *)
Definition state_of (l : Loop) : State :=
  match l with Running s | Returned s => s end.

(** Lines 52-57: sets the flag; the loop then runs from this state. *)
Definition start (s : State) : State := with_shouldListen true s.

(** ** Reading the effect log *)

(** Users the loop went on to poll (line 78), in order. *)
Definition polls (es : list Effect) : list string :=
  omap (λ e, match e with Log info (Getting u _) => Some u | _ => None end) es.

(** Feed requests: the [since] sent and the time of the call. *)
Definition feed_requests (es : list Effect) : list (option Z * Z) :=
  omap (λ e, match e with
             | Request _ (Notifications since) t => Some (since, t)
             | _ => None
             end) es.

(** Resource URLs requested, in order. *)
Definition resource_requests (es : list Effect) : list string :=
  omap (λ e, match e with Request _ (Resource u) _ => Some u | _ => None end) es.

Definition published (es : list Effect)
    : list (MessageQueueMessage UserNotificationsEvent) :=
  omap (λ e, match e with Push m => Some m | _ => None end) es.

(** The handler calls a pass allows for, over all its awaits. *)
Definition fetched_handlers (f : Fetched) : list Handler :=
  during (url_reply f).1 ++ during (comment_reply f).1.

Definition handlers (p : Pass) : list Handler :=
  during (idle p) ++ during (throttle p) ++ during (feed p).1 ++
  match (feed p).2 with
  | Resolved fs => concat (map fetched_handlers fs)
  | Rejected => []
  end.

(** A pass during which no handler runs. *)
Definition quiet (p : Pass) : Prop := handlers p = [].

(** A pass during which [userId] is not registered anew. *)
Definition no_addUser (userId : string) (p : Pass) : Prop :=
  ∀ data, AddUser data ∈ handlers p → user_id data ≠ userId.

End UserNotificationWatcher.

(* ===================================================================== *)
(** * [GithubWebhooks] *)
(* ===================================================================== *)
Module GithubWebhooks.

(** The part of [BridgeConfig] the class reads outside the OAuth flow. *)
Record BridgeConfig : Type := mkConfig {
  webhook_secret : string;
  webhook_port : Z;
  webhook_bindAddress : string;
}.

Inductive Level : Type := debug | info | error.

Inductive LogLine : Type :=
| Got (body : IWebhookEvent)                         (* line 91 *)
| GotEvent (eventName : string) (from : option string) (* line 110 *)
| FailedToEmit.                                      (* line 118 *)

Inductive Effect : Type :=
| Log (lvl : Level) (line : LogLine)
| Push (msg : MessageQueueMessage IWebhookEvent)     (* this.queue.push *)
| SendStatus (code : Z).                             (* res.sendStatus *)

Definition pushed (es : list Effect) : list (MessageQueueMessage IWebhookEvent) :=
  omap (λ e, match e with Push m => Some m | _ => None end) es.

Definition statuses (es : list Effect) : list Z :=
  omap (λ e, match e with SendStatus c => Some c | _ => None end) es.

(** ** Signature check *)

(** Lines 156-160. *)
Definition getSignature (cfg : BridgeConfig) (buf : list Byte.byte) : string :=
  "sha1=" +:+ Crypto.hmac_sha1_hex (webhook_secret cfg) buf.

(** Lines 164-172.  [expected] is [req.headers["x-hub-signature"]],
    [undefined] when the header is missing; [Rejected] is the throw. *)
Definition verifyRequest (cfg : BridgeConfig) (expected : option string)
    (buf : list Byte.byte) : list Effect * Outcome bool :=
  let calculated := getSignature cfg buf in
  if bool_decide (expected ≠ Some calculated) then ([SendStatus 403], Rejected)
  else ([], Resolved true).

(** ** Classification and forwarding *)

(** Lines 98-108: the [if]/[else if] chain that assigns [eventName]. *)
Definition classify (body : IWebhookEvent) : option string :=
  if String.eqb (action body) "created" && holds (comment body)
  then Some "comment.created"
  else if String.eqb (action body) "edited" && holds (comment body)
  then Some "comment.edited"
  else if String.eqb (action body) "edited" && holds (issue body)
  then Some "issue.edited"
  else if String.eqb (action body) "closed" && holds (issue body)
  then Some "issue.closed"
  else if String.eqb (action body) "reopened" && holds (issue body)
  then Some "issue.reopened"
  else None.

(** Modelled from the spec: [MessageQueue.push], of which the sources hold
    only the callers.  A publish either hands the message to the bus or
    fails ("Publish failures are caught and logged"); [delivered] says
    which. *)
Definition push (delivered : bool) (msg : MessageQueueMessage IWebhookEvent)
    : list Effect * Outcome unit :=
  if delivered then ([Push msg], Resolved tt) else ([], Rejected).

(** Lines 89-121. *)
Definition onPayload (delivered : bool) (body : IWebhookEvent) : list Effect :=
  let from := login <$> wh_sender body in
  let tried :=
    match classify body with
    | Some eventName =>
        let '(es, r) :=
          push delivered
            {| eventName := eventName; sender := "GithubWebhooks"; data := body |} in
        [Log info (GotEvent eventName from)] ++ es ++
        match r with
        | Resolved _ => []
        | Rejected => [Log error FailedToEmit]
        end
    | None => []
    end in
  [Log debug (Got body)] ++ tried ++ [SendStatus 200].

(** ** A POST to "/" *)

Record Request : Type := mkRequest {
  x_hub_signature : option string;
  raw_body : list Byte.byte;
}.

(** Lines 58-61: [express.json({verify})], then the route.  [parse] is
    body-parser's JSON parser: it runs after [verify] on the same bytes
    and answers 400 on a body it refuses.  A throw of [verify] ends the
    request before the route. *)
Definition post (cfg : BridgeConfig) (parse : list Byte.byte → option IWebhookEvent)
    (delivered : bool) (req : Request) : list Effect :=
  match verifyRequest cfg (x_hub_signature req) (raw_body req) with
  | (es, Rejected) => es
  | (es, Resolved _) =>
      match parse (raw_body req) with
      | Some body => es ++ onPayload delivered body
      | None => es ++ [SendStatus 400]
      end
  end.

(** ** The object and its life cycle *)

Record State : Type := mkState {
  queue_stopped : bool;             (* MessageQueue.stop() was called *)
  server : option bool;             (* server?: Server; [Some true] while listening *)
  userNotificationWatcher : UserNotificationWatcher.State;
}.

(** Lines 55-72. *)
Definition new (t : Z) : State :=
  {| queue_stopped := false; server := None;
     userNotificationWatcher := UserNotificationWatcher.new t |}.

Definition with_watcher (w : UserNotificationWatcher.State) (g : State) : State :=
  {| queue_stopped := queue_stopped g; server := server g;
     userNotificationWatcher := w |}.

(** Lines 74-80. *)
Definition listen (g : State) : State :=
  {| queue_stopped := queue_stopped g; server := Some true;
     userNotificationWatcher := UserNotificationWatcher.start (userNotificationWatcher g) |}.

(** Lines 82-87. *)
Definition stop (g : State) : State :=
  {| queue_stopped := true;
     server := match server g with Some _ => Some false | None => None end;
     userNotificationWatcher := userNotificationWatcher g |}.

(** Lines 66-68. *)
Definition on_enable (msg : MessageQueueMessage NotificationsEnableEvent) (g : State)
    : State :=
  with_watcher (UserNotificationWatcher.addUser (data msg) (userNotificationWatcher g)) g.

(** Lines 69-71. *)
Definition on_disable (msg : MessageQueueMessage NotificationsDisableEvent) (g : State)
    : State :=
  with_watcher
    (UserNotificationWatcher.removeUser (disable_user_id (data msg)) (userNotificationWatcher g)) g.

(** What can happen to the object: its two public methods, the two bus
    subscriptions, the two routes, and the watcher's loop making one more
    pass.  The routes read the configuration and use the queue; they
    assign none of the fields. *)
Inductive Op : Type :=
| Listen
| Stop
| Enable (msg : MessageQueueMessage NotificationsEnableEvent)
| Disable (msg : MessageQueueMessage NotificationsDisableEvent)
| Post (req : Request)
| GetOauth
| LoopPass (p : UserNotificationWatcher.Pass).

Definition step (g : State) (op : Op) : State :=
  match op with
  | Listen => listen g
  | Stop => stop g
  | Enable msg => on_enable msg g
  | Disable msg => on_disable msg g
  | Post _ => g
  | GetOauth => g
  | LoopPass p =>
      with_watcher
        (UserNotificationWatcher.state_of
           (UserNotificationWatcher.fetchUserNotifications [p] (userNotificationWatcher g))) g
  end.

Definition run (ops : list Op) (g : State) : State := foldl step g ops.

End GithubWebhooks.

(* ===================================================================== *)
(** * Properties *)
(* ===================================================================== *)

(** ** The HMAC primitive against published test vectors *)

Example sha1_abc :
  Crypto.hex (Crypto.sha1 (map Crypto.Z_of_byte (Crypto.bytes_of_string "abc")))
  = "a9993e364706816aba3e25717850c26c9cd0d89d"%string.
Proof. vm_compute. reflexivity. Qed.

Example sha1_empty :
  Crypto.hex (Crypto.sha1 []) = "da39a3ee5e6b4b0d3255bfef95601890afd80709"%string.
Proof. vm_compute. reflexivity. Qed.

Example sha1_two_blocks :
  Crypto.hex (Crypto.sha1 (map Crypto.Z_of_byte (Crypto.bytes_of_string
    "abcdbcdecdefdefgefghfghighijhijkijkljklmklmnlmnomnopnopq")))
  = "84983e441c3bd26ebaae4aa1f95129e5e54670f1"%string.
Proof. vm_compute. reflexivity. Qed.

Example hmac_sha1_fox :
  Crypto.hmac_sha1_hex "key"
    (Crypto.bytes_of_string "The quick brown fox jumps over the lazy dog")
  = "de7c9b85b8b78aa6bc8a7a36f70a90701c9db4d9"%string.
Proof. vm_compute. reflexivity. Qed.

(** ** Webhook gateway *)
Section WebhookProps.
Import GithubWebhooks.

(** One element of a sequence replaced by a different one. *)
Definition mutated {A} (l l' : list A) : Prop :=
  ∃ (i : nat) (x y : A), l !! i = Some x ∧ x ≠ y ∧ l' = <[i := y]> l.

Lemma mutated_ne {A} (l l' : list A) : mutated l l' → l' ≠ l.
Proof.
  intros (i & x & y & Hi & Hxy & ->) Heq.
  assert (Hlt : (i < length l)%nat) by (eapply lookup_lt_Some; eauto).
  pose proof (list_lookup_insert_eq l i y Hlt) as Hins.
  rewrite Heq, Hi in Hins. congruence.
Qed.

(** A header with one character replaced. *)
Definition header_mutated (h h' : string) : Prop :=
  mutated (list_ascii_of_string h) (list_ascii_of_string h').

Lemma header_mutated_ne h h' : header_mutated h h' → h' ≠ h.
Proof. intros Hm ->. by apply mutated_ne in Hm. Qed.

Lemma verifyRequest_accepts cfg expected buf :
  verifyRequest cfg expected buf = ([], Resolved true)
  ↔ expected = Some (getSignature cfg buf).
Proof.
  unfold verifyRequest. case_bool_decide as H; split; intros E; done.
Qed.

Lemma verifyRequest_rejects cfg expected buf :
  verifyRequest cfg expected buf = ([SendStatus 403], Rejected)
  ↔ expected ≠ Some (getSignature cfg buf).
Proof.
  unfold verifyRequest. case_bool_decide as H; split; intros E; done.
Qed.

(** *** Classification *)

(** The mapping table of the specification, in its words: one row per
    line, a dash being [None]; the first matching row wins. *)
Definition table : list (string * option bool * option bool * string) :=
  [ ("created",  Some true,  None,      "comment.created");
    ("edited",   Some true,  None,      "comment.edited");
    ("edited",   Some false, Some true, "issue.edited");
    ("closed",   None,       Some true, "issue.closed");
    ("reopened", None,       Some true, "issue.reopened") ]%string.

Definition row_matches (a : string) (c i : bool)
    (row : string * option bool * option bool * string) : bool :=
  let '(ra, rc, ri, _) := row in
  String.eqb a ra && from_option (Bool.eqb c) true rc
                  && from_option (Bool.eqb i) true ri.

Definition classify_table (a : string) (c i : bool) : option string :=
  snd <$> List.find (row_matches a c i) table.

(** A field is present when the body has it, whatever its value. *)
Definition present {A} (o : option A) : bool := bool_decide (is_Some o).

(** A field as the declared interface has it: absent, or an object. *)
Definition as_declared (o : option JsValue) : Prop :=
  ∀ v, o = Some v → ∃ text, v = JsObject text.

Lemma holds_as_declared o : as_declared o → holds o = present o.
Proof.
  intros Ho. destruct o as [v|]; [|done].
  destruct (Ho v eq_refl) as [text ->]. done.
Qed.

Lemma classify_refines_table body :
  classify body
  = classify_table (action body) (holds (comment body)) (holds (issue body)).
Proof.
  unfold classify, classify_table.
  destruct (holds (comment body)), (holds (issue body)); simpl;
    repeat (match goal with
            | |- context [String.eqb ?a ?b] =>
                let E := fresh in
                destruct (String.eqb_spec a b) as [E|E]; try rewrite E; simpl
            end; try reflexivity).
Qed.

Lemma onPayload_pushed delivered body :
  pushed (onPayload delivered body)
  = match classify body with
    | Some n =>
        if delivered
        then [ {| eventName := n; sender := "GithubWebhooks"; data := body |} ]
        else []
    | None => []
    end.
Proof.
  unfold onPayload. destruct (classify body) as [n|]; [|reflexivity].
  destruct delivered; reflexivity.
Qed.

(** C3 (as the code has it).  Classification is a function of (action,
    comment truthy, issue truthy) alone, the tests being [body.comment]
    and [body.issue] themselves: it equals the specification's table read
    over those two tests as ordered rules with the first match winning.
    (created, comment) gives comment.created; (edited, comment) gives
    comment.edited; (edited, no comment, issue) gives issue.edited;
    (closed, issue) gives issue.closed; (reopened, issue) gives
    issue.reopened; every other tuple gives no event, among them every
    tuple with action "labeled"; and a request with no event publishes
    nothing, while one with an event publishes exactly that event.  A
    field counts when it is present and not [null], [false], a zero,
    [NaN] or the empty string; for a field that is absent or an object,
    as the declared interface has it, that is presence. *)
Theorem classify_first_match :
  (∀ body, classify body
     = classify_table (action body) (holds (comment body)) (holds (issue body)))
  ∧ (∀ i, classify_table "created" true i = Some "comment.created"%string)
  ∧ (∀ i, classify_table "edited" true i = Some "comment.edited"%string)
  ∧ classify_table "edited" false true = Some "issue.edited"%string
  ∧ (∀ c, classify_table "closed" c true = Some "issue.closed"%string)
  ∧ (∀ c, classify_table "reopened" c true = Some "issue.reopened"%string)
  ∧ (∀ a c i, classify_table a c i = None
       ↔ ¬ ((a = "created"%string ∧ c = true)
            ∨ (a = "edited"%string ∧ (c = true ∨ i = true))
            ∨ (a = "closed"%string ∧ i = true)
            ∨ (a = "reopened"%string ∧ i = true)))
  ∧ (∀ c i, classify_table "labeled" c i = None)
  ∧ (∀ delivered body,
       pushed (onPayload delivered body)
       = match classify_table (action body) (holds (comment body))
                 (holds (issue body)) with
         | Some n =>
             if delivered
             then [ {| eventName := n; sender := "GithubWebhooks"; data := body |} ]
             else []
         | None => []
         end)
  ∧ (∀ o, holds o = true
       ↔ ∃ v, o = Some v
              ∧ v ≠ JsNull ∧ v ≠ JsBool false ∧ v ≠ JsString ""
              ∧ v ≠ JsNumber SpecFloat.S754_nan
              ∧ ∀ sign, v ≠ JsNumber (SpecFloat.S754_zero sign))
  ∧ (∀ o, as_declared o → holds o = present o).
Proof.
  split; [exact classify_refines_table|].
  split; [by intros []|]. split; [by intros []|]. split; [done|].
  split; [by intros []|]. split; [by intros []|].
  split.
  { intros a c i. unfold classify_table.
    destruct c, i; simpl;
      repeat (match goal with
              | |- context [String.eqb ?a ?b] =>
                  destruct (String.eqb_spec a b) as [->|]; simpl
              end);
      intuition congruence. }
  split; [by intros [] []|].
  split.
  { intros delivered body. rewrite onPayload_pushed.
    by rewrite classify_refines_table. }
  split; [|exact holds_as_declared].
  intros o. split.
  - destruct o as [v|]; [|done]. intros Hv. exists v. split; [done|].
    destruct v as [|[]|[]|s|]; try discriminate Hv; repeat split; try done.
    + intros [= ->]. discriminate Hv.
  - intros (v & -> & Hnull & Hfalse & Hempty & Hnan & Hzero).
    destruct v as [|[]|[sign| | |]|s|]; try done.
    + by destruct (Hzero sign).
    + simpl. unfold truthy. destruct (String.eqb_spec s ""); [by subst|done].
Qed.

(** C3, counterexample.  Two bodies with the same action, both with a
    comment and an issue present, are classified differently: the one
    whose comment is an object as comment.edited, the one whose comment is
    the number 0 as issue.edited.  So the event is not a function of
    (action, comment present, issue present), and (edited, comment
    present) does not always give comment.edited. *)
Lemma present_falsy_comment_is_no_comment :
  let edited c :=
    {| action := "edited"; issue := Some (JsObject "{}"); comment := Some c;
       repository := None; wh_sender := None; changes := None |} in
  let zero := JsNumber (SpecFloat.S754_zero false) in
  present (comment (edited zero)) = present (comment (edited (JsObject "{}")))
  ∧ present (issue (edited zero)) = present (issue (edited (JsObject "{}")))
  ∧ present (comment (edited zero)) = true
  ∧ classify (edited (JsObject "{}")) = Some "comment.edited"%string
  ∧ classify (edited zero) = Some "issue.edited"%string
  ∧ pushed (onPayload true (edited zero))
    = [ {| eventName := "issue.edited"; sender := "GithubWebhooks";
           data := edited zero |} ].
Proof. repeat split. Qed.

(** *** Responses *)

Lemma onPayload_statuses delivered body :
  statuses (onPayload delivered body) = [200].
Proof.
  unfold onPayload. destruct (classify body) as [n|]; [|reflexivity].
  destruct delivered; reflexivity.
Qed.

Lemma statuses_app es es' : statuses (es ++ es') = statuses es ++ statuses es'.
Proof. apply omap_app. Qed.

(** C8.  A request whose signature verifies and whose body parses is
    answered 200 and nothing else, whatever the classification and
    whether or not the publish succeeds; a failing publish is caught and
    logged, and the answer is the same 200. *)
Theorem accepted_request_gets_200 cfg parse delivered req body :
  x_hub_signature req = Some (getSignature cfg (raw_body req)) →
  parse (raw_body req) = Some body →
  post cfg parse delivered req = onPayload delivered body
  ∧ statuses (post cfg parse delivered req) = [200]
  ∧ (∀ n, classify body = Some n →
       post cfg parse false req
       = [ Log debug (Got body);
           Log info (GotEvent n (login <$> wh_sender body));
           Log error FailedToEmit;
           SendStatus 200 ])
  ∧ (classify body = None →
       post cfg parse delivered req = [Log debug (Got body); SendStatus 200]).
Proof.
  intros Hsig Hparse.
  assert (Hpost : ∀ d, post cfg parse d req = onPayload d body).
  { intros d. unfold post.
    apply verifyRequest_accepts in Hsig. rewrite Hsig, Hparse. reflexivity. }
  split; [apply Hpost|]. split; [rewrite Hpost; apply onPayload_statuses|].
  split.
  - intros n Hn. rewrite Hpost. unfold onPayload. rewrite Hn. reflexivity.
  - intros Hn. rewrite Hpost. unfold onPayload. rewrite Hn. reflexivity.
Qed.

(** *** Signature *)

(** The check passes exactly when the header is "sha1=" followed by the
    hex HMAC-SHA1 of the raw body bytes under the configured secret.
    Once it passes, replacing one character of the header makes it fail.
    A failed check answers 403, the route is not run and nothing is
    published.  (That replacing one byte of the body makes the check fail
    is a statement about HMAC-SHA1 itself, that no two bodies one byte
    apart have the same digest; it is not proved here.) *)
Lemma verifyRequest_exact cfg expected buf :
  (verifyRequest cfg expected buf = ([], Resolved true)
   ↔ expected
     = Some ("sha1=" +:+ Crypto.hmac_sha1_hex (webhook_secret cfg) buf))
  ∧ (verifyRequest cfg expected buf = ([], Resolved true)
     ∨ verifyRequest cfg expected buf = ([SendStatus 403], Rejected))
  ∧ (∀ h h', expected = Some h →
       verifyRequest cfg expected buf = ([], Resolved true) →
       header_mutated h h' →
       verifyRequest cfg (Some h') buf = ([SendStatus 403], Rejected))
  ∧ (∀ parse delivered req,
       x_hub_signature req = expected → raw_body req = buf →
       verifyRequest cfg expected buf = ([SendStatus 403], Rejected) →
       post cfg parse delivered req = [SendStatus 403]
       ∧ pushed (post cfg parse delivered req) = []).
Proof.
  split; [apply verifyRequest_accepts|].
  split.
  { unfold verifyRequest. case_bool_decide; auto. }
  split.
  { intros h h' -> Hok Hm. apply verifyRequest_accepts in Hok.
    apply verifyRequest_rejects. intros E. apply header_mutated_ne in Hm.
    congruence. }
  intros parse delivered req Hh Hb Hrej. unfold post.
  rewrite Hh, Hb, Hrej. done.
Qed.

(** *** A concrete delivery *)

Definition config : BridgeConfig :=
  {| webhook_secret := "key"; webhook_port := 9000; webhook_bindAddress := "0.0.0.0" |}.

Definition fox : list Byte.byte :=
  Crypto.bytes_of_string "The quick brown fox jumps over the lazy dog".

Definition fox_signature : string := "sha1=de7c9b85b8b78aa6bc8a7a36f70a90701c9db4d9".

(** On the vector of the HMAC-SHA1 examples: the right header passes, the
    header with its last digit changed fails, the body with its first
    byte changed fails. *)
Example verifyRequest_on_fox :
  verifyRequest config (Some fox_signature) fox = ([], Resolved true)
  ∧ verifyRequest config
      (Some "sha1=de7c9b85b8b78aa6bc8a7a36f70a90701c9db4d8"%string) fox
    = ([SendStatus 403], Rejected)
  ∧ verifyRequest config (Some fox_signature) (<[0%nat := Byte.x74]> fox)
    = ([SendStatus 403], Rejected).
Proof. vm_compute. repeat split. Qed.

Definition quote : string := String "034"%char EmptyString.

(** The body [{"action":"labeled"}]. *)
Definition labeled_body : list Byte.byte :=
  Crypto.bytes_of_string
    ("{" +:+ quote +:+ "action" +:+ quote +:+ ":" +:+ quote +:+ "labeled" +:+ quote +:+ "}").

Definition labeled_event : IWebhookEvent :=
  {| action := "labeled"; issue := Some (JsObject "{}"); comment := None;
     repository := None; wh_sender := None; changes := None |}.

Definition closed_event : IWebhookEvent :=
  {| action := "closed"; issue := Some (JsObject "{}"); comment := None;
     repository := None; wh_sender := Some {| login := "octocat" |};
     changes := None |}.

(** C8 on a signed delivery: 200 for an event no rule matches, and 200
    for a closed issue whose publish fails. *)
Lemma accepted_request_gets_200_witness :
  let req := {| x_hub_signature := Some (getSignature config labeled_body);
                raw_body := labeled_body |} in
  statuses (post config (λ _, Some labeled_event) true req) = [200]
  ∧ statuses (post config (λ _, Some closed_event) false req) = [200]
  ∧ post config (λ _, Some closed_event) false req
    = [ Log debug (Got closed_event);
        Log info (GotEvent "issue.closed" (Some "octocat"%string));
        Log error FailedToEmit;
        SendStatus 200 ].
Proof.
  intros req.
  destruct (accepted_request_gets_200 config (λ _, Some labeled_event) true req
              labeled_event eq_refl eq_refl) as (_ & H1 & _).
  destruct (accepted_request_gets_200 config (λ _, Some closed_event) false req
              closed_event eq_refl eq_refl) as (_ & H2 & H3 & _).
  split; [exact H1|]. split; [exact H2|]. apply H3. reflexivity.
Defined.

End WebhookProps.

(** ** Notification watcher: the steps of the loop *)
Section WatcherSteps.
Import UserNotificationWatcher.

Lemma app_subseteq {A} (l1 l2 l : list A) : l1 ++ l2 ⊆ l → l1 ⊆ l ∧ l2 ⊆ l.
Proof. intros H. split; intros x Hx; apply H, elem_of_app; auto. Qed.

Lemma cons_subseteq {A} (x : A) (l1 l : list A) : x :: l1 ⊆ l → x ∈ l ∧ l1 ⊆ l.
Proof.
  intros H. split; [apply H; left|]. intros y Hy. apply H. by right.
Qed.

(** *** What can happen between two points of the loop *)

(** The steps a stretch of the loop is made of: a handler of [hs] runs,
    time passes, the loop emits an effect of kind [K], or the loop writes
    the time into [lastReadTs] through a reference of [W]. *)
Inductive prim (hs : list Handler) (K : Effect → Prop) (W : nat → Prop)
    : State → State → Prop :=
| prim_handle s h : h ∈ hs → prim hs K W s (handle s h)
| prim_advance s ms : 0 ≤ ms → prim hs K W s (advance ms s)
| prim_emit s e : K e → prim hs K W s (emit e s)
| prim_touch s ref : W ref → prim hs K W s (set_lastReadTs ref (now s) s).

Definition evolves (hs : list Handler) (K : Effect → Prop) (W : nat → Prop)
    : relation State :=
  rtc (prim hs K W).

Lemma evolves_mono hs hs' (K K' : Effect → Prop) (W W' : nat → Prop) s s' :
  hs ⊆ hs' → (∀ e, K e → K' e) → (∀ r, W r → W' r) →
  evolves hs K W s s' → evolves hs' K' W' s s'.
Proof.
  intros Hhs HK HW. apply rtc_subrel. intros x y [ ]; constructor; auto.
Qed.

Lemma evolves_trans hs K W s1 s2 s3 :
  evolves hs K W s1 s2 → evolves hs K W s2 s3 → evolves hs K W s1 s3.
Proof. apply rtc_trans. Qed.

Lemma evolves_advance hs K W s ms : 0 ≤ ms → evolves hs K W s (advance ms s).
Proof. intros. apply rtc_once. by constructor. Qed.

Lemma evolves_emit hs (K : Effect → Prop) W s e : K e → evolves hs K W s (emit e s).
Proof. intros. apply rtc_once. by constructor. Qed.

Lemma evolves_touch hs K (W : nat → Prop) s ref :
  W ref → evolves hs K W s (set_lastReadTs ref (now s) s).
Proof. intros. apply rtc_once. by constructor. Qed.

Lemma evolves_handlers hs K W l s : l ⊆ hs → evolves hs K W s (foldl handle s l).
Proof.
  revert s. induction l as [|h l IH]; intros s Hl; simpl; [apply rtc_refl|].
  apply cons_subseteq in Hl as [Hh Hl].
  eapply rtc_l; [by apply (prim_handle hs K W s h)|]. by apply IH.
Qed.

Lemma await_evolves hs K W a s : during a ⊆ hs → evolves hs K W s (await a s).
Proof.
  intros Ha. unfold await. eapply evolves_trans; [by apply evolves_handlers|].
  apply evolves_advance. lia.
Qed.

Lemma timer_delay_pos ms : 1 ≤ timer_delay ms.
Proof.
  unfold timer_delay. destruct (1 <=? ms) eqn:E; simpl; [|lia].
  destruct (ms <=? TIMEOUT_MAX); lia.
Qed.

Lemma timer_delay_id ms : 1 ≤ ms → ms ≤ TIMEOUT_MAX → timer_delay ms = ms.
Proof.
  intros H1 H2. unfold timer_delay.
  by rewrite (proj2 (Z.leb_le _ _) H1), (proj2 (Z.leb_le _ _) H2).
Qed.

Lemma sleep_evolves hs (K : Effect → Prop) W ms a s :
  during a ⊆ hs → K (Timer ms) → evolves hs K W s (sleep ms a s).
Proof.
  intros Ha HK. unfold sleep.
  eapply evolves_trans; [by apply evolves_emit|].
  eapply evolves_trans; [apply evolves_advance|]; [|by apply await_evolves].
  pose proof (timer_delay_pos ms). lia.
Qed.

Lemma request_evolves {A} hs (K : Effect → Prop) W ref req
    (reply : Await * Outcome A) s :
  during reply.1 ⊆ hs → (∀ c t, K (Request c req t)) →
  evolves hs K W s (request ref req reply s).1.
Proof.
  intros Ha HK. unfold request. simpl.
  eapply evolves_trans; [by apply evolves_emit|]. by apply await_evolves.
Qed.

(** The effects of resolving the resource URLs of a notification. *)
Definition resource_fx (e : Effect) : Prop :=
  match e with
  | Request _ (Resource _) _ | Log warn (FailedToPreprocess _) => True
  | _ => False
  end.

(** Peels the straight-line steps of a goal [evolves hs K s (.. s)], last
    step first. *)
Ltac evolve :=
  repeat first
    [ apply rtc_refl
    | assumption
    | eapply evolves_trans; [|apply sleep_evolves; done]
    | eapply evolves_trans; [|apply await_evolves; done]
    | eapply evolves_trans; [|apply evolves_advance; lia]
    | eapply evolves_trans; [|apply evolves_touch; done]
    | eapply evolves_trans; [|apply evolves_emit; done]
    | eapply evolves_trans; [|apply (evolves_emit _ _ _ _ (Log _ _)); done] ].

Lemma preprocess_evolves hs W ref f s :
  fetched_handlers f ⊆ hs → evolves hs resource_fx W s (preprocess ref f s).1.
Proof.
  intros Hf. unfold fetched_handlers in Hf.
  apply app_subseteq in Hf as [H1 H2].
  unfold preprocess, resolve_url, resolve_latest_comment_url,
    mbind, task_bind, mret, task_ret, request, log.
  destruct (url_reply f) as [a1 r1], (comment_reply f) as [a2 r2]. simpl in *.
  repeat case_match; simplify_eq/=; evolve.
Qed.

Lemma preprocess_all_evolves hs W ref fs evs s :
  concat (map fetched_handlers fs) ⊆ hs →
  evolves hs resource_fx W s (preprocess_all ref fs evs s).1.
Proof.
  revert evs s. induction fs as [|f fs IH]; intros evs s Hfs; simpl.
  - apply rtc_refl.
  - apply app_subseteq in Hfs as [Hf Hfs].
    pose proof (preprocess_evolves hs W ref f s Hf) as Hs.
    destruct (preprocess ref f s) as [s' ev]. simpl in *.
    eapply evolves_trans; [apply Hs|]. by apply IH.
Qed.

(** *** The pieces of [poll] *)

(** Lines 73-77. *)
Definition waited (p : Pass) (ref : nat) (s : State) : State :=
  let interval := interval_of s ref in
  if 0 <? interval then
    sleep interval (throttle p)
      (log info (ReadAgo (MIN_INTERVAL_MS - interval) interval) s)
  else s.

(** Lines 79-114. *)
Definition fetched (p : Pass) (ref : nat) (s : State) : State :=
  try_catch (fetch_and_publish p ref) (log error ErrorGettingNotifications) s.

Lemma poll_eq p u ref s :
  poll p u ref s
  = let s1 := waited p ref s in
    let s2 := log info (Getting u (lastReadTs (deref s1 ref))) s1 in
    let s3 := fetched p ref s2 in
    with_userQueue (unshift u (userQueue s3)) s3.
Proof. reflexivity. Qed.

(** Line 80 sends no request when [toISOString] throws. *)
Definition sendable (ts : Z) : bool := (ts =? 0) || valid_date ts.

Definition since_arg (ts : Z) : option Z := if ts =? 0 then None else Some ts.

Definition batch_message (s : State) (ref : nat) (evs : list UserNotification)
    : MessageQueueMessage UserNotificationsEvent :=
  {| eventName := "notifications.user.events";
     data := {| ev_roomId := roomId (deref s ref); events := evs;
                ev_lastReadTs := lastReadTs (deref s ref) |};
     sender := "GithubWebhooks" |}.

(** Lines 82-114: what follows the reply to the feed request. *)
Definition settled (p : Pass) (ref : nat) (s1 : State) : State :=
  match (feed p).2 with
  | Resolved fs =>
      let s2 := set_lastReadTs ref (now s1) s1 in
      let r := preprocess_all ref fs [] s2 in
      if delivered p then emit (Push (batch_message r.1 ref r.2)) r.1
      else log error ErrorGettingNotifications r.1
  | Rejected => log error ErrorGettingNotifications s1
  end.

(** The feed request as line 81 sends it. *)
Definition feed_request (ref : nat) (s : State) : Effect :=
  Request (octoKit (deref s ref))
    (Notifications (since_arg (lastReadTs (deref s ref)))) (now s).

Lemma fetched_eq p ref s :
  fetched p ref s
  = if sendable (lastReadTs (deref s ref)) then
      settled p ref (await (feed p).1 (emit (feed_request ref s) s))
    else log error ErrorGettingNotifications s.
Proof.
  unfold fetched, try_catch, fetch_and_publish, sendable, feed_request, since_arg,
    since_param, gets, modify, request, settled, push,
    mbind, task_bind, mret, task_ret, throw, batch_message.
  simpl. destruct (lastReadTs (deref s ref) =? 0); simpl.
  - destruct (feed p) as [a [fs|]]; simpl; [|done].
    destruct (preprocess_all _ _ _ _). simpl. by destruct (delivered p).
  - destruct (valid_date _); simpl; [|done].
    destruct (feed p) as [a [fs|]]; simpl; [|done].
    destruct (preprocess_all _ _ _ _). simpl. by destruct (delivered p).
Qed.

Definition timer_fx (e : Effect) : Prop :=
  match e with
  | Timer _ | Log info (ReadAgo _ _) | Log info NoUsersQueued => True
  | _ => False
  end.

Definition settle_fx (e : Effect) : Prop :=
  match e with
  | Request _ (Resource _) _ | Push _ | Log warn (FailedToPreprocess _)
  | Log error ErrorGettingNotifications => True
  | _ => False
  end.

Definition fetch_fx (e : Effect) : Prop :=
  match e with
  | Request _ _ _ | Push _ | Log warn (FailedToPreprocess _)
  | Log error ErrorGettingNotifications => True
  | _ => False
  end.

Lemma resource_fx_settle_fx e : resource_fx e → settle_fx e.
Proof. by destruct e as [[] []|?|? []|?]. Qed.

Lemma settle_fx_fetch_fx e : settle_fx e → fetch_fx e.
Proof. by destruct e as [[] []|?|? []|?]. Qed.

Lemma waited_evolves hs W p ref s :
  during (throttle p) ⊆ hs → evolves hs timer_fx W s (waited p ref s).
Proof.
  intros Hhs. unfold waited, log. case_match; evolve.
Qed.

Lemma settled_evolves hs (W : nat → Prop) p ref s :
  match (feed p).2 with
  | Resolved fs => concat (map fetched_handlers fs) ⊆ hs
  | Rejected => True
  end →
  W ref → evolves hs settle_fx W s (settled p ref s).
Proof.
  intros Hfs HW. unfold settled.
  destruct (feed p).2 as [fs|]; [|unfold log; evolve].
  simpl.
  pose proof (preprocess_all_evolves hs W ref fs []
                (set_lastReadTs ref (now s) s) Hfs) as Hpre.
  eapply (evolves_mono _ hs _ settle_fx _ W) in Hpre;
    [|done|apply resource_fx_settle_fx|done].
  destruct (preprocess_all _ _ _ _) as [s3 evs]. simpl in *.
  unfold log. destruct (delivered p).
  - eapply evolves_trans; [|apply evolves_emit; done].
    eapply evolves_trans; [|exact Hpre]. evolve.
  - eapply evolves_trans; [|apply evolves_emit; done].
    eapply evolves_trans; [|exact Hpre]. evolve.
Qed.

(** When the feed request is rejected, nothing is written and nothing
    but the error is logged. *)
Lemma settled_rejected p ref s :
  (feed p).2 = Rejected → settled p ref s = log error ErrorGettingNotifications s.
Proof. intros H. unfold settled. by rewrite H. Qed.

Lemma fetched_evolves hs (W : nat → Prop) p ref s :
  during (feed p).1 ⊆ hs →
  match (feed p).2 with
  | Resolved fs => concat (map fetched_handlers fs) ⊆ hs
  | Rejected => True
  end →
  W ref → evolves hs fetch_fx W s (fetched p ref s).
Proof.
  intros Ha Hfs HW. rewrite fetched_eq.
  destruct (sendable _); [|unfold log; evolve].
  eapply evolves_trans;
    [|eapply evolves_mono; [| | |by apply (settled_evolves hs W)];
      [done|apply settle_fx_fetch_fx|done]].
  unfold feed_request. evolve.
Qed.

(** *** What a stretch of the loop preserves *)

Lemma evolves_inv (I : State → Prop) hs (K : Effect → Prop) (W : nat → Prop) s s' :
  (∀ s h, h ∈ hs → I s → I (handle s h)) →
  (∀ s ms, I s → I (advance ms s)) →
  (∀ s e, K e → I s → I (emit e s)) →
  (∀ s r ts, W r → I s → I (set_lastReadTs r ts s)) →
  evolves hs K W s s' → I s → I s'.
Proof.
  intros Hh Ha He Ht Hev. induction Hev as [|x y z Hxy _ IH]; [done|].
  intros Hx. apply IH. destruct Hxy; eauto.
Qed.

Definition handler_fx (e : Effect) : Prop :=
  match e with
  | Log info (Removed _) | Log info (Inserted _) | Log info (Reinserted _) => True
  | _ => False
  end.

Lemma handle_effects s h : ∃ e, handler_fx e ∧ effects (handle s h) = effects s ++ [e].
Proof.
  destruct h as [d|u]; simpl.
  - unfold addUser. case_match; simpl; eexists; (split; [|reflexivity]); done.
  - eexists; (split; [|reflexivity]); done.
Qed.

Lemma handle_shouldListen s h : shouldListen (handle s h) = shouldListen s.
Proof. destruct h; simpl; [unfold addUser; by case_match|done]. Qed.

Lemma handle_now s h : now (handle s h) = now s.
Proof. destruct h; simpl; [unfold addUser; by case_match|done]. Qed.

Lemma handle_objects s h : ∃ new, objects (handle s h) = objects s ++ new.
Proof.
  destruct h; simpl.
  - unfold addUser. case_match; simpl; by eexists.
  - exists []. by rewrite app_nil_r.
Qed.

Lemma handle_userQueue s h : ∃ new, userQueue (handle s h) = userQueue s ++ new.
Proof.
  destruct h; simpl.
  - unfold addUser, push_back. case_match; simpl; [by eexists|].
    exists []. by rewrite app_nil_r.
  - exists []. by rewrite app_nil_r.
Qed.

Lemma handle_unregistered s h u :
  (∀ d, h = AddUser d → user_id d ≠ u) →
  userStreams s !! u = None → userStreams (handle s h) !! u = None.
Proof.
  intros Hh Hu. destruct h as [d|v]; simpl.
  - unfold addUser. specialize (Hh d eq_refl).
    case_match; simpl; by rewrite lookup_insert_ne.
  - rewrite lookup_delete. by case_decide.
Qed.

Lemma evolves_shouldListen hs K W s s' :
  evolves hs K W s s' → shouldListen s' = shouldListen s.
Proof.
  intros Hev.
  apply (evolves_inv (λ x, shouldListen x = shouldListen s) hs K W s s'); auto.
  intros x h _ <-. apply handle_shouldListen.
Qed.

Lemma evolves_unregistered hs K W s s' u :
  (∀ d, AddUser d ∈ hs → user_id d ≠ u) →
  evolves hs K W s s' → userStreams s !! u = None → userStreams s' !! u = None.
Proof.
  intros Hhs Hev.
  apply (evolves_inv (λ x, userStreams x !! u = None) hs K W s s'); auto.
  intros x h Hin. apply handle_unregistered. intros d ->. by apply Hhs.
Qed.

Lemma evolves_userQueue hs K W s s' :
  evolves hs K W s s' → ∃ new, userQueue s' = userQueue s ++ new.
Proof.
  intros Hev.
  apply (evolves_inv (λ x, ∃ new, userQueue x = userQueue s ++ new) hs K W s s');
    auto.
  - intros x h _ [new Hx]. destruct (handle_userQueue x h) as [new' ->].
    exists (new ++ new'). by rewrite Hx, app_assoc.
  - exists []. by rewrite app_nil_r.
Qed.

Lemma evolves_quiet K W s s' :
  evolves [] K W s s' →
  userStreams s' = userStreams s ∧ userQueue s' = userQueue s.
Proof.
  intros Hev.
  apply (evolves_inv
    (λ x, userStreams x = userStreams s ∧ userQueue x = userQueue s) [] K W s s');
    auto.
  intros x h Hin. by apply elem_of_nil in Hin.
Qed.

Lemma evolves_objects hs K (W : nat → Prop) s s' ref st :
  ¬ W ref → evolves hs K W s s' →
  objects s !! ref = Some st → objects s' !! ref = Some st.
Proof.
  intros HW Hev.
  apply (evolves_inv (λ x, objects x !! ref = Some st) hs K W s s'); auto.
  - intros x h _ Hx. destruct (handle_objects x h) as [new ->].
    by apply lookup_app_l_Some.
  - intros x r ts Hr Hx. unfold set_lastReadTs. simpl.
    rewrite list_lookup_insert_ne; [done|]. by intros ->.
Qed.

(** A reading of the effect log that ignores the handlers' log lines and
    the effects of kind [K] sees nothing new. *)
Lemma evolves_omap {B} (f : Effect → option B) hs (K : Effect → Prop) W s s' :
  (∀ e, handler_fx e → f e = None) → (∀ e, K e → f e = None) →
  evolves hs K W s s' → omap f (effects s') = omap f (effects s).
Proof.
  intros Hh HK Hev.
  apply (evolves_inv (λ x, omap f (effects x) = omap f (effects s)) hs K W s s');
    auto.
  - intros x h _ Hx. destruct (handle_effects x h) as (e & He & ->).
    rewrite omap_app, Hx. simpl. rewrite (Hh e He). by rewrite app_nil_r.
  - intros x e He Hx. simpl. rewrite omap_app, Hx. simpl. rewrite (HK e He).
    by rewrite app_nil_r.
Qed.

(** *** The three ways through one pass *)

Lemma with_userQueue_id s : with_userQueue (userQueue s) s = s.
Proof. by destruct s. Qed.

Lemma pop_snoc q u : pop (q ++ [u]) = (Some u, q).
Proof. unfold pop. by rewrite last_snoc, removelast_last. Qed.

Lemma iteration_idle p s :
  userQueue s = [] →
  iteration p s = sleep 5000 (idle p) (log info NoUsersQueued s).
Proof.
  intros Hq. unfold iteration. rewrite Hq. simpl.
  rewrite <- Hq at 1. by rewrite with_userQueue_id.
Qed.

Lemma iteration_drop p s q u :
  userQueue s = q ++ [u] → truthy u = true → userStreams s !! u = None →
  iteration p s = log warn DroppingFromQueue (with_userQueue q s).
Proof.
  intros Hq Hu Hs. unfold iteration. rewrite Hq, pop_snoc, Hu. simpl. by rewrite Hs.
Qed.

Lemma iteration_live p s q u ref :
  userQueue s = q ++ [u] → truthy u = true → userStreams s !! u = Some ref →
  iteration p s = poll p u ref (with_userQueue q s).
Proof.
  intros Hq Hu Hs. unfold iteration. rewrite Hq, pop_snoc, Hu. simpl. by rewrite Hs.
Qed.

Definition any_fx (e : Effect) : Prop := True.
Definition any_ref (r : nat) : Prop := True.

Lemma handlers_idle p : during (idle p) ⊆ handlers p.
Proof. intros x Hx. unfold handlers. rewrite elem_of_app. auto. Qed.

Lemma handlers_throttle p : during (throttle p) ⊆ handlers p.
Proof. intros x Hx. unfold handlers. rewrite !elem_of_app. auto. Qed.

Lemma handlers_feed p : during (feed p).1 ⊆ handlers p.
Proof. intros x Hx. unfold handlers. rewrite !elem_of_app. auto. Qed.

Lemma handlers_fetched p :
  match (feed p).2 with
  | Resolved fs => concat (map fetched_handlers fs) ⊆ handlers p
  | Rejected => True
  end.
Proof.
  unfold handlers. destruct (feed p).2; [|done].
  intros x Hx. rewrite !elem_of_app. auto.
Qed.

(** [poll] up to the requeue. *)
Lemma poll_evolves p u ref s :
  ∃ s3, evolves (handlers p) any_fx any_ref s s3
        ∧ poll p u ref s = with_userQueue (unshift u (userQueue s3)) s3.
Proof.
  rewrite poll_eq. simpl. eexists. split; [|reflexivity].
  eapply evolves_trans;
    [|eapply evolves_mono;
       [| | |apply (fetched_evolves (handlers p) any_ref);
              [apply handlers_feed|apply handlers_fetched|done]]; done].
  eapply evolves_trans; [|apply evolves_emit; done].
  eapply evolves_mono;
    [| | |apply (waited_evolves (handlers p) any_ref); apply handlers_throttle];
    done.
Qed.

(** Every pass is a pop, a stretch of the loop, and at most a requeue. *)
Lemma iteration_shape p s :
  ∃ s3 q', evolves (handlers p) any_fx any_ref
             (with_userQueue (removelast (userQueue s)) s) s3
           ∧ iteration p s = with_userQueue q' s3.
Proof.
  unfold iteration, pop.
  set (s0 := with_userQueue (removelast (userQueue s)) s).
  assert (Hidle : ∃ s3 q', evolves (handlers p) any_fx any_ref s0 s3
     ∧ sleep 5000 (idle p) (log info NoUsersQueued s0) = with_userQueue q' s3).
  { eexists _, _. split; [|symmetry; apply with_userQueue_id].
    unfold log. pose proof (handlers_idle p). evolve. }
  destruct (last (userQueue s)) as [u|]; [|done].
  destruct (truthy u); [|done].
  destruct (userStreams s0 !! u) as [ref|].
  - destruct (poll_evolves p u ref s0) as (s3 & H3 & ->). eauto.
  - eexists _, _. split; [|symmetry; apply with_userQueue_id].
    unfold log. evolve.
Qed.

End WatcherSteps.
(** ** Notification watcher: what the loop guarantees *)
Section WatcherClaims.
Import UserNotificationWatcher.

(** *** The flag *)

Lemma iteration_shouldListen p s : shouldListen (iteration p s) = shouldListen s.
Proof.
  destruct (iteration_shape p s) as (s3 & q' & Hev & ->).
  apply evolves_shouldListen in Hev. done.
Qed.

Lemma loop_keeps_running ps s :
  shouldListen s = true →
  ∃ s', fetchUserNotifications ps s = Running s' ∧ shouldListen s' = true.
Proof.
  revert s. induction ps as [|p ps IH]; intros s Hs; simpl; rewrite Hs.
  - eauto.
  - apply IH. by rewrite iteration_shouldListen.
Qed.

Lemma step_shouldListen g op :
  shouldListen (GithubWebhooks.userNotificationWatcher g) = true →
  shouldListen (GithubWebhooks.userNotificationWatcher (GithubWebhooks.step g op)) = true.
Proof.
  intros Hg. destruct op as [| |msg|msg|req| |p].
  - done.
  - done.
  - simpl. pose proof (handle_shouldListen (GithubWebhooks.userNotificationWatcher g)
                  (AddUser (data msg))) as H. simpl in H. by rewrite H.
  - done.
  - done.
  - done.
  - change (shouldListen (state_of (fetchUserNotifications [p]
              (GithubWebhooks.userNotificationWatcher g))) = true).
    by destruct (loop_keeps_running [p] _ Hg) as (s' & -> & Hs').
Qed.

Lemma run_shouldListen ops g :
  shouldListen (GithubWebhooks.userNotificationWatcher g) = true →
  shouldListen (GithubWebhooks.userNotificationWatcher (GithubWebhooks.run ops g)) = true.
Proof.
  revert g. induction ops as [|op ops IH]; intros g Hg; [done|].
  simpl. apply IH. by apply step_shouldListen.
Qed.

(** C9.  After [listen()] has started the watcher, whatever follows
    ([stop()], [listen()] again, enable and disable messages, requests to
    either route, passes of the loop with any handler calls during their
    awaits) leaves the flag set; [stop()] does not touch the watcher at all; and the loop, given
    any number of further passes, has not left its [while]. *)
Theorem started_loop_never_stops g ops ps :
  let g' := GithubWebhooks.run ops (GithubWebhooks.listen g) in
  shouldListen (GithubWebhooks.userNotificationWatcher g') = true
  ∧ GithubWebhooks.userNotificationWatcher (GithubWebhooks.stop g')
    = GithubWebhooks.userNotificationWatcher g'
  ∧ ∃ s', fetchUserNotifications ps (GithubWebhooks.userNotificationWatcher g') = Running s'
          ∧ shouldListen s' = true.
Proof.
  intros g'.
  assert (Hg' : shouldListen (GithubWebhooks.userNotificationWatcher g') = true).
  { by apply run_shouldListen. }
  split; [done|]. split; [done|]. by apply loop_keeps_running.
Qed.

(** *** Lazy removal *)

Lemma iteration_unregistered p s u :
  no_addUser u p → userStreams s !! u = None →
  userStreams (iteration p s) !! u = None.
Proof.
  intros Hp Hu. destruct (iteration_shape p s) as (s3 & q' & Hev & ->).
  simpl. eapply evolves_unregistered; [exact Hp|exact Hev|done].
Qed.

Lemma loop_unregistered ps s u :
  Forall (no_addUser u) ps → userStreams s !! u = None →
  userStreams (state_of (fetchUserNotifications ps s)) !! u = None.
Proof.
  intros Hps. revert s. induction Hps as [|p ps Hp _ IH]; intros s Hu; simpl.
  - by destruct (shouldListen s).
  - destruct (shouldListen s); [|done]. apply IH. by apply iteration_unregistered.
Qed.

(** C5.  [removeUser(u)] deletes [u]'s stream from the map at once and
    leaves the array as it is.  From a state in which [u] has no stream
    (as after [removeUser(u)], whenever it ran), through any passes of the
    loop during which [u] is not added again, [u] still has no stream;
    and the pass that next pops [u] finds no stream, logs the warning and
    goes on: [u] is not put back, no request is made and nothing is
    published. *)
Theorem removeUser_lazy u s s0 ps p q :
  truthy u = true →
  userStreams s0 !! u = None →
  Forall (no_addUser u) ps →
  let s1 := state_of (fetchUserNotifications ps s0) in
  userQueue s1 = q ++ [u] →
  (userStreams (removeUser u s) !! u = None
   ∧ userQueue (removeUser u s) = userQueue s
   ∧ objects (removeUser u s) = objects s)
  ∧ userStreams s1 !! u = None
  ∧ iteration p s1 = log warn DroppingFromQueue (with_userQueue q s1)
  ∧ userQueue (iteration p s1) = q
  ∧ effects (iteration p s1) = effects s1 ++ [Log warn DroppingFromQueue]
  ∧ feed_requests (effects (iteration p s1)) = feed_requests (effects s1)
  ∧ published (effects (iteration p s1)) = published (effects s1)
  ∧ objects (iteration p s1) = objects s1
  ∧ now (iteration p s1) = now s1.
Proof.
  intros Hu H0 Hps s1 Hq.
  assert (Hr : userStreams (removeUser u s) !! u = None) by apply lookup_delete_eq.
  assert (H1 : userStreams s1 !! u = None) by by apply loop_unregistered.
  split; [done|]. split; [done|].
  rewrite (iteration_drop p s1 q u Hq Hu H1).
  split; [done|]. split; [done|]. split; [done|].
  split; [|split; [|done]].
  - unfold feed_requests. simpl. rewrite omap_app. apply app_nil_r.
  - unfold published. simpl. rewrite omap_app. apply app_nil_r.
Qed.

(** *** A failed fetch *)

Definition no_push (e : Effect) : Prop :=
  match e with Push _ => False | _ => True end.

Definition no_ref (r : nat) : Prop := False.

Lemma timer_fx_no_push e : timer_fx e → no_push e.
Proof. by destruct e. Qed.

Lemma published_evolves hs W s s' :
  evolves hs no_push W s s' → published (effects s') = published (effects s).
Proof.
  intros Hev. unfold published.
  apply (evolves_omap _ hs no_push W); [| |done].
  - by intros [[] []| | |].
  - by intros [ | | |].
Qed.

(** [poll] up to the requeue when the feed request is rejected. *)
Lemma poll_rejected_evolves p u ref s :
  (feed p).2 = Rejected →
  ∃ s3, evolves (handlers p) no_push no_ref s s3
        ∧ poll p u ref s = with_userQueue (unshift u (userQueue s3)) s3.
Proof.
  intros Hrej. rewrite poll_eq. simpl. eexists. split; [|reflexivity].
  pose proof (handlers_feed p) as Hfeed.
  rewrite fetched_eq. destruct (sendable _).
  - rewrite (settled_rejected _ _ _ Hrej). unfold log, feed_request.
    eapply evolves_trans; [|apply evolves_emit; done].
    eapply evolves_trans; [|by apply await_evolves].
    eapply evolves_trans; [|apply evolves_emit; done].
    eapply evolves_trans; [|apply evolves_emit; done].
    eapply evolves_mono;
      [| | |apply (waited_evolves (handlers p) no_ref); apply handlers_throttle];
      [done|apply timer_fx_no_push|done].
  - unfold log.
    eapply evolves_trans; [|apply evolves_emit; done].
    eapply evolves_trans; [|apply evolves_emit; done].
    eapply evolves_mono;
      [| | |apply (waited_evolves (handlers p) no_ref); apply handlers_throttle];
      [done|apply timer_fx_no_push|done].
Qed.

Lemma iteration_requeues p s q u ref :
  userQueue s = q ++ [u] → truthy u = true → userStreams s !! u = Some ref →
  ∃ added, userQueue (iteration p s) = u :: q ++ added.
Proof.
  intros Hq Hu Hs. rewrite (iteration_live p s q u ref Hq Hu Hs).
  destruct (poll_evolves p u ref (with_userQueue q s)) as (s3 & Hev & ->).
  apply evolves_userQueue in Hev as [added ->]. by exists added.
Qed.

Lemma iteration_requeues_quiet p s q u ref :
  quiet p →
  userQueue s = q ++ [u] → truthy u = true → userStreams s !! u = Some ref →
  userQueue (iteration p s) = u :: q.
Proof.
  intros Hp Hq Hu Hs. rewrite (iteration_live p s q u ref Hq Hu Hs).
  destruct (poll_evolves p u ref (with_userQueue q s)) as (s3 & Hev & ->).
  unfold quiet in Hp. rewrite Hp in Hev.
  apply evolves_quiet in Hev as [_ Hev]. simpl in *. by rewrite Hev.
Qed.

(** C7.  A pass that pops a user with a stream puts that user back at
    index 0 of the array whatever the fetch did: the array is the user,
    then what was left after the pop, then the users added during the
    awaits; with no handler running it is the user followed by the rest.
    When the feed request is rejected, the pass publishes nothing and the
    user's stream object, its [lastReadTs] included, is as it was. *)
Theorem failed_fetch_requeues p s q u ref st :
  userQueue s = q ++ [u] →
  truthy u = true →
  userStreams s !! u = Some ref →
  objects s !! ref = Some st →
  (∃ added, userQueue (iteration p s) = u :: q ++ added)
  ∧ (quiet p → userQueue (iteration p s) = u :: q)
  ∧ ((feed p).2 = Rejected →
       published (effects (iteration p s)) = published (effects s)
       ∧ objects (iteration p s) !! ref = Some st
       ∧ lastReadTs (deref (iteration p s) ref) = lastReadTs st).
Proof.
  intros Hq Hu Hs Ho.
  split; [by eapply iteration_requeues|].
  split; [intros Hp; by eapply iteration_requeues_quiet|].
  intros Hrej. rewrite (iteration_live p s q u ref Hq Hu Hs).
  destruct (poll_rejected_evolves p u ref (with_userQueue q s) Hrej)
    as (s3 & Hev & ->).
  assert (Hobj : objects s3 !! ref = Some st).
  { eapply evolves_objects; [|exact Hev|done]. by intros []. }
  split; [|split].
  - simpl. by rewrite (published_evolves _ _ _ _ Hev).
  - done.
  - unfold deref. simpl. by rewrite Hobj.
Qed.

(** *** The rate limit *)

Lemma evolves_effects hs K W s s' :
  evolves hs K W s s' → ∃ new, effects s' = effects s ++ new.
Proof.
  intros Hev.
  apply (evolves_inv (λ x, ∃ new, effects x = effects s ++ new) hs K W s s'); auto.
  - intros x h _ [new Hx]. destruct (handle_effects x h) as (e & _ & ->).
    exists (new ++ [e]). by rewrite Hx, app_assoc.
  - intros x e _ [new Hx]. exists (new ++ [e]). simpl. by rewrite Hx, app_assoc.
  - exists []. by rewrite app_nil_r.
Qed.

Lemma foldl_handle_now s l : now (foldl handle s l) = now s.
Proof.
  revert s. induction l as [|h l IH]; intros s; simpl; [done|].
  by rewrite IH, handle_now.
Qed.

Lemma now_await a s : now (await a s) = now s + Z.of_N (elapsed a).
Proof. unfold await. simpl. by rewrite foldl_handle_now. Qed.

Lemma now_waited p ref s :
  now (waited p ref s)
  = now s + (if 0 <? interval_of s ref
             then timer_delay (interval_of s ref) + Z.of_N (elapsed (throttle p))
             else 0).
Proof.
  unfold waited. destruct (0 <? interval_of s ref); [|lia].
  unfold sleep. rewrite now_await. simpl. lia.
Qed.

Definition no_feed_request (e : Effect) : Prop :=
  match e with Request _ (Notifications _) _ => False | _ => True end.

Lemma feed_requests_evolves hs W s s' :
  evolves hs no_feed_request W s s' →
  feed_requests (effects s') = feed_requests (effects s).
Proof.
  intros Hev. unfold feed_requests.
  apply (evolves_omap _ hs no_feed_request W); [| |done].
  - by intros [[] []| | |].
  - by intros [ | |? []|].
Qed.

(** The feed requests of [poll]: at most one, with the [since] of the
    stream and the time the wait ended. *)
Lemma poll_feed_requests p u ref s st :
  objects s !! ref = Some st →
  feed_requests (effects (poll p u ref s))
  = feed_requests (effects s)
    ++ (if sendable (lastReadTs st)
        then [(since_arg (lastReadTs st), now (waited p ref s))] else []).
Proof.
  intros Ho. rewrite poll_eq. simpl.
  set (s1 := waited p ref s).
  assert (Hw : evolves (handlers p) timer_fx no_ref s s1).
  { apply waited_evolves, handlers_throttle. }
  assert (Ho1 : objects s1 !! ref = Some st).
  { eapply evolves_objects; [|exact Hw|done]. by intros []. }
  assert (Hf1 : feed_requests (effects s1) = feed_requests (effects s)).
  { apply (feed_requests_evolves (handlers p) no_ref).
    eapply evolves_mono; [| | |exact Hw]; [done| |done]. by intros [[] []| | |]. }
  assert (Hd1 : deref s1 ref = st) by (unfold deref; by rewrite Ho1).
  rewrite Hd1. set (s2 := log info (Getting u (lastReadTs st)) s1).
  assert (Hd2 : deref s2 ref = st) by (unfold deref; simpl; by rewrite Ho1).
  rewrite fetched_eq, Hd2. destruct (sendable (lastReadTs st)).
  - set (s3 := await (feed p).1 (emit (feed_request ref s2) s2)).
    assert (H3 : feed_requests (effects (settled p ref s3))
                 = feed_requests (effects (emit (feed_request ref s2) s2))).
    { apply (feed_requests_evolves (handlers p) any_ref).
      eapply evolves_trans; [apply await_evolves, handlers_feed|].
      eapply evolves_mono;
        [| | |apply (settled_evolves (handlers p) any_ref);
               [apply handlers_fetched|done]];
        [done| |done].
      by intros [[] []| |? []|]. }
    rewrite H3. unfold feed_request. rewrite Hd2. simpl.
    unfold feed_requests in *. rewrite !omap_app, Hf1. simpl.
    by rewrite app_nil_r.
  - simpl. unfold feed_requests in *. rewrite !omap_app, Hf1. simpl.
    by rewrite !app_nil_r.
Qed.

(** Over a whole run.  Every reference in the map points at a stream
    object; that holds of a fresh watcher and is kept by the handlers and
    by the loop. *)
Definition well_formed (s : State) : Prop :=
  ∀ u r, userStreams s !! u = Some r → is_Some (objects s !! r).

(** A feed request respects the interval when it goes out no earlier than
    [MIN_INTERVAL_MS] after the [lastReadTs] it sends as [since] (none
    sent stands for 0). *)
Definition respects_interval (r : option Z * Z) : Prop :=
  default 0 r.1 + MIN_INTERVAL_MS ≤ r.2.

Lemma well_formed_new t : well_formed (new t).
Proof. intros u r Hu. simpl in Hu. by rewrite lookup_empty in Hu. Qed.

Lemma well_formed_handle s h : well_formed s → well_formed (handle s h).
Proof.
  intros Hwf u r. destruct h as [d|v]; simpl.
  - unfold addUser.
    assert (Hgoal : <[user_id d := length (objects s)]> (userStreams s) !! u = Some r
                    → is_Some ((objects s ++ [ {| octoKit := token d;
                         userId := user_id d; roomId := room_id d;
                         lastReadTs := since d |} ]) !! r)).
    { rewrite lookup_insert. case_decide.
      - intros [= <-]. rewrite lookup_app_r, Nat.sub_diag by done. by eexists.
      - intros Hu. destruct (Hwf u r Hu) as [st Hst].
        exists st. by apply lookup_app_l_Some. }
    by case_match.
  - rewrite lookup_delete. case_decide; [done|]. apply Hwf.
Qed.

Lemma well_formed_evolves hs K W s s' :
  evolves hs K W s s' → well_formed s → well_formed s'.
Proof.
  intros Hev. apply (evolves_inv well_formed hs K W s s'); auto.
  - intros x h _. apply well_formed_handle.
  - intros x r ts _ Hwf u r' Hu. unfold set_lastReadTs. simpl.
    apply lookup_lt_is_Some. rewrite length_insert.
    apply lookup_lt_is_Some. by apply (Hwf u).
Qed.

Lemma well_formed_iteration p s : well_formed s → well_formed (iteration p s).
Proof.
  intros Hwf. destruct (iteration_shape p s) as (s3 & q' & Hev & ->).
  by apply well_formed_evolves in Hev.
Qed.

(** The wait of a pass ends no earlier than [MIN_INTERVAL_MS] after the
    stream's [lastReadTs], provided the timer can hold the wait. *)
Lemma waited_not_before p ref s st :
  objects s !! ref = Some st →
  MIN_INTERVAL_MS - (now s - lastReadTs st) ≤ TIMEOUT_MAX →
  lastReadTs st + MIN_INTERVAL_MS ≤ now (waited p ref s).
Proof.
  intros Ho Hmax. rewrite now_waited.
  assert (Hint : interval_of s ref = MIN_INTERVAL_MS - (now s - lastReadTs st)).
  { unfold interval_of, deref. by rewrite Ho. }
  rewrite Hint. destruct (0 <? _) eqn:Hw; [|lia].
  apply Z.ltb_lt in Hw. rewrite timer_delay_id by lia. lia.
Qed.

Lemma feed_requests_sleep ms a s :
  feed_requests (effects (sleep ms a s)) = feed_requests (effects s).
Proof.
  apply (feed_requests_evolves (during a) any_ref).
  by apply sleep_evolves.
Qed.

(** The clock never runs backwards, and [lastReadTs] is only ever set to
    the time of the clock. *)
Lemma evolves_inv_clock (I : State → Prop) hs (K : Effect → Prop) (W : nat → Prop) s s' :
  (∀ s h, h ∈ hs → I s → I (handle s h)) →
  (∀ s ms, 0 ≤ ms → I s → I (advance ms s)) →
  (∀ s e, K e → I s → I (emit e s)) →
  (∀ s r, W r → I s → I (set_lastReadTs r (now s) s)) →
  evolves hs K W s s' → I s → I s'.
Proof.
  intros Hh Ha He Ht Hev. induction Hev as [|x y z Hxy _ IH]; [done|].
  intros Hx. apply IH. destruct Hxy; eauto.
Qed.

Lemma evolves_now_le hs K W s s' : evolves hs K W s s' → now s ≤ now s'.
Proof.
  intros Hev.
  apply (evolves_inv_clock (λ x, now s ≤ now x) hs K W s s'); auto; [| |lia].
  - intros x h _ Hx. by rewrite handle_now.
  - intros x ms Hms Hx. simpl. lia.
Qed.

(** Every stream object is within the timer's reach: the wait computed
    for it, now or later, is at most [TIMEOUT_MAX]; and the clock has
    passed [bound]. *)
Definition in_reach (bound : Z) (s : State) : Prop :=
  bound ≤ now s
  ∧ ∀ r st, objects s !! r = Some st →
            lastReadTs st + MIN_INTERVAL_MS ≤ now s + TIMEOUT_MAX.

(** A pass during which every user enabled is within the timer's reach
    at time [bound] already. *)
Definition tame (bound : Z) (p : Pass) : Prop :=
  ∀ d, AddUser d ∈ handlers p → since d + MIN_INTERVAL_MS ≤ bound + TIMEOUT_MAX.

Lemma in_reach_handle bound s h :
  (∀ d, h = AddUser d → since d + MIN_INTERVAL_MS ≤ bound + TIMEOUT_MAX) →
  in_reach bound s → in_reach bound (handle s h).
Proof.
  intros Hh [Hb Hs]. split; [by rewrite handle_now|].
  rewrite handle_now. destruct h as [d|v]; simpl; [|exact Hs].
  intros r st Hr.
  assert (Hobj : objects (addUser d s)
                 = objects s ++ [ {| octoKit := token d; userId := user_id d;
                                     roomId := room_id d; lastReadTs := since d |} ])
    by (unfold addUser; by case_match).
  rewrite Hobj in Hr. apply lookup_app_Some in Hr as [Hr|[_ Hr]];
    [by apply (Hs r st)|].
  apply list_lookup_singleton_Some in Hr as [_ <-]. simpl.
  specialize (Hh d eq_refl). lia.
Qed.

Lemma in_reach_evolves bound hs K W s s' :
  (∀ d, AddUser d ∈ hs → since d + MIN_INTERVAL_MS ≤ bound + TIMEOUT_MAX) →
  evolves hs K W s s' → in_reach bound s → in_reach bound s'.
Proof.
  intros Hhs Hev.
  apply (evolves_inv_clock (in_reach bound) hs K W s s'); auto.
  - intros x h Hin. apply in_reach_handle. intros d ->. by apply Hhs.
  - intros x ms Hms [Hb Hx]. split; simpl; [lia|].
    intros r st Hr. specialize (Hx r st Hr). lia.
  - intros x r _ [Hb Hx]. split; [done|]. intros r' st. unfold set_lastReadTs. simpl.
    intros Hr. apply list_lookup_insert_Some in Hr as [(_ & <- & _)|[_ Hr]].
    + simpl. unfold MIN_INTERVAL_MS, TIMEOUT_MAX. lia.
    + by apply (Hx r' st).
Qed.

Lemma in_reach_iteration bound p s :
  tame bound p → in_reach bound s → in_reach bound (iteration p s).
Proof.
  intros Hp Hs. destruct (iteration_shape p s) as (s3 & q' & Hev & ->).
  by apply (in_reach_evolves bound _ _ _ _ _ Hp) in Hev.
Qed.

Lemma iteration_respects_interval bound p s :
  well_formed s → in_reach bound s →
  ∃ new, feed_requests (effects (iteration p s)) = feed_requests (effects s) ++ new
         ∧ Forall respects_interval new.
Proof.
  intros Hwf [_ Hreach]. unfold iteration, pop.
  set (s0 := with_userQueue (removelast (userQueue s)) s).
  assert (Hidle : ∃ new,
            feed_requests (effects (sleep 5000 (idle p) (log info NoUsersQueued s0)))
            = feed_requests (effects s) ++ new ∧ Forall respects_interval new).
  { exists []. split; [|constructor]. rewrite feed_requests_sleep. simpl.
    unfold feed_requests. rewrite omap_app. done. }
  destruct (last (userQueue s)) as [u|]; [|done].
  destruct (truthy u); [|done].
  destruct (userStreams s0 !! u) as [ref|] eqn:Hu.
  - destruct (Hwf u ref Hu) as [st Hst].
    rewrite (poll_feed_requests p u ref s0 st Hst). eexists. split; [done|].
    destruct (sendable (lastReadTs st)); [|constructor].
    constructor; [|constructor]. unfold respects_interval, since_arg. simpl.
    assert (Hmax : MIN_INTERVAL_MS - (now s0 - lastReadTs st) ≤ TIMEOUT_MAX).
    { specialize (Hreach ref st Hst). simpl. lia. }
    pose proof (waited_not_before p ref s0 st Hst Hmax) as Hle.
    destruct (lastReadTs st =? 0) eqn:H0; simpl; lia.
  - exists []. split; [|constructor]. simpl.
    unfold feed_requests. rewrite omap_app. done.
Qed.

(** From any well-formed state whose streams are within the timer's
    reach, through any passes with any handler calls during their awaits
    that enable users within that reach, every feed request the loop makes
    respects the interval. *)
Lemma every_feed_request_respects_interval bound ps : ∀ s,
  well_formed s → in_reach bound s → Forall (tame bound) ps →
  ∃ new, feed_requests (effects (state_of (fetchUserNotifications ps s)))
         = feed_requests (effects s) ++ new
         ∧ Forall respects_interval new.
Proof.
  induction ps as [|p ps IH]; intros s Hwf Hreach Hps; simpl.
  - exists []. split; [|constructor]. rewrite app_nil_r. by destruct (shouldListen s).
  - apply Forall_cons in Hps as [Hp Hps]. destruct (shouldListen s).
    + destruct (iteration_respects_interval bound p s Hwf Hreach) as (n1 & H1 & F1).
      destruct (IH (iteration p s) (well_formed_iteration p s Hwf)
                  (in_reach_iteration bound p s Hp Hreach) Hps) as (n2 & H2 & F2).
      exists (n1 ++ n2). split; [by rewrite H2, H1, app_assoc|].
      by apply Forall_app.
    + exists []. split; [by rewrite app_nil_r|constructor].
Qed.

(** C2 (as the code has it).  In the pass that pops a user, with [t0]
    the [lastReadTs] of the stream object the pass reads for that user,
    the loop computes [wait = 45000 - (now - t0)]; when [wait > 0] the
    first things it does are to log the wait and to set a timer of [wait]
    milliseconds; and the feed request of the pass, the only one, carries
    [t0] and goes out at the time [t] the timer fires.  Whenever [wait] is
    at most 2^31-1, the largest delay a timer takes, [t0 + 45000 <= t].
    (No request goes out at all when [t0] is outside the range of dates.)
    Over any run from a well-formed state in which every stream, those
    enabled during the run included, is within that reach of the clock,
    every feed request goes out no earlier than 45000 ms after the
    [lastReadTs] it carries. *)
Theorem fetch_not_before_min_interval p s q u ref st :
  userQueue s = q ++ [u] →
  truthy u = true →
  userStreams s !! u = Some ref →
  objects s !! ref = Some st →
  let t0 := lastReadTs st in
  let wait := MIN_INTERVAL_MS - (now s - t0) in
  ∃ t,
    feed_requests (effects (iteration p s))
    = feed_requests (effects s)
      ++ (if (t0 =? 0) || valid_date t0
          then [(if t0 =? 0 then None else Some t0, t)] else [])
    ∧ t = now s + (if 0 <? wait
                   then timer_delay wait + Z.of_N (elapsed (throttle p)) else 0)
    ∧ (wait ≤ 2147483647 → t0 + 45000 ≤ t)
    ∧ (0 < wait →
       ∃ rest, effects (iteration p s)
               = effects s
                 ++ [Log info (ReadAgo (MIN_INTERVAL_MS - wait) wait); Timer wait]
                 ++ rest)
    ∧ (∀ ps s0,
       well_formed s0 →
       (∀ r x, objects s0 !! r = Some x →
               lastReadTs x + 45000 ≤ now s0 + 2147483647) →
       (∀ p' d, p' ∈ ps → AddUser d ∈ handlers p' →
                since d + 45000 ≤ now s0 + 2147483647) →
       ∃ new, feed_requests (effects (state_of (fetchUserNotifications ps s0)))
              = feed_requests (effects s0) ++ new
              ∧ Forall respects_interval new).
Proof.
  intros Hq Hu Hs Ho t0 wait. rewrite (iteration_live p s q u ref Hq Hu Hs).
  set (s0 := with_userQueue q s).
  assert (Ho0 : objects s0 !! ref = Some st) by done.
  assert (Hint : interval_of s0 ref = wait).
  { unfold interval_of, deref. simpl. by rewrite Ho. }
  exists (now (waited p ref s0)). split; [|split; [|split; [|split]]].
  5: { intros ps s1 Hwf Hreach Hps.
       apply (every_feed_request_respects_interval (now s1)); [done| |].
       - split; [lia|exact Hreach].
       - apply Forall_forall. intros p' Hp' d Hd. by apply (Hps p' d). }
  - by rewrite (poll_feed_requests p u ref s0 st Ho0).
  - by rewrite now_waited, Hint.
  - intros Hmax. apply (waited_not_before p ref s0 st Ho0). exact Hmax.
  - intros Hpos. rewrite poll_eq. simpl.
    assert (Hev : evolves (handlers p) any_fx any_ref
              (advance (timer_delay wait) (emit (Timer wait)
                 (log info (ReadAgo (MIN_INTERVAL_MS - wait) wait) s0)))
              (fetched p ref
                 (log info (Getting u (lastReadTs (deref (waited p ref s0) ref)))
                    (waited p ref s0)))).
    { eapply evolves_trans;
        [|eapply evolves_mono;
           [| | |apply (fetched_evolves (handlers p) any_ref);
                  [apply handlers_feed|apply handlers_fetched|done]]; done].
      eapply evolves_trans; [|apply evolves_emit; done].
      unfold waited. rewrite Hint.
      assert ((0 <? wait) = true) as -> by lia.
      unfold sleep. apply await_evolves, handlers_throttle. }
    apply evolves_effects in Hev as [rest ->]. exists rest. simpl.
    by rewrite <- !app_assoc.
Qed.

(** *** Rotation *)

Lemma polls_app es es' : polls (es ++ es') = polls es ++ polls es'.
Proof. apply omap_app. Qed.

Lemma polls_evolves hs (K : Effect → Prop) W s s' :
  (∀ e, K e → polls [e] = []) →
  evolves hs K W s s' → polls (effects s') = polls (effects s).
Proof.
  intros HK Hev. unfold polls.
  apply (evolves_omap _ hs K W); [| |done].
  - by intros [[] []| | |].
  - intros e He. specialize (HK e He). unfold polls in HK. simpl in HK.
    by destruct e as [[] []| | |].
Qed.

(** A pass that pops a user with a stream logs exactly one poll, of that
    user. *)
Lemma poll_polls p u ref s : polls (effects (poll p u ref s)) = polls (effects s) ++ [u].
Proof.
  rewrite poll_eq. simpl.
  rewrite (polls_evolves (handlers p) fetch_fx any_ref
             (log info (Getting u (lastReadTs (deref (waited p ref s) ref)))
                (waited p ref s))).
  - simpl. rewrite polls_app. simpl.
    rewrite (polls_evolves (handlers p) timer_fx any_ref s); [done| |].
    + by intros [[] []| | |].
    + apply waited_evolves, handlers_throttle.
  - by intros [[] []| | |].
  - apply fetched_evolves; [apply handlers_feed|apply handlers_fetched|done].
Qed.

(** With no handler running, a pass moves the user at the end of the
    array to index 0 and changes neither map nor flag. *)
Lemma iteration_rotates p s q u :
  quiet p → userQueue s = q ++ [u] → truthy u = true →
  is_Some (userStreams s !! u) →
  userQueue (iteration p s) = u :: q
  ∧ userStreams (iteration p s) = userStreams s
  ∧ shouldListen (iteration p s) = shouldListen s
  ∧ polls (effects (iteration p s)) = polls (effects s) ++ [u].
Proof.
  intros Hp Hq Hu [ref Hs].
  split; [|split; [|split]].
  - by eapply iteration_requeues_quiet.
  - rewrite (iteration_live p s q u ref Hq Hu Hs).
    destruct (poll_evolves p u ref (with_userQueue q s)) as (s3 & Hev & ->).
    unfold quiet in Hp. rewrite Hp in Hev.
    apply evolves_quiet in Hev as [Hev _]. simpl in *. by rewrite Hev.
  - apply iteration_shouldListen.
  - rewrite (iteration_live p s q u ref Hq Hu Hs). by rewrite poll_polls.
Qed.

(** [k] passes with no handler running take the last [k] entries of the
    array, last first, and leave them in front in their old order. *)
Lemma rotation b : ∀ a ps s,
  length ps = length b → Forall quiet ps →
  shouldListen s = true → userQueue s = a ++ b →
  Forall (λ u, truthy u = true ∧ is_Some (userStreams s !! u)) b →
  ∃ s', fetchUserNotifications ps s = Running s'
        ∧ userQueue s' = b ++ a
        ∧ userStreams s' = userStreams s
        ∧ polls (effects s') = polls (effects s) ++ rev b.
Proof.
  induction b as [|u b IH] using rev_ind; intros a ps s Hlen Hps Hrun Hq Hb.
  - destruct ps; [|done]. simpl. rewrite Hrun. exists s.
    rewrite app_nil_r in Hq. by rewrite !app_nil_r.
  - rewrite length_app in Hlen. simpl in Hlen.
    destruct ps as [|p ps]; [simpl in Hlen; lia|].
    apply Forall_cons in Hps as [Hp Hps].
    apply Forall_app in Hb as [Hb Hu]. apply Forall_singleton in Hu as [Hu Hsu].
    rewrite app_assoc in Hq.
    destruct (iteration_rotates p s (a ++ b) u Hp Hq Hu Hsu)
      as (Hq1 & Hs1 & Hl1 & Hp1).
    simpl. rewrite Hrun.
    destruct (IH (u :: a) ps (iteration p s)) as (s' & Hs' & Hq' & Hm' & Hp').
    + simpl in Hlen. lia.
    + done.
    + by rewrite Hl1.
    + by rewrite Hq1.
    + by rewrite Hs1.
    + exists s'. split; [done|]. split; [|split].
      * rewrite Hq'. by rewrite <- app_assoc.
      * by rewrite Hm'.
      * rewrite Hp', Hp1, rev_app_distr. simpl. by rewrite <- app_assoc.
Qed.

Lemma loop_cons p ps s :
  shouldListen s = true →
  fetchUserNotifications (p :: ps) s = fetchUserNotifications ps (iteration p s).
Proof. intros Hs. simpl. by rewrite Hs. Qed.

Lemma addUser_shouldListen d s : shouldListen (addUser d s) = shouldListen s.
Proof. apply (handle_shouldListen s (AddUser d)). Qed.

Lemma addUser_new d s :
  userStreams s !! user_id d = None →
  userQueue (addUser d s) = userQueue s ++ [user_id d]
  ∧ userStreams (addUser d s) = <[user_id d := length (objects s)]> (userStreams s)
  ∧ effects (addUser d s) = effects s ++ [Log info (Inserted (user_id d))].
Proof.
  intros Hd. unfold addUser. rewrite bool_decide_eq_false_2; [done|].
  rewrite Hd. apply is_Some_None.
Qed.

Lemma foldl_handle_cons s h l : foldl handle s (h :: l) = foldl handle (handle s h) l.
Proof. reflexivity. Qed.

Lemma userQueue_advance ms s : userQueue (advance ms s) = userQueue s.
Proof. reflexivity. Qed.

Lemma objects_advance ms s : objects (advance ms s) = objects s.
Proof. reflexivity. Qed.

Lemma userStreams_advance ms s : userStreams (advance ms s) = userStreams s.
Proof. reflexivity. Qed.

Lemma shouldListen_advance ms s : shouldListen (advance ms s) = shouldListen s.
Proof. reflexivity. Qed.

Lemma effects_advance ms s : effects (advance ms s) = effects s.
Proof. reflexivity. Qed.

(** The state a fresh watcher's first pass is in when its timer is set. *)
Definition first_wait (t : Z) : State :=
  advance 5000 (emit (Timer 5000) (log info NoUsersQueued (start (new t)))).

(** The first pass of a fresh watcher finds the array empty and waits;
    the handlers of that wait run on the state the pass left. *)
Lemma first_pass t p0 :
  iteration p0 (start (new t))
  = advance (Z.of_N (elapsed (idle p0)))
      (foldl handle (first_wait t) (during (idle p0))).
Proof. by rewrite iteration_idle. Qed.

Lemma addUser_polls d s : polls (effects (addUser d s)) = polls (effects s).
Proof.
  destruct (handle_effects s (AddUser d)) as (e & He & Hs). simpl in Hs.
  rewrite Hs, polls_app. destruct e as [[] []| | |]; try done; simpl;
    by rewrite app_nil_r.
Qed.

(** Three users enabled one after the other. *)
Lemma three_adds s d1 d2 d3 :
  NoDup [user_id d1; user_id d2; user_id d3] →
  userStreams s !! user_id d1 = None →
  userStreams s !! user_id d2 = None →
  userStreams s !! user_id d3 = None →
  let s3 := addUser d3 (addUser d2 (addUser d1 s)) in
  userQueue s3 = userQueue s ++ [user_id d1; user_id d2; user_id d3]
  ∧ is_Some (userStreams s3 !! user_id d1)
  ∧ is_Some (userStreams s3 !! user_id d2)
  ∧ is_Some (userStreams s3 !! user_id d3).
Proof.
  intros Hnd N1 N2 N3.
  apply NoDup_cons in Hnd as [H1 Hnd]. apply NoDup_cons in Hnd as [H2 _].
  apply not_elem_of_cons in H1 as [H12 H1]. apply not_elem_of_cons in H1 as [H13 _].
  apply not_elem_of_cons in H2 as [H23 _].
  destruct (addUser_new d1 s N1) as (Q1 & M1 & _).
  generalize dependent (addUser d1 s). intros sb Q1 M1.
  destruct (addUser_new d2 sb) as (Q2 & M2 & _).
  { rewrite M1. by rewrite lookup_insert_ne. }
  generalize dependent (addUser d2 sb). intros sc Q2 M2.
  destruct (addUser_new d3 sc) as (Q3 & M3 & _).
  { rewrite M2, M1. by rewrite !lookup_insert_ne. }
  generalize dependent (addUser d3 sc). intros sd Q3 M3. simpl.
  split; [by rewrite Q3, Q2, Q1, <- !app_assoc|].
  rewrite M3, M2, M1.
  split; [|split].
  - rewrite lookup_insert_ne, lookup_insert_ne, lookup_insert_eq by done. eauto.
  - rewrite lookup_insert_ne, lookup_insert_eq by done. eauto.
  - rewrite lookup_insert_eq. eauto.
Qed.

(** Three users enabled during the first wait. *)
Lemma three_enabled t d1 d2 d3 p0 :
  NoDup [user_id d1; user_id d2; user_id d3] →
  during (idle p0) = [AddUser d1; AddUser d2; AddUser d3] →
  let s1 := iteration p0 (start (new t)) in
  userQueue s1 = [user_id d1; user_id d2; user_id d3]
  ∧ shouldListen s1 = true
  ∧ polls (effects s1) = []
  ∧ is_Some (userStreams s1 !! user_id d1)
  ∧ is_Some (userStreams s1 !! user_id d2)
  ∧ is_Some (userStreams s1 !! user_id d3).
Proof.
  intros Hnd Hd s1. unfold s1. rewrite first_pass, Hd.
  rewrite !foldl_handle_cons.
  rewrite userQueue_advance, userStreams_advance, shouldListen_advance, effects_advance.
  change (foldl handle ?s []) with s. unfold handle.
  destruct (three_adds (first_wait t) d1 d2 d3 Hnd) as (Hq & H1 & H2 & H3);
    try apply lookup_empty.
  split; [exact Hq|].
  split; [by rewrite !addUser_shouldListen|].
  split; [by rewrite !addUser_polls|]. done.
Qed.

(** C1 (as the code has it).  [addUser] puts a new user id at the end of
    the array, the loop takes from that same end, and puts the polled
    user back at index 0.  So for three distinct users enabled in the
    order u1, u2, u3 before the loop's first dequeue, with no handler
    running afterwards, three passes poll each of them exactly once, in
    the order u3, u2, u1, the reverse of insertion, and leave the array as
    it was, so that the same order repeats. *)
Theorem three_users_polled_in_reverse t d1 d2 d3 p0 p1 p2 p3 :
  NoDup [user_id d1; user_id d2; user_id d3] →
  truthy (user_id d1) = true → truthy (user_id d2) = true →
  truthy (user_id d3) = true →
  during (idle p0) = [AddUser d1; AddUser d2; AddUser d3] →
  quiet p1 → quiet p2 → quiet p3 →
  (∀ s d, userStreams s !! user_id d = None →
          userQueue (addUser d s) = userQueue s ++ [user_id d])
  ∧ (∀ q x, pop (q ++ [x]) = (Some x, q))
  ∧ userQueue (iteration p0 (start (new t))) = [user_id d1; user_id d2; user_id d3]
  ∧ ∃ s', fetchUserNotifications [p0; p1; p2; p3] (start (new t)) = Running s'
          ∧ polls (effects s') = [user_id d3; user_id d2; user_id d1]
          ∧ userQueue s' = [user_id d1; user_id d2; user_id d3].
Proof.
  intros Hnd Hu1 Hu2 Hu3 Hd Hp1 Hp2 Hp3.
  split; [intros s d Hs; by apply addUser_new|]. split; [apply pop_snoc|].
  destruct (three_enabled t d1 d2 d3 p0 Hnd Hd) as (Hq & Hl & Hp & Hs1 & Hs2 & Hs3).
  split; [done|].
  rewrite loop_cons by done.
  destruct (rotation [user_id d1; user_id d2; user_id d3] [] [p1; p2; p3]
              (iteration p0 (start (new t))))
    as (s' & Hs' & Hq' & _ & Hp'); try done.
  - by repeat constructor.
  - by repeat constructor.
  - exists s'. split; [done|]. rewrite Hp', Hp, Hq'. done.
Qed.

(** *** Two entries for one user *)

Lemma pair_persists u : ∀ ps s,
  Forall quiet ps → truthy u = true →
  shouldListen s = true → userQueue s = [u; u] → is_Some (userStreams s !! u) →
  ∃ s', fetchUserNotifications ps s = Running s'
        ∧ userQueue s' = [u; u]
        ∧ userStreams s' = userStreams s
        ∧ polls (effects s') = polls (effects s) ++ repeat u (length ps).
Proof.
  induction ps as [|p ps IH]; intros s Hps Hu Hrun Hq Hs.
  - simpl. rewrite Hrun. exists s. by rewrite app_nil_r.
  - apply Forall_cons in Hps as [Hp Hps].
    destruct (iteration_rotates p s [u] u Hp Hq Hu Hs) as (Hq1 & Hs1 & Hl1 & Hp1).
    rewrite loop_cons by done.
    destruct (IH (iteration p s)) as (s' & Hs' & Hq' & Hm' & Hp'); try done.
    + by rewrite Hl1.
    + by rewrite Hs1.
    + exists s'. split; [done|]. split; [done|]. split; [by rewrite Hm'|].
      rewrite Hp', Hp1. simpl. by rewrite <- app_assoc.
Qed.

Lemma removeUser_shouldListen u s : shouldListen (removeUser u s) = shouldListen s.
Proof. reflexivity. Qed.

Lemma removeUser_polls u s : polls (effects (removeUser u s)) = polls (effects s).
Proof. unfold removeUser, log, emit. simpl. rewrite polls_app. apply app_nil_r. Qed.

(** A user enabled, disabled and enabled again. *)
Lemma readded s d1 d2 :
  user_id d2 = user_id d1 →
  userStreams s !! user_id d1 = None →
  let s3 := addUser d2 (removeUser (user_id d1) (addUser d1 s)) in
  userQueue s3 = userQueue s ++ [user_id d1; user_id d1]
  ∧ is_Some (userStreams s3 !! user_id d1).
Proof.
  intros Hd2 N1.
  destruct (addUser_new d1 s N1) as (Q1 & _ & _).
  generalize dependent (addUser d1 s). intros sb Q1.
  assert (Qr : userQueue (removeUser (user_id d1) sb) = userQueue sb) by done.
  assert (Mr : userStreams (removeUser (user_id d1) sb) !! user_id d2 = None).
  { rewrite Hd2. apply lookup_delete_eq. }
  generalize dependent (removeUser (user_id d1) sb). intros sr Qr Mr.
  destruct (addUser_new d2 sr Mr) as (Q2 & M2 & _).
  generalize dependent (addUser d2 sr). intros sd Q2 M2. simpl.
  split; [by rewrite Q2, Qr, Q1, Hd2, <- app_assoc|].
  rewrite M2, Hd2, lookup_insert_eq. eauto.
Qed.

(** *** Enrichment *)

Definition rejected {A} (o : Outcome A) : bool :=
  match o with Rejected => true | Resolved _ => false end.

(** Whether line 88 is reached, whether it throws, whether line 92 is
    reached. *)
Definition url_attempted (f : Fetched) : bool :=
  truthy (subject_url (subject (raw f))).

Definition url_failed (f : Fetched) : bool :=
  url_attempted f && rejected (url_reply f).2.

Definition comment_attempted (f : Fetched) : bool :=
  negb (url_failed f)
  && match latest_comment_url (subject (raw f)) with
     | Some u => truthy u
     | None => false
     end.

(** A notification without its two resolved payloads. *)
Definition clear_data (ev : UserNotification) : UserNotification :=
  let sj := subject ev in
  {| id := id ev; reason := reason ev; unread := unread ev;
     updated_at := updated_at ev; last_read_at := last_read_at ev; url := url ev;
     subject :=
       {| title := title sj; subject_url := subject_url sj;
          latest_comment_url := latest_comment_url sj; type := type sj;
          url_data := None; latest_comment_url_data := None |};
     repository := repository ev |}.

Lemma resource_requests_app es es' :
  resource_requests (es ++ es') = resource_requests es ++ resource_requests es'.
Proof. apply omap_app. Qed.

Lemma resource_requests_handlers l s :
  resource_requests (effects (foldl handle s l)) = resource_requests (effects s).
Proof.
  unfold resource_requests.
  apply (evolves_omap _ l (λ _, False) any_ref); [|done|].
  - by intros [[] []| | |].
  - by apply evolves_handlers.
Qed.

Ltac resource_requests_norm :=
  repeat first
    [ rewrite resource_requests_app
    | rewrite resource_requests_handlers
    | progress simpl ];
  rewrite <- ?app_assoc, ?app_nil_r.

Lemma preprocess_requests ref f s :
  resource_requests (effects (preprocess ref f s).1)
  = resource_requests (effects s)
    ++ (if url_attempted f then [subject_url (subject (raw f))] else [])
    ++ (if comment_attempted f
        then [default ""%string (latest_comment_url (subject (raw f)))] else []).
Proof.
  unfold preprocess, resolve_url, resolve_latest_comment_url, comment_attempted,
    url_failed, url_attempted, mbind, task_bind, mret, task_ret, request, log, await.
  destruct (url_reply f) as [a1 r1], (comment_reply f) as [a2 r2].
  destruct (truthy (subject_url (subject (raw f)))); simpl.
  - destruct r1 as [d1|]; simpl; [|by resource_requests_norm].
    destruct (latest_comment_url (subject (raw f))) as [u|]; simpl;
      [destruct (truthy u); simpl|]; try by resource_requests_norm.
    destruct r2; by resource_requests_norm.
  - destruct (latest_comment_url (subject (raw f))) as [u|]; simpl;
      [destruct (truthy u); simpl|]; try by resource_requests_norm.
    destruct r2; by resource_requests_norm.
Qed.

Lemma preprocess_value ref f s :
  let ev := (preprocess ref f s).2 in
  clear_data ev = clear_data (raw f)
  ∧ url_data (subject ev)
    = (if url_attempted f
       then match (url_reply f).2 with
            | Resolved d => Some d
            | Rejected => url_data (subject (raw f))
            end
       else url_data (subject (raw f)))
  ∧ latest_comment_url_data (subject ev)
    = (if comment_attempted f
       then match (comment_reply f).2 with
            | Resolved d => Some d
            | Rejected => latest_comment_url_data (subject (raw f))
            end
       else latest_comment_url_data (subject (raw f))).
Proof.
  unfold preprocess, resolve_url, resolve_latest_comment_url, comment_attempted,
    url_failed, url_attempted, mbind, task_bind, mret, task_ret, request, log.
  destruct (url_reply f) as [a1 r1], (comment_reply f) as [a2 r2].
  destruct (truthy (subject_url (subject (raw f)))); simpl.
  - destruct r1 as [d1|]; simpl; [|done].
    destruct (latest_comment_url (subject (raw f))) as [u|]; simpl;
      [destruct (truthy u); simpl|]; try done.
    by destruct r2.
  - destruct (latest_comment_url (subject (raw f))) as [u|]; simpl;
      [destruct (truthy u); simpl|]; try done.
    by destruct r2.
Qed.

(** What is pushed for a notification depends on that notification and
    its two replies alone. *)
Lemma preprocess_value_indep ref ref' f s s' :
  (preprocess ref f s).2 = (preprocess ref' f s').2.
Proof.
  unfold preprocess, resolve_url, resolve_latest_comment_url,
    mbind, task_bind, mret, task_ret, request, log.
  destruct (url_reply f) as [a1 r1], (comment_reply f) as [a2 r2].
  destruct (truthy (subject_url (subject (raw f)))); simpl.
  - destruct r1 as [d1|]; simpl; [|done].
    destruct (latest_comment_url (subject (raw f))) as [u|]; simpl;
      [destruct (truthy u); simpl|]; try done.
    by destruct r2.
  - destruct (latest_comment_url (subject (raw f))) as [u|]; simpl;
      [destruct (truthy u); simpl|]; try done.
    by destruct r2.
Qed.

Lemma preprocess_all_value ref s0 : ∀ fs evs s,
  (preprocess_all ref fs evs s).2 = evs ++ map (λ f, (preprocess ref f s0).2) fs.
Proof.
  induction fs as [|f fs IH]; intros evs s; simpl; [by rewrite app_nil_r|].
  pose proof (preprocess_value_indep ref ref f s s0) as Hf.
  destruct (preprocess ref f s) as [s' ev]. simpl in Hf. subst ev.
  by rewrite IH, <- app_assoc.
Qed.

Lemma published_app es es' : published (es ++ es') = published es ++ published es'.
Proof. apply omap_app. Qed.

Lemma settled_published p ref s fs :
  (feed p).2 = Resolved fs → delivered p = true →
  ∃ m, published (effects (settled p ref s)) = published (effects s) ++ [m]
       ∧ events (data m) = map (λ f, (preprocess ref f s).2) fs.
Proof.
  intros Hfs Hd. unfold settled. rewrite Hfs, Hd.
  assert (Hev : evolves (concat (map fetched_handlers fs)) resource_fx any_ref
            (set_lastReadTs ref (now s) s)
            (preprocess_all ref fs [] (set_lastReadTs ref (now s) s)).1).
  { by apply preprocess_all_evolves. }
  pose proof (preprocess_all_value ref s fs [] (set_lastReadTs ref (now s) s)) as Hv.
  destruct (preprocess_all ref fs [] (set_lastReadTs ref (now s) s)) as [s3 evs].
  simpl in *. eexists. split.
  - eapply (evolves_mono _ _ _ no_push) in Hev; [|done| |done].
    + rewrite published_app, (published_evolves _ _ _ _ Hev). done.
    + by intros [[] []| |? []|].
  - exact Hv.
Qed.

(** The stream read after the wait is the stream found at the pop. *)
Lemma waited_deref p u ref s st :
  objects s !! ref = Some st →
  deref (log info (Getting u (lastReadTs st)) (waited p ref s)) ref = st
  ∧ deref (waited p ref s) ref = st.
Proof.
  intros Ho.
  assert (Ho1 : objects (waited p ref s) !! ref = Some st).
  { eapply (evolves_objects _ _ no_ref);
      [|apply (waited_evolves (handlers p)), handlers_throttle|done].
    by intros []. }
  unfold deref. simpl. by rewrite Ho1.
Qed.

Lemma poll_published p u ref s st fs :
  objects s !! ref = Some st →
  sendable (lastReadTs st) = true →
  (feed p).2 = Resolved fs → delivered p = true →
  ∃ m, published (effects (poll p u ref s)) = published (effects s) ++ [m]
       ∧ events (data m) = map (λ f, (preprocess ref f s).2) fs.
Proof.
  intros Ho Hsend Hfs Hd. rewrite poll_eq. simpl.
  destruct (waited_deref p u ref s st Ho) as [Hd2 Hd1].
  rewrite Hd1, fetched_eq, Hd2, Hsend.
  set (s2 := log info (Getting u (lastReadTs st)) (waited p ref s)).
  destruct (settled_published p ref
              (await (feed p).1 (emit (feed_request ref s2) s2)) fs Hfs Hd)
    as (m & Hm & Hev).
  exists m. split.
  - rewrite Hm. f_equal.
    assert (Hpre : evolves (handlers p) no_push no_ref s
                     (await (feed p).1 (emit (feed_request ref s2) s2))).
    { eapply evolves_trans; [|apply await_evolves, handlers_feed].
      eapply evolves_trans; [|apply evolves_emit; done].
      eapply evolves_trans; [|apply evolves_emit; done].
      eapply evolves_mono;
        [| | |apply (waited_evolves (handlers p) no_ref); apply handlers_throttle];
        [done|apply timer_fx_no_push|done]. }
    by rewrite (published_evolves _ _ _ _ Hpre).
  - rewrite Hev. apply map_ext. intros f. apply preprocess_value_indep.
Qed.

(** C6 (as the code has it).  For each raw notification the two resource
    fetches sit in one [try]: the [subject.url] fetch comes first, and
    when it throws the [latest_comment_url] fetch is not attempted for
    that notification; when the second throws, what the first attached
    stays.  Either way the failure is caught for that item, and the
    notification is pushed with whatever was attached, every other field
    as it came.  What is pushed for one notification depends on that
    notification and its replies alone, and a pass whose feed request
    resolves and whose publish is delivered publishes one batch holding
    every notification of the reply, in order. *)
Theorem enrichment_degrades_per_item p s q u ref st fs :
  userQueue s = q ++ [u] →
  truthy u = true →
  userStreams s !! u = Some ref →
  objects s !! ref = Some st →
  (lastReadTs st =? 0) || valid_date (lastReadTs st) = true →
  (feed p).2 = Resolved fs →
  delivered p = true →
  (∃ m, published (effects (iteration p s)) = published (effects s) ++ [m]
        ∧ events (data m) = map (λ f, (preprocess ref f s).2) fs
        ∧ length (events (data m)) = length fs)
  ∧ ∀ f s0,
      let r := preprocess ref f s0 in
      r.2 = (preprocess ref f s).2
      ∧ resource_requests (effects r.1)
        = resource_requests (effects s0)
          ++ (if url_attempted f then [subject_url (subject (raw f))] else [])
          ++ (if comment_attempted f
              then [default ""%string (latest_comment_url (subject (raw f)))]
              else [])
      ∧ clear_data r.2 = clear_data (raw f)
      ∧ url_data (subject r.2)
        = (if url_attempted f
           then match (url_reply f).2 with
                | Resolved d => Some d
                | Rejected => url_data (subject (raw f))
                end
           else url_data (subject (raw f)))
      ∧ latest_comment_url_data (subject r.2)
        = (if comment_attempted f
           then match (comment_reply f).2 with
                | Resolved d => Some d
                | Rejected => latest_comment_url_data (subject (raw f))
                end
           else latest_comment_url_data (subject (raw f))).
Proof.
  intros Hq Hu Hs Ho Hsend Hfs Hd. split.
  - rewrite (iteration_live p s q u ref Hq Hu Hs).
    destruct (poll_published p u ref (with_userQueue q s) st fs Ho Hsend Hfs Hd)
      as (m & Hm & Hev).
    exists m. split; [exact Hm|]. split.
    + rewrite Hev. apply map_ext. intros f. apply preprocess_value_indep.
    + by rewrite Hev, length_map.
  - intros f s0 r. split; [apply preprocess_value_indep|].
    split; [apply preprocess_requests|]. apply preprocess_value.
Qed.

(** *** A concrete run *)

Definition at_once : Await := {| during := []; elapsed := 0 |}.

(** A pass with no handler running and every reply immediate. *)
Definition calm (reply : Outcome (list Fetched)) : Pass :=
  {| idle := at_once; throttle := at_once; feed := (at_once, reply);
     delivered := true |}.

(** A pass whose 5 s wait sees the handlers [hs] run. *)
Definition enabling (hs : list Handler) : Pass :=
  {| idle := {| during := hs; elapsed := 0 |}; throttle := at_once;
     feed := (at_once, Rejected); delivered := true |}.

Definition boot : Z := 1573000000000.

Definition alice : NotificationsEnableEvent :=
  {| user_id := "@alice:example.org"; room_id := "!a:example.org";
     since := 0; token := "token-a" |}.

Definition bob : NotificationsEnableEvent :=
  {| user_id := "@bob:example.org"; room_id := "!b:example.org";
     since := 0; token := "token-b" |}.

Definition carol : NotificationsEnableEvent :=
  {| user_id := "@carol:example.org"; room_id := "!c:example.org";
     since := 0; token := "token-c" |}.

(** A user whose notifications were read when the watcher booted. *)
Definition dave : NotificationsEnableEvent :=
  {| user_id := "@dave:example.org"; room_id := "!d:example.org";
     since := boot; token := "token-d" |}.

Definition issue_url : string := "https://api.github.com/repos/o/r/issues/1".
Definition comment_url : string :=
  "https://api.github.com/repos/o/r/issues/comments/9".

Definition mention_of_issue : UserNotification :=
  {| id := "1001"; reason := mention; unread := true;
     updated_at := 1572999000000; last_read_at := 0;
     url := "https://api.github.com/notifications/threads/1001";
     subject :=
       {| title := "Crash on start"; subject_url := issue_url;
          latest_comment_url := Some comment_url; type := Issue;
          url_data := None; latest_comment_url_data := None |};
     repository := "{}" |}.

(** The issue cannot be fetched; the comment could. *)
Definition issue_unreachable : Fetched :=
  {| raw := mention_of_issue;
     url_reply := (at_once, Rejected);
     comment_reply := (at_once, Resolved "{}"%string) |}.

Definition both_reachable : Fetched :=
  {| raw := mention_of_issue;
     url_reply := (at_once, Resolved "{}"%string);
     comment_reply := (at_once, Resolved "{}"%string) |}.

(** The watcher after its first pass, during which [hs] ran. *)
Definition after_first_pass (hs : list Handler) : State :=
  iteration (enabling hs) (start (new boot)).

(** C1, counterexample.  Alice, Bob and Carol are enabled in that order
    while the loop waits on its empty array; the next three passes poll
    Carol first, then Bob, then Alice: the first polls are not in
    insertion order. *)
Lemma first_polls_reverse_insertion_order :
  let s' := state_of (fetchUserNotifications
              [enabling [AddUser alice; AddUser bob; AddUser carol];
               calm (Resolved []); calm (Resolved []); calm (Resolved [])]
              (start (new boot))) in
  polls (effects s') = [user_id carol; user_id bob; user_id alice]
  ∧ polls (effects s') ≠ [user_id alice; user_id bob; user_id carol].
Proof. vm_compute. split; [reflexivity|discriminate]. Qed.

(** C1 on the same three users, whatever the fetches do. *)
Lemma three_users_polled_in_reverse_witness :
  ∃ s', fetchUserNotifications
          [enabling [AddUser alice; AddUser bob; AddUser carol];
           calm Rejected; calm (Resolved [both_reachable]); calm (Resolved [])]
          (start (new boot)) = Running s'
        ∧ polls (effects s') = [user_id carol; user_id bob; user_id alice]
        ∧ userQueue s' = [user_id alice; user_id bob; user_id carol].
Proof.
  apply (three_users_polled_in_reverse boot alice bob carol
           (enabling [AddUser alice; AddUser bob; AddUser carol])
           (calm Rejected) (calm (Resolved [both_reachable])) (calm (Resolved []))).
  - apply (bool_decide_unpack (NoDup _)). vm_compute. reflexivity.
  - reflexivity.
  - reflexivity.
  - reflexivity.
  - reflexivity.
  - reflexivity.
  - reflexivity.
  - reflexivity.
Defined.

(** C6, counterexample.  The notification has both URLs and the fetch of
    [subject.url] throws: the only resource requested is that URL, the
    comment URL is never requested although its fetch would have
    succeeded, and no comment data is attached. *)
Lemma url_failure_skips_comment_fetch :
  let s := after_first_pass [AddUser alice] in
  let r := preprocess 0 issue_unreachable s in
  comment_reply issue_unreachable = (at_once, Resolved "{}"%string)
  ∧ resource_requests (effects s) = []
  ∧ resource_requests (effects r.1) = [issue_url]
  ∧ ¬ (comment_url ∈ resource_requests (effects r.1))
  ∧ latest_comment_url_data (subject r.2) = None.
Proof.
  vm_compute. repeat split; try reflexivity.
  intros H. apply list_elem_of_singleton in H. discriminate H.
Qed.

(** C2 for Dave, read at boot and popped 5 s later: the request goes out
    no earlier than 45 s after boot. *)
Lemma fetch_not_before_min_interval_witness :
  let s := after_first_pass [AddUser dave] in
  now s = boot + 5000
  ∧ ∃ t, feed_requests (effects (iteration (calm (Resolved [])) s))
         = feed_requests (effects s) ++ [(Some boot, t)]
         ∧ boot + 45000 ≤ t.
Proof.
  intros s. split; [reflexivity|].
  destruct (fetch_not_before_min_interval (calm (Resolved [])) s []
              (user_id dave) 0
              {| octoKit := token dave; userId := user_id dave;
                 roomId := room_id dave; lastReadTs := boot |})
    as (t & H1 & _ & H2 & _).
  - vm_compute. reflexivity.
  - reflexivity.
  - vm_compute. reflexivity.
  - vm_compute. reflexivity.
  - exists t. split; [exact H1|]. apply H2. vm_compute. intros H. discriminate H.
Defined.

(** A user enabled with notifications read some five weeks from now. *)
Definition frank : NotificationsEnableEvent :=
  {| user_id := "@frank:example.org"; room_id := "!f:example.org";
     since := 1576000000000; token := "token-f" |}.

(** Dave enabling again, with notifications read 30 s after boot. *)
Definition dave_later : NotificationsEnableEvent :=
  {| user_id := "@dave:example.org"; room_id := "!d:example.org";
     since := boot + 30000; token := "token-d" |}.

(** A pass during whose rate-limit wait the handlers [hs] run. *)
Definition pausing (hs : list Handler) : Pass :=
  {| idle := at_once; throttle := {| during := hs; elapsed := 0 |};
     feed := (at_once, Resolved []); delivered := true |}.

(** C2, counterexample.  Frank's stream has [lastReadTs] 1576000000000
    when the loop pops him at 1573000005000: the wait, 3000040000 ms, is
    more than a timer takes, the timer fires after 1 ms, and the feed
    request goes out at 1573000005001, before 1576000000000 + 45000.  And
    Dave, read at boot, is enabled again during his wait with
    notifications read 30 s after boot: the request of the pass goes out
    at boot + 45000, not 45000 ms after the [lastReadTs] of the stream
    registered for him by then. *)
Lemma fetch_before_min_interval :
  let s := after_first_pass [AddUser frank] in
  let s' := iteration (calm (Resolved [])) s in
  let r := after_first_pass [AddUser dave] in
  let r' := iteration (pausing [AddUser dave_later]) r in
  (userStreams s !! user_id frank = Some 0%nat
   ∧ lastReadTs (deref s 0) = 1576000000000
   ∧ now s = 1573000005000
   ∧ feed_requests (effects s') = [(Some 1576000000000, 1573000005001)]
   ∧ ¬ (1576000000000 + 45000 ≤ 1573000005001))
  ∧ (feed_requests (effects r') = [(Some boot, boot + 45000)]
     ∧ userStreams r' !! user_id dave = Some 1%nat
     ∧ lastReadTs (deref r' 1) = boot + 30000
     ∧ ¬ (boot + 30000 + 45000 ≤ boot + 45000)).
Proof.
  vm_compute. repeat split; try reflexivity; intros H; by apply H.
Qed.

(** C5 for Alice, disabled while Bob is polled: the pass after Bob's pops
    Alice and drops her. *)
Lemma removeUser_lazy_witness :
  let s := after_first_pass [AddUser alice; AddUser bob] in
  let s1 := state_of (fetchUserNotifications [calm (Resolved [])]
                        (removeUser (user_id alice) s)) in
  userQueue s = [user_id alice; user_id bob]
  ∧ userQueue s1 = [user_id bob; user_id alice]
  ∧ userQueue (iteration (calm Rejected) s1) = [user_id bob]
  ∧ effects (iteration (calm Rejected) s1)
    = effects s1 ++ [Log warn DroppingFromQueue].
Proof.
  intros s s1.
  destruct (removeUser_lazy (user_id alice) s (removeUser (user_id alice) s)
              [calm (Resolved [])] (calm Rejected) [user_id bob])
    as (_ & _ & _ & Hq & He & _).
  - reflexivity.
  - vm_compute. reflexivity.
  - constructor; [|constructor]. intros d Hd. vm_compute in Hd. inversion Hd.
  - vm_compute. reflexivity.
  - split; [vm_compute; reflexivity|]. split; [vm_compute; reflexivity|].
    split; [exact Hq|exact He].
Defined.

(** C7 for Alice alone, her feed request rejected. *)
Lemma failed_fetch_requeues_witness :
  let s := after_first_pass [AddUser alice] in
  let s' := iteration (calm Rejected) s in
  userQueue s' = [user_id alice]
  ∧ published (effects s') = published (effects s)
  ∧ lastReadTs (deref s' 0) = 0.
Proof.
  intros s s'.
  destruct (failed_fetch_requeues (calm Rejected) s [] (user_id alice) 0
              {| octoKit := token alice; userId := user_id alice;
                 roomId := room_id alice; lastReadTs := 0 |})
    as (_ & Hq & Hrej).
  - vm_compute. reflexivity.
  - reflexivity.
  - vm_compute. reflexivity.
  - vm_compute. reflexivity.
  - destruct Hrej as (Hp & _ & Hts); [reflexivity|].
    split; [apply Hq; reflexivity|]. split; [exact Hp|exact Hts].
Defined.

(** C6 on a batch of two, the first with an unreachable issue. *)
Lemma enrichment_degrades_per_item_witness :
  let s := after_first_pass [AddUser alice] in
  let p := calm (Resolved [issue_unreachable; both_reachable]) in
  ∃ m, published (effects (iteration p s)) = published (effects s) ++ [m]
       ∧ length (events (data m)) = 2%nat.
Proof.
  intros s p.
  destruct (enrichment_degrades_per_item p s [] (user_id alice) 0
              {| octoKit := token alice; userId := user_id alice;
                 roomId := room_id alice; lastReadTs := 0 |}
              [issue_unreachable; both_reachable])
    as ((m & Hm & _ & Hlen) & _).
  - vm_compute. reflexivity.
  - reflexivity.
  - vm_compute. reflexivity.
  - vm_compute. reflexivity.
  - reflexivity.
  - reflexivity.
  - reflexivity.
  - exists m. split; [exact Hm|exact Hlen].
Defined.

(** Alice enabled a second time, with a new token. *)
Definition alice_again : NotificationsEnableEvent :=
  {| user_id := "@alice:example.org"; room_id := "!a:example.org";
     since := 0; token := "token-a2" |}.

End WatcherClaims.

(* ===================================================================== *)
(** * [GithubWebhooks.onGetOauth]

    The route behind [GET /oauth] (lines 123-153).  It assigns no field of
    the object: it talks to the bus, to GitHub's token endpoint and to the
    browser, and what it does is the list of those calls in order. *)
(* ===================================================================== *)
Module OAuth.

(** [config.github.oauth], as the route reads it. *)
Record OAuthConfig : Type := mkOAuthConfig {
  client_id : string;
  client_secret : string;
  redirect_uri : string;
}.

(** Lines 28-31: [req.query], at the type the route passes it on with. *)
Record IOAuthRequest : Type := mkOAuthRequest {
  code : string;
  state : string;
}.

(** A value of the object [qs.parse] returns: a string, or an array when
    the key occurs more than once.  That object and the object literal of
    line 146 are JS objects used as maps, [gmap string QsValue]. *)
Inductive QsValue : Type :=
| One (v : string)
| Many (vs : list string).

Inductive Level : Type := info | error.

Inductive LogLine : Type :=
| GotNewOauthRequest                                 (* line 124 *)
| FailedToHandleOauthRequest.                        (* line 150 *)

Inductive Effect : Type :=
| Log (lvl : Level) (line : LogLine)
| PushWait (msg : MessageQueueMessage IOAuthRequest) (* this.queue.pushWait *)
| AxiosPost (url : string)                           (* axios.post *)
| Push (msg : MessageQueueMessage (gmap string QsValue))            (* this.queue.push *)
| Send (status : Z) (body : string).                 (* res.status(..).send(..) *)

(** Code that may throw, with the calls it made before. *)
Definition Task (A : Type) : Type := list Effect * Outcome A.

#[global] Instance oauth_ret : MRet Task := λ A a, ([], Resolved a).

#[global] Instance oauth_bind : MBind Task := λ A B f m,
  match m with
  | (es, Resolved a) => let '(es', r) := f a in (es ++ es', r)
  | (es, Rejected) => (es, Rejected)
  end.

Definition tell (e : Effect) : Task unit := ([e], Resolved tt).

(** [try { body } catch (ex) { handler }]. *)
Definition try_catch (body : Task unit) (handler : Task unit) : list Effect :=
  match body with
  | (es, Resolved _) => es
  | (es, Rejected) => es ++ handler.1
  end.

(** What the outside answers during one request. *)
Record Replies : Type := mkReplies {
  pending : Outcome bool;        (* the reply to [pushWait], or its rejection *)
  token_reply : Outcome string;  (* [accessTokenRes.data], or axios' rejection *)
  delivered : bool;              (* whether [queue.push] returns *)
}.

(** Modelled from the spec: [MessageQueue.pushWait], of which the sources
    hold only the caller: "a blocking request sent on the Bus awaiting
    exactly one correlated response", here "a boolean indicating a pending
    authorization was found", with the timeout owned by the bus. *)
Definition pushWait (reply : Outcome bool) (msg : MessageQueueMessage IOAuthRequest)
    : Task bool :=
  ([PushWait msg], reply).

(** [await axios.post(url)]: the response body, or a rejection (network
    error or a status outside 2xx). *)
Definition axios_post (reply : Outcome string) (url : string) : Task string :=
  ([AxiosPost url], reply).

(** Modelled from the spec: [MessageQueue.push], as in [GithubWebhooks.push]. *)
Definition push (delivered : bool)
    (msg : MessageQueueMessage (gmap string QsValue)) : Task unit :=
  if delivered then ([Push msg], Resolved tt) else ([], Rejected).

Definition send (status : Z) (body : string) : Task unit := tell (Send status body).

Section Route.

(** Node's [querystring]: [qs.encode] of an object with string values,
    given as its entries in order, and [qs.parse]. *)
Variable encode : list (string * string) → string.
Variable parse : string → gmap string QsValue.

(** Lines 135-141. *)
Definition token_url (cfg : OAuthConfig) (query : IOAuthRequest) : string :=
  "https://github.com/login/oauth/access_token?" +:+
  encode [ ("client_id", client_id cfg);
           ("client_secret", client_secret cfg);
           ("code", code query);
           ("redirect_uri", redirect_uri cfg);
           ("state", state query) ].

(** Line 146: [{ state: req.query.state, ...result }]; a key of [result]
    replaces the one written before the spread. *)
Definition tokens (query : IOAuthRequest) (result : gmap string QsValue) : gmap string QsValue :=
  result ∪ {[ "state" := One (state query) ]}.

(** Lines 123-153. *)
Definition onGetOauth (cfg : OAuthConfig) (query : IOAuthRequest) (r : Replies)
    : list Effect :=
  [Log info GotNewOauthRequest] ++
  try_catch
    (exists_ ← pushWait (pending r)
       {| eventName := "oauth.response"; sender := "GithubWebhooks"; data := query |};
     if negb exists_ then
       send 404 "<p>Could not find user which authorised this request. Has it timed out?</p>"
     else
       accessTokenRes ← axios_post (token_reply r) (token_url cfg query);
       let result := parse accessTokenRes in
       push (delivered r)
         {| eventName := "oauth.tokens"; sender := "GithubWebhooks";
            data := tokens query result |};;
       send 200 "<p> Your account has been bridged </p>")
    (tell (Log error FailedToHandleOauthRequest);;
     send 500 "<p>Encountered an error handing oauth request</p>").

End Route.

Definition responses (es : list Effect) : list Z :=
  omap (λ e, match e with Send c _ => Some c | _ => None end) es.

Definition published (es : list Effect) : list (MessageQueueMessage (gmap string QsValue)) :=
  omap (λ e, match e with Push m => Some m | _ => None end) es.

Definition token_requests (es : list Effect) : list string :=
  omap (λ e, match e with AxiosPost u => Some u | _ => None end) es.

End OAuth.

Section OAuthProps.
Import OAuth.

Variable encode : list (string * string) → string.
Variable parse : string → gmap string QsValue.

(** X14.  Every [GET /oauth] is answered exactly once, as the last thing
    the route does: 404 when the bus reports no pending authorisation, 200
    when the bus reports one, the token endpoint answers and the tokens
    are handed to the bus, and 500 in every other case (the bus request,
    the token request or the publish fails).  The 200 page is sent
    whatever the token endpoint's answer contains. *)
Theorem oauth_answers_once cfg query r :
  let es := onGetOauth encode parse cfg query r in
  let status :=
    match pending r with
    | Resolved false => 404
    | Resolved true =>
        match token_reply r with
        | Resolved _ => if delivered r then 200 else 500
        | Rejected => 500
        end
    | Rejected => 500
    end in
  responses es = [status]
  ∧ (∃ body, last es = Some (Send status body))
  ∧ (status = 500 ↔ Log error FailedToHandleOauthRequest ∈ es).
Proof.
  unfold onGetOauth, try_catch, pushWait, axios_post, push, send, tell.
  destruct r as [[[]|] [dat|] []]; simpl.
  all: split; [reflexivity|]; split; [by eexists|].
  all: split; [intros H; try discriminate H|intros H].
  all: repeat (apply elem_of_cons in H as [H|H]; try discriminate H).
  all: try by apply elem_of_nil in H.
  all: try done.
  all: repeat (first [by apply list_elem_of_here | apply list_elem_of_further]).
Qed.

(** X15.  The client secret leaves only for a pending authorisation: the
    bus is asked first, with the query as it came, and the token endpoint
    is called, once, exactly when the bus answered true.  Tokens are
    published exactly when the request is answered 200, in one
    [oauth.tokens] message that carries every field of the token
    endpoint's answer; its [state] is the answer's own when the answer has
    one and the query's otherwise. *)
Theorem oauth_tokens_follow_pending_authorisation cfg query r :
  let es := onGetOauth encode parse cfg query r in
  (∃ rest, es = Log info GotNewOauthRequest
                :: PushWait {| eventName := "oauth.response";
                               sender := "GithubWebhooks"; data := query |}
                :: rest)
  ∧ token_requests es
    = match pending r with
      | Resolved true => [token_url encode cfg query]
      | _ => []
      end
  ∧ (published es ≠ [] ↔ responses es = [200])
  ∧ (∀ dat, responses es = [200] → token_reply r = Resolved dat →
       ∃ fields,
         published es
         = [ {| eventName := "oauth.tokens"; sender := "GithubWebhooks";
                data := fields |} ]
         ∧ (∀ k v, parse dat !! k = Some v → fields !! k = Some v)
         ∧ (parse dat !! "state" = None → fields !! "state" = Some (One (state query)))
         ∧ (∀ k, k ≠ "state" → fields !! k = parse dat !! k)).
Proof.
  unfold onGetOauth, try_catch, pushWait, axios_post, push, send, tell.
  destruct r as [[[]|] [dat|] []]; simpl.
  all: split; [by eexists|]; split; [reflexivity|].
  all: split; [split; intros H; try done; try discriminate H|].
  all: intros dat' H Hd; try discriminate H; try discriminate Hd.
  injection Hd as <-. exists (tokens query (parse dat)).
  split; [done|]. unfold tokens. split; [|split].
  - intros k v Hk. by apply lookup_union_Some_l.
  - intros Hn. rewrite lookup_union_r by done. apply lookup_singleton_eq.
  - intros k Hk. destruct (parse dat !! k) as [v|] eqn:E.
    + by apply lookup_union_Some_l.
    + rewrite lookup_union_r by done. by apply lookup_singleton_ne.
Qed.

End OAuthProps.

(* ===================================================================== *)
(** * Further properties of the webhook routes *)
(* ===================================================================== *)
Section WebhookMore.
Import GithubWebhooks.

(** *** The shape of the signature *)

(** A digit [digest("hex")] can write. *)
Definition lower_hex (c : ascii) : bool :=
  existsb (Ascii.eqb c) (list_ascii_of_string "0123456789abcdef").

Definition octet (b : Z) : Prop := 0 ≤ b < 256.

Lemma be_bytes_length n x : length (Crypto.be_bytes n x) = n.
Proof. unfold Crypto.be_bytes. by rewrite length_map, length_rev, length_seq. Qed.

Lemma be_bytes_octets n x : Forall octet (Crypto.be_bytes n x).
Proof.
  unfold Crypto.be_bytes. induction (rev (seq 0 n)) as [|i l IH]; simpl; [constructor|].
  constructor; [|exact IH].
  change 0xFF with (Z.ones 8). rewrite Z.land_ones by lia.
  unfold octet. change (2 ^ 8) with 256. apply Z.mod_pos_bound. lia.
Qed.

Lemma sha1_length msg : length (Crypto.sha1 msg) = 20%nat.
Proof.
  unfold Crypto.sha1.
  destruct (fold_left _ _ _) as [[[[a b] c] d] e].
  change (concat (map (Crypto.be_bytes 4) [a; b; c; d; e]))
    with (Crypto.be_bytes 4 a ++ Crypto.be_bytes 4 b ++ Crypto.be_bytes 4 c
          ++ Crypto.be_bytes 4 d ++ Crypto.be_bytes 4 e ++ []).
  by rewrite !length_app, !be_bytes_length.
Qed.

Lemma sha1_octets msg : Forall octet (Crypto.sha1 msg).
Proof.
  unfold Crypto.sha1.
  destruct (fold_left _ _ _) as [[[[a b] c] d] e].
  change (concat (map (Crypto.be_bytes 4) [a; b; c; d; e]))
    with (Crypto.be_bytes 4 a ++ Crypto.be_bytes 4 b ++ Crypto.be_bytes 4 c
          ++ Crypto.be_bytes 4 d ++ Crypto.be_bytes 4 e ++ []).
  rewrite !Forall_app. repeat split; try apply be_bytes_octets.
  constructor.
Qed.

Lemma hex_length bs : String.length (Crypto.hex bs) = (2 * length bs)%nat.
Proof. induction bs as [|b bs IH]; simpl; [done|]. rewrite IH. lia. Qed.

Lemma hex_digit_lower n : 0 ≤ n < 16 → lower_hex (Crypto.hex_digit n) = true.
Proof.
  intros Hn.
  assert (H : n = 0 ∨ n = 1 ∨ n = 2 ∨ n = 3 ∨ n = 4 ∨ n = 5 ∨ n = 6 ∨ n = 7
              ∨ n = 8 ∨ n = 9 ∨ n = 10 ∨ n = 11 ∨ n = 12 ∨ n = 13 ∨ n = 14
              ∨ n = 15) by lia.
  repeat (destruct H as [->|H]; [reflexivity|]). by subst.
Qed.

Lemma hex_lower bs :
  Forall octet bs → Forall (λ c, lower_hex c = true) (list_ascii_of_string (Crypto.hex bs)).
Proof.
  induction 1 as [|b bs Hb _ IH]; simpl; [constructor|].
  unfold octet in Hb. constructor; [|constructor; [|exact IH]].
  - apply hex_digit_lower. rewrite Z.shiftr_div_pow2 by lia.
    change (2 ^ 4) with 16. split; [apply Z.div_pos; lia|].
    apply Z.div_lt_upper_bound; lia.
  - apply hex_digit_lower. change 0xF with (Z.ones 4).
    rewrite Z.land_ones by lia. change (2 ^ 4) with 16.
    apply Z.mod_pos_bound. lia.
Qed.

Lemma prefixed_length d :
  String.length ("sha1=" +:+ d) = (5 + String.length d)%nat.
Proof. reflexivity. Qed.

Lemma prefixed_inj d d' : "sha1=" +:+ d = "sha1=" +:+ d' → d = d'.
Proof. simpl. by intros [=]. Qed.

(** X12.  The value [getSignature] computes is always "sha1=" followed
    by 40 lower-case hexadecimal digits, whatever the secret and the
    body.  So a header the check accepts has exactly that shape: a missing
    header, a header of another length, or one whose digest is written
    with upper-case digits is answered 403 for every body. *)
Theorem signature_shape cfg buf :
  (∃ digest, getSignature cfg buf = "sha1=" +:+ digest
             ∧ String.length digest = 40%nat
             ∧ Forall (λ c, lower_hex c = true) (list_ascii_of_string digest))
  ∧ verifyRequest cfg None buf = ([SendStatus 403], Rejected)
  ∧ (∀ h, String.length h ≠ 45%nat →
       verifyRequest cfg (Some h) buf = ([SendStatus 403], Rejected))
  ∧ (∀ digest c, c ∈ list_ascii_of_string digest → lower_hex c = false →
       verifyRequest cfg (Some ("sha1=" +:+ digest)) buf = ([SendStatus 403], Rejected)).
Proof.
  assert (Hlen : String.length (Crypto.hmac_sha1_hex (webhook_secret cfg) buf) = 40%nat).
  { unfold Crypto.hmac_sha1_hex, Crypto.hmac_sha1. by rewrite hex_length, sha1_length. }
  assert (Hlow : Forall (λ c, lower_hex c = true)
            (list_ascii_of_string (Crypto.hmac_sha1_hex (webhook_secret cfg) buf))).
  { unfold Crypto.hmac_sha1_hex, Crypto.hmac_sha1. apply hex_lower, sha1_octets. }
  split; [by eexists|]. split; [|split].
  - by apply verifyRequest_rejects.
  - intros h Hh. apply verifyRequest_rejects. intros [= ->]. apply Hh.
    unfold getSignature. by rewrite prefixed_length, Hlen.
  - intros digest c Hc Hup. apply verifyRequest_rejects. intros E.
    assert (E' : "sha1=" +:+ digest = getSignature cfg buf) by congruence.
    unfold getSignature in E'. apply prefixed_inj in E' as ->.
    rewrite Forall_forall in Hlow. specialize (Hlow c Hc). congruence.
Qed.

(** *** One delivery, one answer *)

Lemma onPayload_last delivered body :
  last (onPayload delivered body) = Some (SendStatus 200).
Proof.
  unfold onPayload. rewrite !app_assoc. apply last_snoc.
Qed.

(** X13.  Every POST whose body [express.json] reads is answered exactly
    once, and the answer is the last thing done for it: 403 when the
    signature does not verify, 400 when it verifies and the body is not
    JSON, 200 otherwise.  At most one message reaches the bus, and a
    message on the bus comes from a delivery whose signature verified: its
    data is the parsed body, its name the body's classification, and the
    delivery was answered 200. *)
Theorem post_answers_once cfg parse delivered req :
  let es := post cfg parse delivered req in
  statuses es
  = [ if bool_decide (x_hub_signature req = Some (getSignature cfg (raw_body req)))
      then match parse (raw_body req) with Some _ => 200 | None => 400 end
      else 403 ]
  ∧ (∃ c, last es = Some (SendStatus c))
  ∧ (length (pushed es) ≤ 1)%nat
  ∧ (∀ m, m ∈ pushed es →
       x_hub_signature req = Some (getSignature cfg (raw_body req))
       ∧ parse (raw_body req) = Some (data m)
       ∧ classify (data m) = Some (eventName m)
       ∧ sender m = "GithubWebhooks"
       ∧ delivered = true
       ∧ statuses es = [200]).
Proof.
  unfold post. case_bool_decide as Hsig.
  - rewrite (proj2 (verifyRequest_accepts cfg _ _) Hsig).
    destruct (parse (raw_body req)) as [body|] eqn:Hparse.
    + change ([] ++ ?x) with x. cbn zeta.
      split; [apply onPayload_statuses|]. split; [eexists; apply onPayload_last|].
      rewrite onPayload_pushed, onPayload_statuses.
      destruct (classify body) as [n|] eqn:Hn; [destruct delivered|]; simpl.
      * split; [lia|]. intros m Hm. apply list_elem_of_singleton in Hm as ->. done.
      * split; [lia|]. intros m Hm. by apply elem_of_nil in Hm.
      * split; [lia|]. intros m Hm. by apply elem_of_nil in Hm.
    + simpl. split; [done|]. split; [by eexists|]. split; [lia|].
      intros m Hm. by apply elem_of_nil in Hm.
  - rewrite (proj2 (verifyRequest_rejects cfg _ _) Hsig). simpl.
    split; [done|]. split; [by eexists|]. split; [lia|].
    intros m Hm. by apply elem_of_nil in Hm.
Qed.

End WebhookMore.


(* ===================================================================== *)
(** * Further properties of the watcher *)
(* ===================================================================== *)
Section WatcherMore.
Import UserNotificationWatcher.

(** *** Registration *)

(** The stream object [addUser] builds (lines 133-138). *)
Definition stream_of (d : NotificationsEnableEvent) : UserStream :=
  {| octoKit := token d; userId := user_id d; roomId := room_id d;
     lastReadTs := since d |}.

Lemma addUser_fields d s :
  userStreams (addUser d s) = <[user_id d := length (objects s)]> (userStreams s)
  ∧ objects (addUser d s) = objects s ++ [stream_of d]
  ∧ userQueue (addUser d s)
    = (if bool_decide (is_Some (userStreams s !! user_id d))
       then userQueue s else userQueue s ++ [user_id d]).
Proof.
  unfold addUser, stream_of, push_back.
  by destruct (bool_decide (is_Some (userStreams s !! user_id d))).
Qed.

(** X1.  [addUser] is an upsert.  Afterwards the user's entry in the map
    is a stream built from the event (its token, room and [since]),
    whether or not the user had one before, and it is a new object, not
    one the watcher already held; no other user's entry and no existing
    stream object changes; and the user id is appended to the array
    exactly when the user had no stream. *)
Theorem addUser_upserts d s :
  (∃ r, userStreams (addUser d s) !! user_id d = Some r
        ∧ objects (addUser d s) !! r = Some (stream_of d)
        ∧ objects s !! r = None)
  ∧ (∀ u, u ≠ user_id d → userStreams (addUser d s) !! u = userStreams s !! u)
  ∧ (∀ r st, objects s !! r = Some st → objects (addUser d s) !! r = Some st)
  ∧ userQueue (addUser d s)
    = (if bool_decide (is_Some (userStreams s !! user_id d))
       then userQueue s else userQueue s ++ [user_id d]).
Proof.
  destruct (addUser_fields d s) as (Hm & Ho & Hq). rewrite Hm, Ho.
  split; [|split; [|split; [|exact Hq]]].
  - exists (length (objects s)). rewrite lookup_insert_eq.
    split; [done|]. split; [|by apply lookup_ge_None].
    by rewrite lookup_app_r, Nat.sub_diag.
  - intros u Hu. by rewrite lookup_insert_ne.
  - intros r st Hr. by apply lookup_app_l_Some.
Qed.

(** X2.  Enabling a user who had no stream and then disabling that user
    gives the map back as it was, but not the array: the entry
    [addUser] appended stays. *)
Theorem disable_after_enable d s :
  userStreams s !! user_id d = None →
  userStreams (removeUser (user_id d) (addUser d s)) = userStreams s
  ∧ userQueue (removeUser (user_id d) (addUser d s)) = userQueue s ++ [user_id d]
  ∧ shouldListen (removeUser (user_id d) (addUser d s)) = shouldListen s.
Proof.
  intros Hd. destruct (addUser_new d s Hd) as (Hq & Hm & _).
  split; [|split].
  - simpl. rewrite Hm. rewrite delete_insert_eq. by apply delete_id.
  - simpl. exact Hq.
  - simpl. apply addUser_shouldListen.
Qed.

(** *** No registered user leaves the rotation *)

(** Every user of [P] with a non-empty id and a stream has an entry in
    the array. *)
Definition queued_if_registered (P : string → Prop) (s : State) : Prop :=
  ∀ u, P u → truthy u = true → is_Some (userStreams s !! u) → u ∈ userQueue s.

Lemma queued_handle P s h :
  queued_if_registered P s → queued_if_registered P (handle s h).
Proof.
  intros Hinv u HP Hu. destruct h as [d|v]; simpl.
  - destruct (addUser_fields d s) as (Hm & _ & Hq). rewrite Hq, Hm.
    destruct (decide (u = user_id d)) as [->|Hne].
    + intros _. case_bool_decide as Hreg.
      * by apply Hinv.
      * apply elem_of_app. right. by apply list_elem_of_singleton.
    + rewrite lookup_insert_ne by done. intros Hreg. specialize (Hinv u HP Hu Hreg).
      case_bool_decide; [done|]. apply elem_of_app. by left.
  - rewrite lookup_delete. case_decide.
    + by intros [? ?].
    + by apply Hinv.
Qed.

Lemma queued_evolves P hs K W s s' :
  evolves hs K W s s' → queued_if_registered P s → queued_if_registered P s'.
Proof.
  intros Hev. apply (evolves_inv (queued_if_registered P) hs K W s s'); auto.
  intros x h _. apply queued_handle.
Qed.

Lemma queue_cases (q : list string) : q = [] ∨ ∃ q' x, q = q' ++ [x].
Proof.
  destruct q as [|y q] using rev_ind; [by left|]. right. eauto.
Qed.

Lemma iteration_falsy p s q x :
  userQueue s = q ++ [x] → truthy x = false →
  iteration p s = sleep 5000 (idle p) (log info NoUsersQueued (with_userQueue q s)).
Proof. intros Hq Hx. unfold iteration. by rewrite Hq, pop_snoc, Hx. Qed.

Lemma sleep_any_evolves p ms a s :
  during a ⊆ handlers p → evolves (handlers p) any_fx any_ref s (sleep ms a s).
Proof. intros Ha. by apply sleep_evolves. Qed.

Lemma queued_iteration p s :
  queued_if_registered (λ _, True) s → queued_if_registered (λ _, True) (iteration p s).
Proof.
  intros Hinv. destruct (queue_cases (userQueue s)) as [Hq|(q & x & Hq)].
  - rewrite (iteration_idle p s Hq).
    eapply queued_evolves; [apply (sleep_any_evolves p), handlers_idle|].
    intros u HP Hu Hreg. by apply Hinv.
  - destruct (truthy x) eqn:Hx.
    + destruct (userStreams s !! x) as [ref|] eqn:Hs.
      * rewrite (iteration_live p s q x ref Hq Hx Hs).
        destruct (poll_evolves p x ref (with_userQueue q s)) as (s3 & Hev & ->).
        assert (H3 : queued_if_registered (λ u, u ≠ x) s3).
        { eapply queued_evolves; [exact Hev|].
          intros u Hne Hu Hreg. specialize (Hinv u I Hu Hreg).
          rewrite Hq in Hinv. apply elem_of_app in Hinv as [Hin|Hin]; [done|].
          by apply list_elem_of_singleton in Hin. }
        intros u _ Hu Hreg. simpl. unfold unshift.
        destruct (decide (u = x)) as [->|Hne]; [by left|].
        right. by apply H3.
      * rewrite (iteration_drop p s q x Hq Hx Hs).
        intros u _ Hu Hreg. simpl in *. specialize (Hinv u I Hu Hreg).
        rewrite Hq in Hinv. apply elem_of_app in Hinv as [Hin|Hin]; [done|].
        apply list_elem_of_singleton in Hin. subst u. rewrite Hs in Hreg.
        by destruct Hreg.
    + rewrite (iteration_falsy p s q x Hq Hx).
      eapply queued_evolves; [apply (sleep_any_evolves p), handlers_idle|].
      intros u _ Hu Hreg. simpl in *. specialize (Hinv u I Hu Hreg).
      rewrite Hq in Hinv. apply elem_of_app in Hinv as [Hin|Hin]; [done|].
      apply list_elem_of_singleton in Hin. subst u. congruence.
Qed.

Lemma queued_loop ps : ∀ s,
  queued_if_registered (λ _, True) s →
  queued_if_registered (λ _, True) (state_of (fetchUserNotifications ps s)).
Proof.
  induction ps as [|p ps IH]; intros s Hinv; simpl.
  - by destruct (shouldListen s).
  - destruct (shouldListen s); [|done]. apply IH. by apply queued_iteration.
Qed.

Lemma queued_handlers hs : ∀ s,
  queued_if_registered (λ _, True) s →
  queued_if_registered (λ _, True) (foldl handle s hs).
Proof.
  induction hs as [|h hs IH]; intros s Hinv; simpl; [done|].
  apply IH. by apply queued_handle.
Qed.

(** X3.  No registered user leaves the rotation.  Start from a fresh
    watcher, let any handler calls come in before [start()], then let the
    loop make any passes with any handler calls during their awaits: at
    the end of every such run each user with a non-empty id and a stream
    has at least one entry in the array. *)
Theorem registered_users_stay_queued t before ps u :
  let s := state_of (fetchUserNotifications ps (start (foldl handle (new t) before))) in
  truthy u = true →
  is_Some (userStreams s !! u) →
  u ∈ userQueue s.
Proof.
  intros s Hu Hreg.
  assert (Hinv : queued_if_registered (λ _, True) s).
  { apply queued_loop.
    assert (H0 : queued_if_registered (λ _, True) (foldl handle (new t) before)).
    { apply queued_handlers. intros v _ _ Hv. simpl in Hv.
      rewrite lookup_empty in Hv. by destruct Hv. }
    intros v HP Hv Hr. by apply H0. }
  by apply Hinv.
Qed.

(** *** A pass with nothing to poll *)

Lemma idle_pass p s :
  (∀ u, last (userQueue s) = Some u → truthy u = false) →
  iteration p s
  = sleep 5000 (idle p)
      (log info NoUsersQueued (with_userQueue (removelast (userQueue s)) s)).
Proof.
  intros Hlast. unfold iteration, pop.
  destruct (last (userQueue s)) as [u|]; [|done]. by rewrite (Hlast u eq_refl).
Qed.

Lemma handlers_effects l : ∀ x,
  ∃ rest, effects (foldl handle x l) = effects x ++ rest ∧ Forall handler_fx rest.
Proof.
  induction l as [|h l IH]; intros x; simpl.
  - exists []. by rewrite app_nil_r.
  - destruct (IH (handle x h)) as (rest & Hr & Hf).
    destruct (handle_effects x h) as (e & He & Hx).
    exists (e :: rest). split; [|by constructor].
    by rewrite Hr, Hx, <- app_assoc.
Qed.

Lemma sleep_objects ms a s r st :
  objects s !! r = Some st → objects (sleep ms a s) !! r = Some st.
Proof.
  intros Hr. eapply (evolves_objects (during a) any_fx no_ref);
    [by intros []|by apply sleep_evolves|done].
Qed.

(** A timer of 5000 ms is within what a timer takes. *)
Lemma sleep_5000 a s : sleep 5000 a s = await a (advance 5000 (emit (Timer 5000) s)).
Proof. reflexivity. Qed.

(** X4.  When the array is empty, or the id the pass pops is the empty
    string, the pass polls nobody: it logs that no user is queued, sets a
    timer of 5000 ms and goes on when it fires.  No request is made,
    nothing is published, no stream object changes; the popped entry, if
    any, is gone and is not put back, whether or not that id has a
    stream; the array afterwards is what was left followed by the users
    added during the wait. *)
Theorem nothing_to_poll p s :
  (∀ u, last (userQueue s) = Some u → truthy u = false) →
  (∃ rest,
     effects (iteration p s)
     = effects s ++ [Log info NoUsersQueued; Timer 5000] ++ rest
     ∧ Forall handler_fx rest)
  ∧ now (iteration p s) = now s + 5000 + Z.of_N (elapsed (idle p))
  ∧ (∃ added, userQueue (iteration p s) = removelast (userQueue s) ++ added)
  ∧ (during (idle p) = [] → userQueue (iteration p s) = removelast (userQueue s))
  ∧ polls (effects (iteration p s)) = polls (effects s)
  ∧ feed_requests (effects (iteration p s)) = feed_requests (effects s)
  ∧ resource_requests (effects (iteration p s)) = resource_requests (effects s)
  ∧ published (effects (iteration p s)) = published (effects s)
  ∧ (∀ r st, objects s !! r = Some st → objects (iteration p s) !! r = Some st).
Proof.
  intros Hlast. rewrite (idle_pass p s Hlast).
  set (s0 := with_userQueue (removelast (userQueue s)) s).
  assert (Hev : evolves (during (idle p)) (λ _, False) no_ref
                  (advance 5000 (emit (Timer 5000) (log info NoUsersQueued s0)))
                  (sleep 5000 (idle p) (log info NoUsersQueued s0))).
  { rewrite sleep_5000. by apply await_evolves. }
  split; [|split; [|split; [|split; [|split; [|split; [|split; [|split]]]]]]].
  - destruct (handlers_effects (during (idle p))
               (advance 5000 (emit (Timer 5000) (log info NoUsersQueued s0))))
      as (rest & Hr & Hf).
    exists rest. split; [|done].
    rewrite sleep_5000. unfold await. rewrite effects_advance, Hr. simpl.
    by rewrite <- !app_assoc.
  - rewrite sleep_5000, now_await. simpl. lia.
  - apply evolves_userQueue in Hev as [added Ha]. by exists added.
  - intros Hq. rewrite Hq in Hev. by apply evolves_quiet in Hev as [_ Hev].
  - rewrite (polls_evolves _ _ _ _ _ (λ e (H : False), match H with end) Hev).
    simpl. rewrite !polls_app. simpl. by rewrite !app_nil_r.
  - rewrite (feed_requests_sleep 5000 (idle p)). simpl.
    unfold feed_requests. rewrite omap_app. apply app_nil_r.
  - rewrite sleep_5000. unfold await. rewrite effects_advance, resource_requests_handlers. simpl.
    rewrite !resource_requests_app. simpl. by rewrite !app_nil_r.
  - rewrite (published_evolves (during (idle p)) no_ref _ _
               (evolves_mono _ _ _ no_push _ no_ref _ _
                  (λ x H, H) (λ e (H : False), match H with end) (λ r H, H) Hev)).
    simpl. rewrite !published_app. simpl. by rewrite !app_nil_r.
  - intros r st Hr. by apply sleep_objects.
Qed.

(** *** A pass writes one stream at most *)

Lemma poll_evolves_own p u ref s :
  ∃ s3, evolves (handlers p) any_fx (λ r, r = ref) s s3
        ∧ poll p u ref s = with_userQueue (unshift u (userQueue s3)) s3.
Proof.
  rewrite poll_eq. simpl. eexists. split; [|reflexivity].
  eapply evolves_trans;
    [|eapply evolves_mono;
       [| | |apply (fetched_evolves (handlers p) (λ r, r = ref));
              [apply handlers_feed|apply handlers_fetched|done]]; done].
  eapply evolves_trans; [|apply evolves_emit; done].
  eapply evolves_mono;
    [| | |apply (waited_evolves (handlers p) (λ r, r = ref)); apply handlers_throttle];
    done.
Qed.

(** X5.  A pass writes at most one stream object, the one of the user it
    pops; every other stream object, registered or not, is after the pass
    exactly as it was, whatever handlers ran during the awaits. *)
Theorem pass_leaves_other_streams p s r st :
  objects s !! r = Some st →
  (∀ u, last (userQueue s) = Some u → userStreams s !! u ≠ Some r) →
  objects (iteration p s) !! r = Some st.
Proof.
  intros Hr Hlast. destruct (queue_cases (userQueue s)) as [Hq|(q & x & Hq)].
  - rewrite idle_pass; [by apply sleep_objects|].
    intros u Hu. rewrite Hq in Hu. done.
  - assert (Hx : userStreams s !! x ≠ Some r).
    { apply Hlast. by rewrite Hq, last_snoc. }
    destruct (truthy x) eqn:Ht.
    + destruct (userStreams s !! x) as [ref|] eqn:Hs.
      * rewrite (iteration_live p s q x ref Hq Ht Hs).
        destruct (poll_evolves_own p x ref (with_userQueue q s)) as (s3 & Hev & ->).
        simpl. eapply evolves_objects; [|exact Hev|done].
        intros ->. done.
      * by rewrite (iteration_drop p s q x Hq Ht Hs).
    + rewrite idle_pass; [by apply sleep_objects|].
      intros u Hu. rewrite Hq, last_snoc in Hu. congruence.
Qed.

(** *** A full turn of the array *)

(** An entry the loop will poll: a non-empty id with a stream. *)
Definition live (s : State) (u : string) : bool :=
  truthy u && bool_decide (is_Some (userStreams s !! u)).

Definition if_live (s : State) (u : string) : list string :=
  if live s u then [u] else [].

Lemma iteration_quiet_step p s q x :
  quiet p → userQueue s = q ++ [x] →
  userQueue (iteration p s) = if_live s x ++ q
  ∧ userStreams (iteration p s) = userStreams s
  ∧ shouldListen (iteration p s) = shouldListen s
  ∧ polls (effects (iteration p s)) = polls (effects s) ++ if_live s x.
Proof.
  intros Hp Hq. unfold if_live, live. destruct (truthy x) eqn:Hx; simpl.
  - case_bool_decide as Hreg.
    + by apply iteration_rotates.
    + assert (Hs : userStreams s !! x = None).
      { destruct (userStreams s !! x) eqn:E; [|done]. exfalso. apply Hreg. eauto. }
      rewrite (iteration_drop p s q x Hq Hx Hs). simpl.
      rewrite polls_app. simpl. by rewrite !app_nil_r.
  - rewrite (iteration_falsy p s q x Hq Hx).
    assert (Hev : evolves [] timer_fx no_ref (with_userQueue q s)
                    (sleep 5000 (idle p) (log info NoUsersQueued (with_userQueue q s)))).
    { assert (Hi : during (idle p) = []).
      { unfold quiet, handlers in Hp. by apply app_eq_nil in Hp as [-> _]. }
      unfold log.
      eapply (evolves_trans _ _ _ _
                (emit (Log info NoUsersQueued) (with_userQueue q s)));
        [by apply evolves_emit|].
      apply sleep_evolves; [by rewrite Hi|done]. }
    destruct (evolves_quiet _ _ _ _ Hev) as [Hm Hqq].
    split; [exact Hqq|]. split; [exact Hm|].
    split; [apply (evolves_shouldListen _ _ _ _ _ Hev)|].
    rewrite (polls_evolves [] timer_fx no_ref (with_userQueue q s)); [|by intros [[] []| | |]|done].
    simpl. by rewrite app_nil_r.
Qed.

Lemma turn b : ∀ a ps s,
  length ps = length b → Forall quiet ps →
  shouldListen s = true → userQueue s = a ++ b →
  ∃ s', fetchUserNotifications ps s = Running s'
        ∧ userQueue s' = List.filter (live s) b ++ a
        ∧ userStreams s' = userStreams s
        ∧ polls (effects s') = polls (effects s) ++ rev (List.filter (live s) b).
Proof.
  induction b as [|x b IH] using rev_ind; intros a ps s Hlen Hps Hrun Hq.
  - destruct ps; [|done]. simpl. rewrite Hrun. exists s.
    rewrite app_nil_r in Hq. by rewrite !app_nil_r.
  - rewrite length_app in Hlen. simpl in Hlen.
    destruct ps as [|p ps]; [simpl in Hlen; lia|].
    apply Forall_cons in Hps as [Hp Hps].
    rewrite app_assoc in Hq.
    destruct (iteration_quiet_step p s (a ++ b) x Hp Hq) as (Hq1 & Hs1 & Hl1 & Hp1).
    rewrite loop_cons by done.
    destruct (IH (if_live s x ++ a) ps (iteration p s)) as (s' & Hs' & Hq' & Hm' & Hp').
    + simpl in Hlen. lia.
    + done.
    + by rewrite Hl1.
    + by rewrite Hq1, app_assoc.
    + assert (Hlive : live (iteration p s) = live s).
      { unfold live. by rewrite Hs1. }
      rewrite Hlive in Hq', Hp'.
      exists s'. split; [done|]. rewrite List.filter_app. simpl.
      fold (if_live s x). unfold if_live in *.
      split; [|split].
      * rewrite Hq'. destruct (live s x); simpl; by rewrite <- ?app_assoc.
      * by rewrite Hm'.
      * rewrite Hp', Hp1, rev_app_distr.
        destruct (live s x); simpl; by rewrite <- ?app_assoc, ?app_nil_r.
Qed.

(** X6.  One turn of the array, with no handler running: as many passes
    as the array has entries poll every user that has a non-empty id and
    a stream exactly once per entry, last entry first, and leave the
    array holding those entries only, in their old order.  Entries whose
    user has no stream, and empty ids, are gone; the map is unchanged. *)
Theorem full_turn ps s :
  length ps = length (userQueue s) →
  Forall quiet ps →
  shouldListen s = true →
  ∃ s', fetchUserNotifications ps s = Running s'
        ∧ userQueue s' = List.filter (live s) (userQueue s)
        ∧ userStreams s' = userStreams s
        ∧ polls (effects s') = polls (effects s) ++ rev (List.filter (live s) (userQueue s))
        ∧ Forall (λ u, live s' u = true) (userQueue s').
Proof.
  intros Hlen Hps Hrun.
  destruct (turn (userQueue s) [] ps s Hlen Hps Hrun eq_refl)
    as (s' & Hs' & Hq' & Hm' & Hp').
  rewrite app_nil_r in Hq'.
  exists s'. split; [done|]. split; [done|]. split; [done|]. split; [done|].
  rewrite Hq'. apply Forall_forall. intros u Hu.
  apply list_elem_of_In, List.filter_In in Hu as [_ Hu].
  unfold live in *. by rewrite Hm'.
Qed.

(** *** What a resolved feed request leaves behind *)

Definition with_lastReadTs (ts : Z) (st : UserStream) : UserStream :=
  {| octoKit := octoKit st; userId := userId st; roomId := roomId st;
     lastReadTs := ts |}.

(** The message of lines 103-111 for a stream and a batch. *)
Definition events_message (st : UserStream) (evs : list UserNotification)
    : MessageQueueMessage UserNotificationsEvent :=
  {| eventName := "notifications.user.events";
     data := {| ev_roomId := roomId st; events := evs;
                ev_lastReadTs := lastReadTs st |};
     sender := "GithubWebhooks" |}.

Lemma set_lastReadTs_lookup ref ts s st :
  objects s !! ref = Some st →
  objects (set_lastReadTs ref ts s) !! ref = Some (with_lastReadTs ts st).
Proof.
  intros Ho. unfold set_lastReadTs, deref. rewrite Ho. simpl.
  apply list_lookup_insert_eq. by eapply lookup_lt_Some.
Qed.

Lemma settled_resolved p ref s st fs :
  (feed p).2 = Resolved fs → objects s !! ref = Some st →
  objects (settled p ref s) !! ref = Some (with_lastReadTs (now s) st)
  ∧ ∃ evs, length evs = length fs
      ∧ published (effects (settled p ref s))
        = published (effects s)
          ++ (if delivered p
              then [events_message (with_lastReadTs (now s) st) evs] else [])
      ∧ (delivered p = false →
         ∃ pre, effects (settled p ref s) = pre ++ [Log error ErrorGettingNotifications]).
Proof.
  intros Hfs Ho. unfold settled. rewrite Hfs.
  pose proof (set_lastReadTs_lookup ref (now s) s st Ho) as Ho2.
  assert (Hev : evolves (concat (map fetched_handlers fs)) resource_fx no_ref
            (set_lastReadTs ref (now s) s)
            (preprocess_all ref fs [] (set_lastReadTs ref (now s) s)).1).
  { by apply preprocess_all_evolves. }
  pose proof (preprocess_all_value ref s fs [] (set_lastReadTs ref (now s) s)) as Hv.
  destruct (preprocess_all ref fs [] (set_lastReadTs ref (now s) s)) as [s3 evs].
  simpl in Hev, Hv. cbn [fst snd].
  assert (Ho3 : objects s3 !! ref = Some (with_lastReadTs (now s) st)).
  { eapply evolves_objects; [|exact Hev|exact Ho2]. by intros []. }
  assert (Hp3 : published (effects s3) = published (effects s)).
  { eapply (evolves_mono _ _ _ no_push) in Hev; [|done| |done].
    - by rewrite (published_evolves _ _ _ _ Hev).
    - by intros [[] []| |? []|]. }
  assert (Hmsg : batch_message s3 ref evs
                 = events_message (with_lastReadTs (now s) st) evs).
  { unfold batch_message, events_message, deref. by rewrite Ho3. }
  destruct (delivered p).
  - split; [exact Ho3|]. exists evs. split; [by rewrite Hv, length_map|].
    split; [|done]. simpl. by rewrite published_app, Hp3, Hmsg.
  - split; [exact Ho3|]. exists evs. split; [by rewrite Hv, length_map|].
    split; [|intros _; by eexists]. simpl.
    by rewrite published_app, Hp3.
Qed.

(** The state of [poll] when the reply to the feed request arrives. *)
Definition replied (p : Pass) (u : string) (ref : nat) (s : State) : State :=
  let s2 := log info (Getting u (lastReadTs (deref (waited p ref s) ref)))
              (waited p ref s) in
  await (feed p).1 (emit (feed_request ref s2) s2).

Lemma poll_sendable p u ref s st :
  objects s !! ref = Some st → sendable (lastReadTs st) = true →
  poll p u ref s
  = with_userQueue (unshift u (userQueue (settled p ref (replied p u ref s))))
      (settled p ref (replied p u ref s)).
Proof.
  intros Ho Hsend. rewrite poll_eq. cbn zeta.
  destruct (waited_deref p u ref s st Ho) as [Hd2 Hd1].
  rewrite fetched_eq. unfold replied. rewrite Hd1, Hd2, Hsend. done.
Qed.

Lemma replied_evolves p u ref s :
  evolves (handlers p) no_push no_ref s (replied p u ref s).
Proof.
  unfold replied.
  eapply evolves_trans; [|apply await_evolves, handlers_feed].
  eapply evolves_trans; [|apply evolves_emit; done].
  eapply evolves_trans; [|apply evolves_emit; done].
  eapply evolves_mono;
    [| | |apply (waited_evolves (handlers p) no_ref); apply handlers_throttle];
    [done|apply timer_fx_no_push|done].
Qed.

Lemma now_replied p u ref s :
  now (replied p u ref s) = now (waited p ref s) + Z.of_N (elapsed (feed p).1).
Proof. unfold replied. by rewrite now_await. Qed.

(** When the reply arrives: the request time of the pass plus the time
    the reply took. *)
Definition reply_time (p : Pass) (s : State) (st : UserStream) : Z :=
  let wait := MIN_INTERVAL_MS - (now s - lastReadTs st) in
  now s + (if 0 <? wait then timer_delay wait + Z.of_N (elapsed (throttle p)) else 0)
  + Z.of_N (elapsed (feed p).1).

Lemma now_replied_reply_time p u ref s st :
  objects s !! ref = Some st →
  now (replied p u ref s) = reply_time p s st.
Proof.
  intros Ho. rewrite now_replied, now_waited. unfold reply_time, interval_of, deref.
  by rewrite Ho.
Qed.

Lemma reply_time_not_before_now p s st : now s ≤ reply_time p s st.
Proof.
  unfold reply_time. cbn zeta.
  pose proof (timer_delay_pos (MIN_INTERVAL_MS - (now s - lastReadTs st))).
  destruct (0 <? _); lia.
Qed.

Lemma reply_time_not_before p s st :
  MIN_INTERVAL_MS - (now s - lastReadTs st) ≤ TIMEOUT_MAX →
  lastReadTs st + MIN_INTERVAL_MS ≤ reply_time p s st.
Proof.
  intros Hmax. unfold reply_time. cbn zeta. destruct (0 <? _) eqn:E; [|lia].
  apply Z.ltb_lt in E. rewrite timer_delay_id by lia. lia.
Qed.

Lemma poll_resolved p u ref s st fs :
  objects s !! ref = Some st → sendable (lastReadTs st) = true →
  (feed p).2 = Resolved fs →
  objects (poll p u ref s) !! ref = Some (with_lastReadTs (reply_time p s st) st)
  ∧ ∃ evs, length evs = length fs
      ∧ published (effects (poll p u ref s))
        = published (effects s)
          ++ (if delivered p
              then [events_message (with_lastReadTs (reply_time p s st) st) evs]
              else [])
      ∧ (delivered p = false →
         ∃ pre, effects (poll p u ref s) = pre ++ [Log error ErrorGettingNotifications]).
Proof.
  intros Ho Hsend Hfs. rewrite (poll_sendable p u ref s st Ho Hsend).
  pose proof (replied_evolves p u ref s) as Hev.
  assert (Ho3 : objects (replied p u ref s) !! ref = Some st).
  { eapply evolves_objects; [|exact Hev|done]. by intros []. }
  destruct (settled_resolved p ref (replied p u ref s) st fs Hfs Ho3)
    as (Hobj & evs & Hlen & Hpub & Herr).
  rewrite (now_replied_reply_time p u ref s st Ho) in Hobj, Hpub.
  rewrite (published_evolves _ _ _ _ Hev) in Hpub.
  split; [exact Hobj|]. exists evs. split; [done|]. split; [exact Hpub|exact Herr].
Qed.

(** X7.  A pass whose feed request resolves writes the time the reply
    arrived into the polled stream's [lastReadTs] and, when the publish
    is delivered, publishes exactly one message: topic
    [notifications.user.events], sender [GithubWebhooks], the stream's
    room, that same time as [lastReadTs], and one event per notification
    of the reply, so an empty reply still publishes a message, with no
    events.  The reply time is the time the pass began plus the timer's
    delay, if a timer was set, plus the time the reply took; it is at
    least 45000 ms after the stream's old [lastReadTs] whenever the wait
    is at most 2^31-1, the largest delay a timer takes. *)
Theorem resolved_fetch_publishes p s q u ref st fs :
  userQueue s = q ++ [u] →
  truthy u = true →
  userStreams s !! u = Some ref →
  objects s !! ref = Some st →
  (lastReadTs st =? 0) || valid_date (lastReadTs st) = true →
  (feed p).2 = Resolved fs →
  delivered p = true →
  let wait := MIN_INTERVAL_MS - (now s - lastReadTs st) in
  let t_reply :=
    now s + (if 0 <? wait then timer_delay wait + Z.of_N (elapsed (throttle p)) else 0)
    + Z.of_N (elapsed (feed p).1) in
  objects (iteration p s) !! ref
  = Some {| octoKit := octoKit st; userId := userId st; roomId := roomId st;
            lastReadTs := t_reply |}
  ∧ (∃ evs, length evs = length fs
       ∧ published (effects (iteration p s))
         = published (effects s)
           ++ [ {| eventName := "notifications.user.events";
                   data := {| ev_roomId := roomId st; events := evs;
                              ev_lastReadTs := t_reply |};
                   sender := "GithubWebhooks" |} ])
  ∧ now s ≤ t_reply
  ∧ (wait ≤ 2147483647 → lastReadTs st + 45000 ≤ t_reply).
Proof.
  intros Hq Hu Hs Ho Hsend Hfs Hd wait t_reply.
  rewrite (iteration_live p s q u ref Hq Hu Hs).
  destruct (poll_resolved p u ref (with_userQueue q s) st fs Ho Hsend Hfs)
    as (Hobj & evs & Hlen & Hpub & _).
  rewrite Hd in Hpub.
  split; [exact Hobj|]. split; [by exists evs|]. split.
  - apply (reply_time_not_before_now p (with_userQueue q s) st).
  - apply (reply_time_not_before p (with_userQueue q s) st).
Qed.

(** X8.  When the feed request resolves but the publish throws, the
    batch is lost: nothing is published and the error is logged, yet the
    stream's [lastReadTs] has already been overwritten with the time the
    reply arrived, and the user is put back at index 0 as after any poll.
    That time is later than the old [lastReadTs] whenever the wait is at
    most 2^31-1, the largest delay a timer takes. *)
Theorem failed_publish_still_sets_lastReadTs p s q u ref st fs :
  userQueue s = q ++ [u] →
  truthy u = true →
  userStreams s !! u = Some ref →
  objects s !! ref = Some st →
  (lastReadTs st =? 0) || valid_date (lastReadTs st) = true →
  (feed p).2 = Resolved fs →
  delivered p = false →
  let wait := MIN_INTERVAL_MS - (now s - lastReadTs st) in
  let t_reply :=
    now s + (if 0 <? wait then timer_delay wait + Z.of_N (elapsed (throttle p)) else 0)
    + Z.of_N (elapsed (feed p).1) in
  published (effects (iteration p s)) = published (effects s)
  ∧ lastReadTs (deref (iteration p s) ref) = t_reply
  ∧ now s ≤ t_reply
  ∧ (wait ≤ 2147483647 → lastReadTs st < t_reply)
  ∧ (∃ pre, effects (iteration p s) = pre ++ [Log error ErrorGettingNotifications])
  ∧ (∃ added, userQueue (iteration p s) = u :: q ++ added).
Proof.
  intros Hq Hu Hs Ho Hsend Hfs Hd wait t_reply.
  assert (Hlt : wait ≤ 2147483647 → lastReadTs st < t_reply).
  { intros Hmax.
    pose proof (reply_time_not_before p (with_userQueue q s) st Hmax) as Hle.
    unfold reply_time, MIN_INTERVAL_MS in Hle. simpl in Hle.
    unfold t_reply, wait, MIN_INTERVAL_MS. lia. }
  assert (Hre : ∃ added, userQueue (iteration p s) = u :: q ++ added)
    by (by eapply iteration_requeues).
  rewrite (iteration_live p s q u ref Hq Hu Hs) in *.
  destruct (poll_resolved p u ref (with_userQueue q s) st fs Ho Hsend Hfs)
    as (Hobj & evs & Hlen & Hpub & Herr).
  rewrite Hd in Hpub. rewrite app_nil_r in Hpub.
  split; [exact Hpub|]. split; [unfold deref; by rewrite Hobj|].
  split; [apply (reply_time_not_before_now p (with_userQueue q s) st)|].
  split; [exact Hlt|]. split; [by apply Herr|exact Hre].
Qed.

(** *** A timestamp that cannot be formatted *)

Lemma objects_with_userQueue q s : objects (with_userQueue q s) = objects s.
Proof. reflexivity. Qed.

Lemma userStreams_with_userQueue q s :
  userStreams (with_userQueue q s) = userStreams s.
Proof. reflexivity. Qed.

Definition local_fx (e : Effect) : Prop :=
  match e with Request _ _ _ | Push _ => False | _ => True end.

Lemma local_evolves_effects hs W s s' :
  evolves hs local_fx W s s' →
  feed_requests (effects s') = feed_requests (effects s)
  ∧ resource_requests (effects s') = resource_requests (effects s)
  ∧ published (effects s') = published (effects s).
Proof.
  intros Hev. unfold feed_requests, resource_requests, published.
  split; [|split]; apply (evolves_omap _ hs local_fx W); try done.
  all: try by intros [[] []| | |].
  all: by intros [| |? []|].
Qed.

Lemma poll_unsendable p u ref s st :
  objects s !! ref = Some st → sendable (lastReadTs st) = false →
  poll p u ref s
  = let s3 := log error ErrorGettingNotifications
                (log info (Getting u (lastReadTs st)) (waited p ref s)) in
    with_userQueue (unshift u (userQueue s3)) s3.
Proof.
  intros Ho Hsend. rewrite poll_eq. cbn zeta.
  destruct (waited_deref p u ref s st Ho) as [Hd2 Hd1].
  by rewrite fetched_eq, Hd1, Hd2, Hsend.
Qed.

(** X9.  A stream whose [lastReadTs] is not zero and lies outside the
    range [toISOString] accepts is never fetched: the pass that pops its
    user waits out the interval if there is one, then fails building the
    query before any request, logs the error, publishes nothing, leaves
    the stream as it was and puts the user back, so the same happens at
    the user's next turn. *)
Theorem unformattable_since_is_never_sent p s q u ref st :
  userQueue s = q ++ [u] →
  truthy u = true →
  userStreams s !! u = Some ref →
  objects s !! ref = Some st →
  lastReadTs st ≠ 0 →
  valid_date (lastReadTs st) = false →
  feed_requests (effects (iteration p s)) = feed_requests (effects s)
  ∧ resource_requests (effects (iteration p s)) = resource_requests (effects s)
  ∧ published (effects (iteration p s)) = published (effects s)
  ∧ (∃ pre, effects (iteration p s) = pre ++ [Log error ErrorGettingNotifications])
  ∧ objects (iteration p s) !! ref = Some st
  ∧ (∃ added, userQueue (iteration p s) = u :: q ++ added).
Proof.
  intros Hq Hu Hs Ho Hnz Hbad.
  assert (Hsend : sendable (lastReadTs st) = false).
  { unfold sendable. rewrite Hbad, orb_false_r. by apply Z.eqb_neq. }
  assert (Hre : ∃ added, userQueue (iteration p s) = u :: q ++ added)
    by (by eapply iteration_requeues).
  rewrite (iteration_live p s q u ref Hq Hu Hs) in *.
  rewrite (poll_unsendable p u ref (with_userQueue q s) st Ho Hsend) in *.
  cbn zeta in *.
  assert (Hev : evolves (handlers p) local_fx no_ref (with_userQueue q s)
            (log error ErrorGettingNotifications
               (log info (Getting u (lastReadTs st))
                  (waited p ref (with_userQueue q s))))).
  { eapply evolves_trans; [|apply evolves_emit; done].
    eapply evolves_trans; [|apply evolves_emit; done].
    eapply evolves_mono;
      [| | |apply (waited_evolves (handlers p) no_ref); apply handlers_throttle];
      [done| |done].
    by intros [[] []| | |]. }
  destruct (local_evolves_effects _ _ _ _ Hev) as (Hf & Hr & Hp).
  split; [exact Hf|]. split; [exact Hr|]. split; [exact Hp|].
  split; [by eexists|]. split; [|exact Hre].
  rewrite objects_with_userQueue.
  eapply evolves_objects; [|exact Hev|exact Ho]. by intros [].
Qed.

(** *** Handlers that run while a poll is in flight *)

Lemma removed_stays_removed u : ∀ l s,
  (∀ d, AddUser d ∈ l → user_id d ≠ u) →
  RemoveUser u ∈ l ∨ userStreams s !! u = None →
  userStreams (foldl handle s l) !! u = None.
Proof.
  induction l as [|h l IH]; intros s Hadd Hrem; simpl.
  - destruct Hrem as [Hin|Hn]; [by apply elem_of_nil in Hin|done].
  - apply IH.
    + intros d Hd. apply Hadd. by apply elem_of_cons; right.
    + destruct Hrem as [Hin|Hn].
      * apply elem_of_cons in Hin as [<-|Hin]; [|by left].
        right. simpl. apply lookup_delete_eq.
      * right. apply handle_unregistered; [|done].
        intros d ->. apply Hadd. by apply elem_of_cons; left.
Qed.

(** X10.  Disabling a user while the request for the user's feed is in
    flight does not stop the pass.  The request has gone out with the
    [since] of the removed stream, the user is put back at index 0 of the
    array although the map no longer has a stream for the user, and a
    reply that resolves is still published to the removed stream's
    room. *)
Theorem removal_during_fetch_is_not_seen p s q u ref st :
  userQueue s = q ++ [u] →
  truthy u = true →
  userStreams s !! u = Some ref →
  objects s !! ref = Some st →
  (lastReadTs st =? 0) || valid_date (lastReadTs st) = true →
  RemoveUser u ∈ during (feed p).1 →
  no_addUser u p →
  let wait := MIN_INTERVAL_MS - (now s - lastReadTs st) in
  let t_req :=
    now s + (if 0 <? wait then timer_delay wait + Z.of_N (elapsed (throttle p)) else 0) in
  let t_reply := t_req + Z.of_N (elapsed (feed p).1) in
  feed_requests (effects (iteration p s))
  = feed_requests (effects s)
    ++ [(if lastReadTs st =? 0 then None else Some (lastReadTs st), t_req)]
  ∧ userStreams (iteration p s) !! u = None
  ∧ (∃ added, userQueue (iteration p s) = u :: q ++ added)
  ∧ (∀ fs, (feed p).2 = Resolved fs → delivered p = true →
     ∃ evs, length evs = length fs
       ∧ published (effects (iteration p s))
         = published (effects s)
           ++ [ {| eventName := "notifications.user.events";
                   data := {| ev_roomId := roomId st; events := evs;
                              ev_lastReadTs := t_reply |};
                   sender := "GithubWebhooks" |} ]).
Proof.
  intros Hq Hu Hs Ho Hsend Hrem Hadd wait t_req t_reply.
  assert (Hre : ∃ added, userQueue (iteration p s) = u :: q ++ added)
    by (by eapply iteration_requeues).
  rewrite (iteration_live p s q u ref Hq Hu Hs) in *.
  split; [|split; [|split; [exact Hre|]]].
  - rewrite (poll_feed_requests p u ref (with_userQueue q s) st Ho).
    fold (sendable (lastReadTs st)) in Hsend. rewrite Hsend.
    rewrite now_waited. unfold interval_of, deref. simpl. by rewrite Ho.
  - rewrite (poll_sendable p u ref (with_userQueue q s) st Ho Hsend). simpl.
    eapply (evolves_unregistered (handlers p) settle_fx any_ref);
      [exact Hadd| |].
    + apply settled_evolves; [apply handlers_fetched|done].
    + unfold replied, await. simpl. apply removed_stays_removed; [|by left].
      intros d Hd. apply Hadd. by apply handlers_feed.
  - intros fs Hfs Hd.
    destruct (poll_resolved p u ref (with_userQueue q s) st fs Ho Hsend Hfs)
      as (_ & evs & Hlen & Hpub & _).
    rewrite Hd in Hpub. by exists evs.
Qed.

Lemma evolves_quiet_objects K s s' :
  evolves [] K no_ref s s' → objects s' = objects s.
Proof.
  intros Hev.
  apply (evolves_inv (λ x, objects x = objects s) [] K no_ref s s'); auto.
  - intros x h Hin. by apply elem_of_nil in Hin.
  - by intros x r ts [].
Qed.

Lemma replied_reenabled p u ref s d :
  userStreams s !! u = Some ref → user_id d = u →
  during (throttle p) = [] → during (feed p).1 = [AddUser d] →
  userQueue (replied p u ref s) = userQueue s
  ∧ userStreams (replied p u ref s) = <[u := length (objects s)]> (userStreams s)
  ∧ objects (replied p u ref s) = objects s ++ [stream_of d].
Proof.
  intros Hs Hd Hthr Hfeed.
  assert (Hw : evolves [] timer_fx no_ref s (waited p ref s))
    by (apply waited_evolves; by rewrite Hthr).
  pose proof (evolves_quiet_objects _ _ _ Hw) as Hwo.
  apply evolves_quiet in Hw as [Hwm Hwq].
  unfold replied, await. rewrite Hfeed.
  generalize dependent (waited p ref s). intros s1 Hwo Hwm Hwq.
  rewrite foldl_handle_cons. change (foldl handle ?x []) with x.
  rewrite userQueue_advance, userStreams_advance, objects_advance.
  change (handle ?x (AddUser d)) with (addUser d x).
  match goal with |- context [addUser d ?x] =>
    destruct (addUser_fields d x) as (Hm & Hob & Hqu);
    change (userStreams x) with (userStreams s1) in Hm, Hqu;
    change (objects x) with (objects s1) in Hm, Hob;
    change (userQueue x) with (userQueue s1) in Hqu
  end.
  rewrite Hm, Hob, Hqu, Hwo, Hwm, Hwq, Hd, Hs.
  by rewrite bool_decide_eq_true_2 by eauto.
Qed.

(** X11.  Enabling a user again while the request for the user's feed
    is in flight: [addUser] puts a new stream object into the map, and the
    pass goes on with the object it read before the request.  The array
    gets no second entry for the user, the time of the reply is written
    into the old object, which the map no longer holds, and the stream the
    map holds afterwards still has the [since] of the event. *)
Theorem reenabled_during_fetch_keeps_since p s q u ref st d fs :
  userQueue s = q ++ [u] →
  truthy u = true →
  userStreams s !! u = Some ref →
  objects s !! ref = Some st →
  (lastReadTs st =? 0) || valid_date (lastReadTs st) = true →
  user_id d = u →
  during (throttle p) = [] →
  during (feed p).1 = [AddUser d] →
  (feed p).2 = Resolved fs →
  concat (map fetched_handlers fs) = [] →
  let wait := MIN_INTERVAL_MS - (now s - lastReadTs st) in
  let t_reply :=
    now s + (if 0 <? wait then timer_delay wait + Z.of_N (elapsed (throttle p)) else 0)
    + Z.of_N (elapsed (feed p).1) in
  userQueue (iteration p s) = u :: q
  ∧ (∃ r, userStreams (iteration p s) !! u = Some r
          ∧ r ≠ ref
          ∧ objects (iteration p s) !! r
            = Some {| octoKit := token d; userId := u; roomId := room_id d;
                      lastReadTs := since d |})
  ∧ objects (iteration p s) !! ref
    = Some {| octoKit := octoKit st; userId := userId st; roomId := roomId st;
              lastReadTs := t_reply |}.
Proof.
  intros Hq Hu Hs Ho Hsend Hd Hthr Hfeed Hfs Hquiet wait t_reply.
  rewrite (iteration_live p s q u ref Hq Hu Hs).
  destruct (poll_resolved p u ref (with_userQueue q s) st fs Ho Hsend Hfs)
    as (Hobj & _).
  split; [|split; [|exact Hobj]];
    rewrite (poll_sendable p u ref (with_userQueue q s) st Ho Hsend).
  all: destruct (replied_reenabled p u ref (with_userQueue q s) d Hs Hd Hthr Hfeed)
         as (Rq & Rm & Ro).
  all: assert (Hset : evolves [] settle_fx (λ r, r = ref)
                        (replied p u ref (with_userQueue q s))
                        (settled p ref (replied p u ref (with_userQueue q s))))
         by (apply settled_evolves; [by rewrite Hfs, Hquiet|done]).
  all: generalize dependent (replied p u ref (with_userQueue q s)).
  all: intros s2 Rq Rm Ro Hset.
  all: generalize dependent (settled p ref s2); intros s3 Hset.
  - apply evolves_quiet in Hset as [_ Hsq]. simpl. by rewrite Hsq, Rq.
  - exists (length (objects s)).
    assert (Hne : length (objects s) ≠ ref).
    { apply lookup_lt_Some in Ho. simpl in Ho. lia. }
    split; [|split; [done|]].
    + apply evolves_quiet in Hset as [Hsm _]. simpl. rewrite Hsm, Rm.
      apply lookup_insert_eq.
    + simpl. eapply evolves_objects; [|exact Hset|]; [done|].
      rewrite Ro. simpl. rewrite lookup_app_r, Nat.sub_diag by done.
      unfold stream_of. by rewrite Hd.
Qed.

(** *** No back-off *)

Lemma now_waited_due p ref s st :
  objects s !! ref = Some st → lastReadTs st + MIN_INTERVAL_MS ≤ now s →
  now (waited p ref s) = now s.
Proof.
  intros Ho Hdue. rewrite now_waited. unfold interval_of, deref. rewrite Ho. simpl.
  destruct (0 <? _) eqn:E; [|lia]. apply Z.ltb_lt in E. lia.
Qed.

Lemma poll_rejected_quiet p u ref s st :
  objects s !! ref = Some st → sendable (lastReadTs st) = true →
  (feed p).2 = Rejected → quiet p →
  userStreams (poll p u ref s) = userStreams s
  ∧ userQueue (poll p u ref s) = u :: userQueue s
  ∧ objects (poll p u ref s) !! ref = Some st
  ∧ now (poll p u ref s) = now (waited p ref s) + Z.of_N (elapsed (feed p).1).
Proof.
  intros Ho Hsend Hrej Hp.
  rewrite (poll_sendable p u ref s st Ho Hsend), (settled_rejected _ _ _ Hrej).
  pose proof (replied_evolves p u ref s) as Hev.
  unfold quiet in Hp. rewrite Hp in Hev.
  pose proof (evolves_quiet_objects _ _ _ Hev) as Hobj.
  pose proof (now_replied p u ref s) as Hnow.
  apply evolves_quiet in Hev as [Hm Hq].
  generalize dependent (replied p u ref s). intros s2 Hm Hq Hobj Hnow.
  simpl. unfold unshift. repeat split; congruence.
Qed.

(** X16.  There is no back-off.  With one user in the array whose
    stream is due, a feed request that is rejected is sent again by the
    very next pass, with the same [since], at the time the rejection
    arrived: no timer runs between the two. *)
Theorem rejected_fetch_is_retried_at_once p p' s u ref st :
  userQueue s = [u] →
  truthy u = true →
  userStreams s !! u = Some ref →
  objects s !! ref = Some st →
  (lastReadTs st =? 0) || valid_date (lastReadTs st) = true →
  lastReadTs st + 45000 ≤ now s →
  (feed p).2 = Rejected →
  quiet p →
  let since := if lastReadTs st =? 0 then None else Some (lastReadTs st) in
  feed_requests (effects (iteration p' (iteration p s)))
  = feed_requests (effects s)
    ++ [(since, now s); (since, now s + Z.of_N (elapsed (feed p).1))].
Proof.
  intros Hq Hu Hs Ho Hsend Hdue Hrej Hp since.
  fold (sendable (lastReadTs st)) in Hsend.
  assert (H1 : iteration p s = poll p u ref (with_userQueue [] s))
    by (by apply iteration_live).
  destruct (poll_rejected_quiet p u ref (with_userQueue [] s) st Ho Hsend Hrej Hp)
    as (Hm1 & Hq1 & Ho1 & Hn1).
  pose proof (poll_feed_requests p u ref (with_userQueue [] s) st Ho) as Hf1.
  rewrite (now_waited_due p ref (with_userQueue [] s) st Ho Hdue) in Hn1, Hf1.
  rewrite <- H1 in Hm1, Hq1, Ho1, Hn1, Hf1.
  generalize dependent (iteration p s). intros s1 _ Hm1 Hq1 Ho1 Hn1 Hf1.
  simpl in Hm1, Hq1, Hn1, Hf1.
  assert (Hs1 : userStreams s1 !! u = Some ref) by (by rewrite Hm1).
  rewrite (iteration_live p' s1 [] u ref Hq1 Hu Hs1).
  rewrite (poll_feed_requests p' u ref (with_userQueue [] s1) st Ho1).
  rewrite (now_waited_due p' ref (with_userQueue [] s1) st Ho1)
    by (simpl; unfold MIN_INTERVAL_MS; lia).
  change (effects (with_userQueue [] s1)) with (effects s1).
  change (now (with_userQueue [] s1)) with (now s1).
  rewrite Hf1, Hsend, Hn1, <- app_assoc. done.
Qed.

(** *** The watcher's further properties on concrete runs *)

(** A pass with no handler running whose publish throws. *)
Definition undelivered (reply : Outcome (list Fetched)) : Pass :=
  {| idle := at_once; throttle := at_once; feed := (at_once, reply);
     delivered := false |}.

(** A pass during whose feed request the handlers [hs] run; the reply
    takes 120 ms. *)
Definition interrupted (hs : list Handler) (reply : Outcome (list Fetched)) : Pass :=
  {| idle := at_once; throttle := at_once;
     feed := ({| during := hs; elapsed := 120 |}, reply); delivered := true |}.

(** A user enabled with a [since] one millisecond past the last date. *)
Definition eve : NotificationsEnableEvent :=
  {| user_id := "@eve:example.org"; room_id := "!e:example.org";
     since := 8640000000000001; token := "token-e" |}.

(** Alice enabling again, from another room, with notifications read at
    boot. *)
Definition alice_moved : NotificationsEnableEvent :=
  {| user_id := "@alice:example.org"; room_id := "!a2:example.org";
     since := boot; token := "token-a2" |}.

(** X2 for Alice on a fresh watcher. *)
Lemma disable_after_enable_witness :
  userStreams (removeUser (user_id alice) (addUser alice (new boot))) = ∅
  ∧ userQueue (removeUser (user_id alice) (addUser alice (new boot))) = [user_id alice].
Proof.
  destruct (disable_after_enable alice (new boot)) as (Hm & Hq & _).
  - apply lookup_empty.
  - split; [exact Hm|exact Hq].
Defined.

(** X3 for Alice, enabled before [start()], after two passes. *)
Lemma registered_users_stay_queued_witness :
  user_id alice
  ∈ userQueue (state_of (fetchUserNotifications [calm (Resolved []); calm Rejected]
                           (start (foldl handle (new boot) [AddUser alice])))).
Proof.
  apply (registered_users_stay_queued boot [AddUser alice]
           [calm (Resolved []); calm Rejected] (user_id alice)).
  - reflexivity.
  - exists 0%nat. vm_compute. reflexivity.
Defined.

(** X4 on the first pass of a fresh watcher, Alice enabling meanwhile. *)
Lemma nothing_to_poll_witness :
  let s := start (new boot) in
  let s' := iteration (enabling [AddUser alice]) s in
  now s' = boot + 5000
  ∧ feed_requests (effects s') = []
  ∧ published (effects s') = [].
Proof.
  intros s s'.
  destruct (nothing_to_poll (enabling [AddUser alice]) s)
    as (_ & Hnow & _ & _ & _ & Hf & _ & Hp & _).
  - intros u Hu. discriminate Hu.
  - split; [exact Hnow|]. split; [exact Hf|exact Hp].
Defined.

(** X5: the pass that polls Bob leaves Alice's stream alone. *)
Lemma pass_leaves_other_streams_witness :
  let s := after_first_pass [AddUser alice; AddUser bob] in
  last (userQueue s) = Some (user_id bob)
  ∧ objects (iteration (calm (Resolved [both_reachable])) s) !! 0%nat
    = Some (stream_of alice).
Proof.
  intros s. split; [vm_compute; reflexivity|].
  apply (pass_leaves_other_streams (calm (Resolved [both_reachable])) s 0
           (stream_of alice)).
  - vm_compute. reflexivity.
  - intros u Hu. vm_compute in Hu. injection Hu as <-.
    vm_compute. intros H. discriminate H.
Defined.

(** X6: Alice and Bob stay, the entry of Carol, disabled meanwhile, goes. *)
Lemma full_turn_witness :
  let s := after_first_pass
             [AddUser alice; AddUser carol; AddUser bob; RemoveUser (user_id carol)] in
  ∃ s', fetchUserNotifications [calm (Resolved []); calm Rejected; calm Rejected] s
        = Running s'
        ∧ userQueue s = [user_id alice; user_id carol; user_id bob]
        ∧ userQueue s' = [user_id alice; user_id bob]
        ∧ polls (effects s') = [user_id bob; user_id alice].
Proof.
  intros s.
  destruct (full_turn [calm (Resolved []); calm Rejected; calm Rejected] s)
    as (s' & Hs' & Hq & _ & Hp & _).
  - vm_compute. reflexivity.
  - repeat constructor.
  - reflexivity.
  - exists s'. split; [exact Hs'|]. split; [vm_compute; reflexivity|].
    split; [rewrite Hq|rewrite Hp]; vm_compute; reflexivity.
Defined.

(** X7 for Alice's first poll: one notification comes back. *)
Lemma resolved_fetch_publishes_witness :
  let s := after_first_pass [AddUser alice] in
  let s' := iteration (interrupted [] (Resolved [both_reachable])) s in
  objects s' !! 0%nat
  = Some {| octoKit := "token-a"; userId := user_id alice; roomId := room_id alice;
            lastReadTs := boot + 5120 |}
  ∧ ∃ evs, length evs = 1%nat
      ∧ published (effects s')
        = [ {| eventName := "notifications.user.events";
               data := {| ev_roomId := room_id alice; events := evs;
                          ev_lastReadTs := boot + 5120 |};
               sender := "GithubWebhooks" |} ].
Proof.
  intros s s'.
  destruct (resolved_fetch_publishes (interrupted [] (Resolved [both_reachable])) s []
              (user_id alice) 0 (stream_of alice) [both_reachable])
    as (Hobj & (evs & Hlen & Hpub) & _).
  - vm_compute. reflexivity.
  - reflexivity.
  - vm_compute. reflexivity.
  - vm_compute. reflexivity.
  - reflexivity.
  - reflexivity.
  - reflexivity.
  - split; [exact Hobj|]. exists evs. split; [exact Hlen|exact Hpub].
Defined.

(** X8 for Alice's first poll. *)
Lemma failed_publish_still_sets_lastReadTs_witness :
  let s := after_first_pass [AddUser alice] in
  let s' := iteration (undelivered (Resolved [both_reachable])) s in
  published (effects s') = []
  ∧ lastReadTs (deref s 0) = 0
  ∧ lastReadTs (deref s' 0) = boot + 5000.
Proof.
  intros s s'.
  destruct (failed_publish_still_sets_lastReadTs (undelivered (Resolved [both_reachable])) s []
              (user_id alice) 0 (stream_of alice) [both_reachable])
    as (Hpub & Hts & _).
  - vm_compute. reflexivity.
  - reflexivity.
  - vm_compute. reflexivity.
  - vm_compute. reflexivity.
  - reflexivity.
  - reflexivity.
  - reflexivity.
  - split; [exact Hpub|]. split; [reflexivity|exact Hts].
Defined.

(** X9 for Eve. *)
Lemma unformattable_since_is_never_sent_witness :
  let s := after_first_pass [AddUser eve] in
  let s' := iteration (calm (Resolved [both_reachable])) s in
  feed_requests (effects s') = []
  ∧ published (effects s') = []
  ∧ objects s' !! 0%nat = Some (stream_of eve).
Proof.
  intros s s'.
  destruct (unformattable_since_is_never_sent (calm (Resolved [both_reachable])) s []
              (user_id eve) 0 (stream_of eve))
    as (Hf & _ & Hp & _ & Ho & _).
  - vm_compute. reflexivity.
  - reflexivity.
  - vm_compute. reflexivity.
  - vm_compute. reflexivity.
  - discriminate.
  - reflexivity.
  - split; [exact Hf|]. split; [exact Hp|exact Ho].
Defined.

(** X10: Alice is disabled while her first feed request is in flight. *)
Lemma removal_during_fetch_is_not_seen_witness :
  let s := after_first_pass [AddUser alice] in
  let s' := iteration (interrupted [RemoveUser (user_id alice)] (Resolved [])) s in
  feed_requests (effects s') = [(None, boot + 5000)]
  ∧ userStreams s' !! user_id alice = None
  ∧ ∃ added, userQueue s' = user_id alice :: added.
Proof.
  intros s s'.
  destruct (removal_during_fetch_is_not_seen
              (interrupted [RemoveUser (user_id alice)] (Resolved [])) s []
              (user_id alice) 0 (stream_of alice))
    as (Hf & Hm & (added & Hq) & _).
  - vm_compute. reflexivity.
  - reflexivity.
  - vm_compute. reflexivity.
  - vm_compute. reflexivity.
  - reflexivity.
  - apply list_elem_of_here.
  - intros d Hd. apply list_elem_of_singleton in Hd. discriminate Hd.
  - split; [exact Hf|]. split; [exact Hm|]. exists added. exact Hq.
Defined.

(** X11: Alice enables again while her first feed request is in flight. *)
Lemma reenabled_during_fetch_keeps_since_witness :
  let s := after_first_pass [AddUser alice] in
  let s' := iteration (interrupted [AddUser alice_moved] (Resolved [])) s in
  userQueue s' = [user_id alice]
  ∧ (∃ r, userStreams s' !! user_id alice = Some r
          ∧ r ≠ 0%nat
          ∧ objects s' !! r = Some (stream_of alice_moved))
  ∧ objects s' !! 0%nat = Some (with_lastReadTs (boot + 5120) (stream_of alice)).
Proof.
  intros s s'.
  destruct (reenabled_during_fetch_keeps_since
              (interrupted [AddUser alice_moved] (Resolved [])) s []
              (user_id alice) 0 (stream_of alice) alice_moved [])
    as (Hq & Hr & Ho).
  - vm_compute. reflexivity.
  - reflexivity.
  - vm_compute. reflexivity.
  - vm_compute. reflexivity.
  - reflexivity.
  - reflexivity.
  - reflexivity.
  - reflexivity.
  - reflexivity.
  - reflexivity.
  - split; [exact Hq|]. split; [exact Hr|exact Ho].
Defined.

(** X16 for Alice's first poll, the rejection arriving after 120 ms. *)
Lemma rejected_fetch_is_retried_at_once_witness :
  let s := after_first_pass [AddUser alice] in
  feed_requests
    (effects (iteration (calm Rejected) (iteration (interrupted [] Rejected) s)))
  = [(None, boot + 5000); (None, boot + 5120)].
Proof.
  intros s.
  apply (rejected_fetch_is_retried_at_once (interrupted [] Rejected) (calm Rejected) s
           (user_id alice) 0 (stream_of alice)).
  - vm_compute. reflexivity.
  - reflexivity.
  - vm_compute. reflexivity.
  - vm_compute. reflexivity.
  - reflexivity.
  - vm_compute. discriminate.
  - reflexivity.
  - reflexivity.
Defined.

End WatcherMore.

(* ===================================================================== *)
(** * Two entries for one user *)
(* ===================================================================== *)
Section WatcherPairs.
Import UserNotificationWatcher.

Lemma iteration_now_le p s : now s ≤ now (iteration p s).
Proof.
  destruct (iteration_shape p s) as (s3 & q' & Hev & ->).
  by apply evolves_now_le in Hev.
Qed.

Lemma loop_now_le ps : ∀ s, now s ≤ now (state_of (fetchUserNotifications ps s)).
Proof.
  induction ps as [|p ps IH]; intros s; simpl; destruct (shouldListen s); try done.
  etransitivity; [apply (iteration_now_le p)|apply IH].
Qed.

(** A time within the range of dates can be sent as [since]. *)
Lemma in_range_sendable ts :
  -8640000000000000 ≤ ts → ts ≤ 8640000000000000 → sendable ts = true.
Proof.
  intros Hlo Hhi. unfold sendable, valid_date.
  apply orb_true_iff. right. apply Z.leb_le. lia.
Qed.

(** While the clock stays within the range of dates, a poll leaves a
    stream that could be sent one that can be sent: its [lastReadTs] is
    as it was or the time a reply arrived. *)
Lemma poll_keeps_sendable p u ref s st :
  objects s !! ref = Some st → sendable (lastReadTs st) = true →
  -8640000000000000 ≤ now s → now (poll p u ref s) ≤ 8640000000000000 →
  ∃ st', objects (poll p u ref s) !! ref = Some st'
         ∧ sendable (lastReadTs st') = true.
Proof.
  intros Ho Hsend Hlo Hhi.
  pose proof (replied_evolves p u ref s) as Hev.
  assert (Ho2 : objects (replied p u ref s) !! ref = Some st).
  { eapply evolves_objects; [|exact Hev|done]. by intros []. }
  apply evolves_now_le in Hev.
  pose proof (settled_evolves (handlers p) any_ref p ref (replied p u ref s)
                (handlers_fetched p) I) as Hset.
  apply evolves_now_le in Hset.
  rewrite (poll_sendable p u ref s st Ho Hsend) in *.
  generalize dependent (replied p u ref s). intros s2 Hhi Hev Ho2 Hset.
  change (now (with_userQueue ?q ?x)) with (now x) in Hhi.
  rewrite objects_with_userQueue.
  destruct (feed p).2 as [fs|] eqn:Hf.
  - destruct (settled_resolved p ref s2 st fs Hf Ho2) as (Hobj & _).
    eexists. split; [exact Hobj|]. simpl. apply in_range_sendable; lia.
  - rewrite (settled_rejected _ _ _ Hf). by exists st.
Qed.

Lemma pair_is_fetched u ref : ∀ ps s st,
  Forall quiet ps → truthy u = true → shouldListen s = true →
  userQueue s = [u; u] → userStreams s !! u = Some ref →
  objects s !! ref = Some st → sendable (lastReadTs st) = true →
  -8640000000000000 ≤ now s →
  now (state_of (fetchUserNotifications ps s)) ≤ 8640000000000000 →
  ∃ new, feed_requests (effects (state_of (fetchUserNotifications ps s)))
         = feed_requests (effects s) ++ new
         ∧ length new = length ps.
Proof.
  induction ps as [|p ps IH]; intros s st Hps Hu Hrun Hq Hs Ho Hsend Hlo Hhi.
  - simpl. rewrite Hrun. exists []. by rewrite app_nil_r.
  - apply Forall_cons in Hps as [Hp Hps].
    destruct (iteration_rotates p s [u] u Hp Hq Hu (ex_intro _ ref Hs))
      as (Hq1 & Hs1 & Hl1 & _).
    rewrite loop_cons in * by done.
    pose proof (loop_now_le ps (iteration p s)) as Hmono.
    pose proof (iteration_now_le p s) as Hstep.
    assert (Hlive : iteration p s = poll p u ref (with_userQueue [u] s))
      by (by apply iteration_live).
    destruct (poll_keeps_sendable p u ref (with_userQueue [u] s) st Ho Hsend Hlo)
      as (st' & Ho' & Hsend'); [rewrite <- Hlive; lia|].
    pose proof (poll_feed_requests p u ref (with_userQueue [u] s) st Ho) as Hf.
    rewrite Hsend in Hf. rewrite <- Hlive in Hf, Ho'.
    generalize dependent (iteration p s). intros s1 Hhi Hq1 Hs1 Hl1 Hmono Hstep _ Ho' Hf.
    destruct (IH s1 st') as (new & Hnew & Hlen); try done.
    + by rewrite Hl1.
    + by rewrite Hs1.
    + lia.
    + eexists (_ :: new). split; [|simpl; by rewrite Hlen].
      rewrite Hnew, Hf. by rewrite <- app_assoc.
Qed.

Lemma addUser_stream d s :
  ∃ ref, userStreams (addUser d s) !! user_id d = Some ref
         ∧ objects (addUser d s) !! ref = Some (stream_of d).
Proof.
  destruct (addUser_fields d s) as (Hm & Ho & _). exists (length (objects s)).
  rewrite Hm, Ho, lookup_insert_eq. split; [done|].
  by rewrite lookup_app_r, Nat.sub_diag.
Qed.

(** C10.  Enabling [u], disabling [u] and enabling [u] again before the
    loop has dequeued the first entry leaves two entries for [u] in the
    array while [u] has a stream.  Every later pass, with no handler
    running, pops one of them, finds the stream, polls [u] and puts [u]
    back: the array stays at two entries, and [u] is polled once per pass,
    twice per turn of the array.  Polled means fetched: when the [since]
    of the second enabling can be sent and the clock stays within the
    range of dates, every one of those passes sends a feed request. *)
Theorem readded_user_has_two_entries t d1 d2 p0 ps :
  user_id d2 = user_id d1 →
  truthy (user_id d1) = true →
  during (idle p0) = [AddUser d1; RemoveUser (user_id d1); AddUser d2] →
  Forall quiet ps →
  userQueue (iteration p0 (start (new t))) = [user_id d1; user_id d1]
  ∧ is_Some (userStreams (iteration p0 (start (new t))) !! user_id d1)
  ∧ ∃ s', fetchUserNotifications (p0 :: ps) (start (new t)) = Running s'
          ∧ userQueue s' = [user_id d1; user_id d1]
          ∧ is_Some (userStreams s' !! user_id d1)
          ∧ polls (effects s') = repeat (user_id d1) (length ps)
          ∧ ((since d2 =? 0) || valid_date (since d2) = true →
             -8640000000000000 ≤ t → now s' ≤ 8640000000000000 →
             length (feed_requests (effects s')) = length ps).
Proof.
  intros Hd2 Hu Hd Hps.
  rewrite (loop_cons p0 ps (start (new t)) eq_refl).
  assert (Hidle : iteration p0 (start (new t))
                  = sleep 5000 (idle p0) (log info NoUsersQueued (start (new t))))
    by (by apply iteration_idle).
  assert (Hf1 : feed_requests (effects (iteration p0 (start (new t)))) = []).
  { rewrite Hidle. by rewrite feed_requests_sleep. }
  pose proof (iteration_now_le p0 (start (new t))) as Hn1.
  change (now (start (new t))) with t in Hn1.
  assert (H1 : userQueue (iteration p0 (start (new t))) = [user_id d1; user_id d1]
               ∧ (∃ ref, userStreams (iteration p0 (start (new t))) !! user_id d1
                         = Some ref
                         ∧ objects (iteration p0 (start (new t))) !! ref
                           = Some (stream_of d2))
               ∧ shouldListen (iteration p0 (start (new t))) = true
               ∧ polls (effects (iteration p0 (start (new t)))) = []).
  { rewrite first_pass, Hd.
    rewrite !foldl_handle_cons.
    rewrite userQueue_advance, userStreams_advance, shouldListen_advance,
      effects_advance, objects_advance.
    change (foldl handle ?s []) with s. unfold handle.
    destruct (readded (first_wait t) d1 d2 Hd2) as (Hq & _); [apply lookup_empty|].
    split; [exact Hq|]. split.
    - rewrite <- Hd2. apply addUser_stream.
    - split; [by rewrite addUser_shouldListen, removeUser_shouldListen,
                   addUser_shouldListen|].
      by rewrite addUser_polls, removeUser_polls, addUser_polls. }
  generalize dependent (iteration p0 (start (new t))). intros s1 _ Hf1 Hn1 H1.
  destruct H1 as (Hq & (ref & Hs & Ho) & Hl & Hp).
  split; [done|]. split; [by eexists|].
  destruct (pair_persists (user_id d1) ps s1 Hps Hu Hl Hq (ex_intro _ ref Hs))
    as (s' & Hs' & Hq' & Hm' & Hp').
  exists s'. split; [done|]. split; [done|]. split; [rewrite Hm'; by eexists|].
  split; [by rewrite Hp', Hp|].
  intros Hsend Hlo Hhi.
  destruct (pair_is_fetched (user_id d1) ref ps s1 (stream_of d2))
    as (reqs & Hreqs & Hlen); try done.
  - lia.
  - by rewrite Hs'.
  - rewrite Hs' in Hreqs. simpl in Hreqs. by rewrite Hreqs, Hf1.
Qed.

(** C10 for Alice, over two passes: both send a feed request. *)
Lemma readded_user_has_two_entries_witness :
  ∃ s', fetchUserNotifications
          [enabling [AddUser alice; RemoveUser (user_id alice); AddUser alice_again];
           calm Rejected; calm (Resolved [])]
          (start (new boot)) = Running s'
        ∧ userQueue s' = [user_id alice; user_id alice]
        ∧ is_Some (userStreams s' !! user_id alice)
        ∧ polls (effects s') = [user_id alice; user_id alice]
        ∧ length (feed_requests (effects s')) = 2%nat.
Proof.
  destruct (readded_user_has_two_entries boot alice alice_again
           (enabling [AddUser alice; RemoveUser (user_id alice); AddUser alice_again])
           [calm Rejected; calm (Resolved [])])
    as (_ & _ & s' & Hs' & Hq & Hm & Hp & Hf).
  - reflexivity.
  - reflexivity.
  - reflexivity.
  - repeat constructor.
  - exists s'. split; [exact Hs'|]. split; [exact Hq|]. split; [exact Hm|].
    split; [exact Hp|]. apply Hf.
    + reflexivity.
    + vm_compute. intros H. discriminate H.
    + vm_compute in Hs'. injection Hs' as <-. vm_compute. intros H. discriminate H.
Defined.

End WatcherPairs.
